(** * text-diff: the HTML diff engine of [src/main.js]

    A shallow embedding of class [HTMLDiff] (tokenizer, token index, block
    matcher, recursive aligner, operation derivation and normalisation, diff
    records, tag-safe wrapper) and of class [Match], followed by the
    properties of the specification checked against it. *)

From Stdlib Require Import ZArith List String Ascii Lia Bool Sorted.
From stdpp Require Import base option list gmap strings.
Import ListNotations.

Local Open Scope Z_scope.

(** * JavaScript values used by the engine *)

(** A JavaScript string is a sequence of UTF-16 code units. *)
Abbreviation jsstring := (list Z).

(** String literals of the source, all ASCII. *)
Definition str (s : string) : jsstring :=
  (fun a => Z.of_nat (nat_of_ascii a)) <$> list_ascii_of_string s.

(** [tokens.join('')] *)
Definition join (tokens : list jsstring) : jsstring := concat tokens.

(** [s.length] *)
Definition strlen (s : jsstring) : Z := Z.of_nat (length s).

(** Truthiness of a string: [if (currentToken)]. *)
Definition truthy (s : jsstring) : bool :=
  match s with [] => false | _ :: _ => true end.

Definition isHighSurrogate (c : Z) : bool := (0xD800 <=? c) && (c <=? 0xDBFF).
Definition isLowSurrogate (c : Z) : bool := (0xDC00 <=? c) && (c <=? 0xDFFF).

(** [for (const char of html)]: the string iterator yields code points, a
    surrogate pair as one two-unit string and any other unit on its own. *)
Fixpoint stringIterator (s : jsstring) : list jsstring :=
  match s with
  | [] => []
  | c :: rest =>
      match rest with
      | d :: rest' =>
          if isHighSurrogate c && isLowSurrogate d
          then [c; d] :: stringIterator rest'
          else [c] :: stringIterator rest
      | [] => [[c]]
      end
  end.

(** [array.slice(start, end)] for integer arguments: negative arguments count
    from the end, and both are clamped to the array. *)
Definition relativeIndex (len i : Z) : Z :=
  if i <? 0 then Z.max (len + i) 0 else Z.min i len.

Definition slice {A} (l : list A) (start stop : Z) : list A :=
  let len := Z.of_nat (length l) in
  let k := relativeIndex len start in
  let final := relativeIndex len stop in
  take (Z.to_nat (final - k)) (drop (Z.to_nat k) l).

(** [array[i]] for an integer [i]; [None] is [undefined]. *)
Definition nthZ {A} (l : list A) (i : Z) : option A :=
  if i <? 0 then None else l !! Z.to_nat i.

(** * Regular expressions

    The four patterns of the source are matched by derivatives over code
    units (none of them carries the [u] flag). *)

Inductive regex : Type :=
| Void : regex
| Eps : regex
| Class : (Z -> bool) -> regex
| Cat : regex -> regex -> regex
| Alt : regex -> regex -> regex
| Star : regex -> regex.

Definition Plus (r : regex) : regex := Cat r (Star r).

Fixpoint nullable (r : regex) : bool :=
  match r with
  | Void => false
  | Eps => true
  | Class _ => false
  | Cat r1 r2 => nullable r1 && nullable r2
  | Alt r1 r2 => nullable r1 || nullable r2
  | Star _ => true
  end.

Fixpoint deriv (c : Z) (r : regex) : regex :=
  match r with
  | Void => Void
  | Eps => Void
  | Class p => if p c then Eps else Void
  | Cat r1 r2 =>
      if nullable r1
      then Alt (Cat (deriv c r1) r2) (deriv c r2)
      else Cat (deriv c r1) r2
  | Alt r1 r2 => Alt (deriv c r1) (deriv c r2)
  | Star r1 => Cat (deriv c r1) (Star r1)
  end.

(** [/^r$/.test(s)] *)
Fixpoint matches (r : regex) (s : jsstring) : bool :=
  match s with
  | [] => nullable r
  | c :: s' => matches (deriv c r) s'
  end.

Definition anyUnit : Z -> bool := fun _ => true.

(** [/r/.test(s)], no anchors: a match anywhere in [s]. *)
Definition search (r : regex) (s : jsstring) : bool :=
  matches (Cat (Star (Class anyUnit)) (Cat r (Star (Class anyUnit)))) s.

(** The language of a pattern. *)
Inductive lang : regex -> jsstring -> Prop :=
| lang_eps : lang Eps []
| lang_class p c : p c = true -> lang (Class p) [c]
| lang_cat r1 r2 s1 s2 : lang r1 s1 -> lang r2 s2 -> lang (Cat r1 r2) (s1 ++ s2)
| lang_alt_l r1 r2 s : lang r1 s -> lang (Alt r1 r2) s
| lang_alt_r r1 r2 s : lang r2 s -> lang (Alt r1 r2) s
| lang_star_nil r : lang (Star r) []
| lang_star_cons r s1 s2 : lang r s1 -> lang (Star r) s2 -> lang (Star r) (s1 ++ s2).

(** ** Character classes *)

(** [\s]: WhiteSpace and LineTerminator code units. *)
Definition class_s (c : Z) : bool :=
  (c =? 0x09) || (c =? 0x0A) || (c =? 0x0B) || (c =? 0x0C) || (c =? 0x0D)
  || (c =? 0x20) || (c =? 0xA0) || (c =? 0x1680)
  || ((0x2000 <=? c) && (c <=? 0x200A))
  || (c =? 0x2028) || (c =? 0x2029) || (c =? 0x202F) || (c =? 0x205F)
  || (c =? 0x3000) || (c =? 0xFEFF).

(** [\w]: ASCII letters, digits and underscore. *)
Definition class_w (c : Z) : bool :=
  ((0x41 <=? c) && (c <=? 0x5A)) || ((0x61 <=? c) && (c <=? 0x7A))
  || ((0x30 <=? c) && (c <=? 0x39)) || (c =? 0x5F).

(** [[\w#@]] under the [i] flag. Without the [u] flag a unit above 127 is
    never folded onto an ASCII one, so the flag adds nothing to the class. *)
Definition class_w_hash_at (c : Z) : bool :=
  class_w c || (c =? 0x23) || (c =? 0x40).

(** [[^>]] *)
Definition class_not_gt (c : Z) : bool := negb (c =? 0x3E).

Definition class_lt (c : Z) : bool := c =? 0x3C.
Definition class_gt (c : Z) : bool := c =? 0x3E.

(** * Helper methods of [HTMLDiff] *)

Definition isEndOfTag (char : jsstring) : bool := bool_decide (char = str ">").

Definition isStartOfTag (char : jsstring) : bool := bool_decide (char = str "<").

(** [/^\s+$/.test(char)] *)
Definition isWhitespace (char : jsstring) : bool := matches (Plus (Class class_s)) char.

(** The structural tag pattern [/^\s*<[^>]+>\s*$/]. *)
Definition tagPattern : regex :=
  Cat (Star (Class class_s))
    (Cat (Class class_lt)
       (Cat (Plus (Class class_not_gt))
          (Cat (Class class_gt) (Star (Class class_s))))).

Definition isTag (token : jsstring) : bool := matches tagPattern token.

(** * The tokenizer *)

Inductive Mode := ModeChar | ModeTag | ModeWhitespace.

(** The three locals of [htmlToTokens]. *)
Record lexer := {
  tokens : list jsstring;
  currentToken : jsstring;
  mode : Mode
}.

(** [if (currentToken) tokens.push(currentToken)] *)
Definition flush (st : lexer) : list jsstring :=
  if truthy (currentToken st) then tokens st ++ [currentToken st] else tokens st.

(** One pass through the body of the [for ... of] loop. *)
Definition htmlToTokens_step (st : lexer) (char : jsstring) : lexer :=
  match mode st with
  | ModeTag =>
      let cur := currentToken st ++ char in
      if isEndOfTag char
      then {| tokens := tokens st ++ [cur];
              currentToken := [];
              mode := if isWhitespace char then ModeWhitespace else ModeChar |}
      else {| tokens := tokens st; currentToken := cur; mode := ModeTag |}
  | ModeChar =>
      if isStartOfTag char
      then {| tokens := flush st; currentToken := char; mode := ModeTag |}
      else if isWhitespace char
      then {| tokens := flush st; currentToken := char; mode := ModeWhitespace |}
      else if search (Class class_w_hash_at) char
      then {| tokens := tokens st; currentToken := currentToken st ++ char;
              mode := ModeChar |}
      else {| tokens := flush st; currentToken := char; mode := ModeChar |}
  | ModeWhitespace =>
      if isStartOfTag char
      then {| tokens := flush st; currentToken := char; mode := ModeTag |}
      else if isWhitespace char
      then {| tokens := tokens st; currentToken := currentToken st ++ char;
              mode := ModeWhitespace |}
      else {| tokens := flush st; currentToken := char; mode := ModeChar |}
  end.

Definition lexer_init : lexer :=
  {| tokens := []; currentToken := []; mode := ModeChar |}.

Definition htmlToTokens (html : jsstring) : list jsstring :=
  flush (fold_left htmlToTokens_step (stringIterator html) lexer_init).

Example htmlToTokens_words :
  htmlToTokens (str "this is  new, <b>x</b>")
  = str <$> ["this"; " "; "is"; "  "; "new"; ","; " "; "<b>"; "x"; "</b>"]%string.
Proof. vm_compute. reflexivity. Qed.

(** * Matching blocks *)

(** Class [Match]. *)
Module Match.
Record t := {
  startInBefore : Z;
  startInAfter : Z;
  length : Z;
  endInBefore : Z;
  endInAfter : Z
}.

(** The constructor. *)
Definition new (startInBefore startInAfter length : Z) : t :=
  {| startInBefore := startInBefore;
     startInAfter := startInAfter;
     length := length;
     endInBefore := startInBefore + length - 1;
     endInAfter := startInAfter + length - 1 |}.
End Match.

(** [inThese.indexOf(token, fromIndex)]: the first position at or after
    [fromIndex] holding [token], or [-1]. *)
Definition indexOf (inThese : list jsstring) (token : jsstring) (fromIndex : Z) : Z :=
  let len := Z.of_nat (length inThese) in
  let k := if fromIndex <? 0 then Z.max (len + fromIndex) 0 else fromIndex in
  match list_find (fun t => t = token) (drop (Z.to_nat k) inThese) with
  | Some (i, _) => k + Z.of_nat i
  | None => -1
  end.

(** The [while (idx !== -1)] loop of [createIndex]; [positions] is the array
    [index[token]]. Every pass moves [idx] forward, so the loop runs at most
    once per element of [inThese]. *)
Fixpoint createIndex_while (fuel : nat) (inThese : list jsstring) (token : jsstring)
    (idx : Z) (positions : list Z) : list Z :=
  if idx =? -1 then positions
  else match fuel with
       | O => positions
       | S fuel' =>
           createIndex_while fuel' inThese token
             (indexOf inThese token (idx + 1)) (positions ++ [idx])
       end.

Definition createIndex (findThese inThese : list jsstring) : gmap (list Z) (list Z) :=
  fold_left
    (fun index token =>
       <[token := createIndex_while (length inThese) inThese token
                    (indexOf inThese token 0) []]> index)
    findThese ∅.

(** The three [bestMatch...] locals of [findMatch]. *)
Record best := {
  bestMatchInBefore : Z;
  bestMatchInAfter : Z;
  bestMatchLength : Z
}.

(** The inner loop of [findMatch] over [locationsInAfter]; the state is
    [newMatchLengthAt] and the best match so far. *)
Fixpoint findMatch_inner (locationsInAfter : list Z)
    (indexInBefore startInAfter endInAfter : Z) (matchLengthAt : gmap Z Z)
    (newMatchLengthAt : gmap Z Z) (b : best) : gmap Z Z * best :=
  match locationsInAfter with
  | [] => (newMatchLengthAt, b)
  | indexInAfter :: rest =>
      if indexInAfter <? startInAfter
      then findMatch_inner rest indexInBefore startInAfter endInAfter
             matchLengthAt newMatchLengthAt b
      else if indexInAfter >=? endInAfter
      then (newMatchLengthAt, b)
      else
        let previousMatchLength := default 0 (matchLengthAt !! (indexInAfter - 1)) in
        let newMatchLength := previousMatchLength + 1 in
        findMatch_inner rest indexInBefore startInAfter endInAfter matchLengthAt
          (<[indexInAfter := newMatchLength]> newMatchLengthAt)
          (if newMatchLength >? bestMatchLength b
           then {| bestMatchInBefore := indexInBefore - newMatchLength + 1;
                   bestMatchInAfter := indexInAfter - newMatchLength + 1;
                   bestMatchLength := newMatchLength |}
           else b)
  end.

(** The property key of [index[lookingFor]]: a token, or ["undefined"] when
    [beforeTokens[indexInBefore]] is out of range. *)
Definition propertyKey (lookingFor : option jsstring) : jsstring :=
  match lookingFor with
  | Some token => token
  | None => str "undefined"
  end.

(** One pass of the outer loop of [findMatch]; the state is [matchLengthAt]
    and the best match so far. *)
Definition findMatch_outer (beforeTokens : list jsstring) (index : gmap (list Z) (list Z))
    (startInAfter endInAfter : Z) (st : gmap Z Z * best) (indexInBefore : Z)
    : gmap Z Z * best :=
  let lookingFor := nthZ beforeTokens indexInBefore in
  let locationsInAfter := default [] (index !! propertyKey lookingFor) in
  findMatch_inner locationsInAfter indexInBefore startInAfter endInAfter
    (fst st) ∅ (snd st).

Definition findMatch_loop (beforeTokens : list jsstring) (index : gmap (list Z) (list Z))
    (startInBefore endInBefore startInAfter endInAfter : Z) : gmap Z Z * best :=
  fold_left (findMatch_outer beforeTokens index startInAfter endInAfter)
    (seqZ startInBefore (endInBefore - startInBefore))
    (∅, {| bestMatchInBefore := startInBefore;
           bestMatchInAfter := startInAfter;
           bestMatchLength := 0 |}).

(** [findMatch]; [None] is [null]. The source reads [afterTokens] only
    through [index]. *)
Definition findMatch (beforeTokens afterTokens : list jsstring)
    (index : gmap (list Z) (list Z))
    (startInBefore endInBefore startInAfter endInAfter : Z) : option Match.t :=
  let b := snd (findMatch_loop beforeTokens index
                  startInBefore endInBefore startInAfter endInAfter) in
  if negb (bestMatchLength b =? 0)
  then Some (Match.new (bestMatchInBefore b) (bestMatchInAfter b) (bestMatchLength b))
  else None.

(** [recursivelyFindMatchingBlocks]: the array [matchingBlocks] is threaded
    through the calls; [None] when the recursion is deeper than [fuel]. *)
Fixpoint recursivelyFindMatchingBlocks (fuel : nat)
    (beforeTokens afterTokens : list jsstring) (index : gmap (list Z) (list Z))
    (startInBefore endInBefore startInAfter endInAfter : Z)
    (matchingBlocks : list Match.t) : option (list Match.t) :=
  match fuel with
  | O => None
  | S fuel' =>
      match findMatch beforeTokens afterTokens index
              startInBefore endInBefore startInAfter endInAfter with
      | Some m =>
          blocks ← (if (startInBefore <? Match.startInBefore m)
                        && (startInAfter <? Match.startInAfter m)
                     then recursivelyFindMatchingBlocks fuel' beforeTokens afterTokens index
                            startInBefore (Match.startInBefore m)
                            startInAfter (Match.startInAfter m) matchingBlocks
                     else Some matchingBlocks);
          let blocks := blocks ++ [m] in
          if (Match.endInBefore m <? endInBefore) && (Match.endInAfter m <? endInAfter)
          then recursivelyFindMatchingBlocks fuel' beforeTokens afterTokens index
                 (Match.endInBefore m + 1) endInBefore
                 (Match.endInAfter m + 1) endInAfter blocks
          else Some blocks
      | None => Some matchingBlocks
      end
  end.

(** Every match holds at least one token of the before range, so the
    recursion is never deeper than the range is long, plus the last call on
    an exhausted range. *)
Definition findMatchingBlocks (beforeTokens afterTokens : list jsstring)
    : option (list Match.t) :=
  let index := createIndex beforeTokens afterTokens in
  recursivelyFindMatchingBlocks (S (length beforeTokens)) beforeTokens afterTokens index
    0 (Z.of_nat (length beforeTokens)) 0 (Z.of_nat (length afterTokens)) [].

(** * Operations *)

(** The [action] strings; ['none'] is only carried by the initial [lastOp]
    of [postProcessOperations] and by [actionMap]. *)
Inductive Action := ActEqual | ActInsert | ActDelete | ActReplace | ActNone.

Global Instance Action_eq_dec : EqDecision Action.
Proof. solve_decision. Defined.

(** An operation object; [None] in an end field is [undefined]. *)
Module Op.
Record t := {
  action : Action;
  startInBefore : Z;
  endInBefore : option Z;
  startInAfter : Z;
  endInAfter : option Z
}.
End Op.

(** What a call completes with: a returned value or a thrown error.
    [OutOfFuel] stands for a recursion cut short by the fuel of the model;
    the source has no such outcome. *)
Inductive JsError :=
| Error (message : string)
| TypeError (message : string).

Inductive completion (A : Type) :=
| Normal (v : A)
| Throw (e : JsError)
| OutOfFuel.
Arguments Normal {A} v.
Arguments Throw {A} e.
Arguments OutOfFuel {A}.

Definition bind {A B} (c : completion A) (k : A -> completion B) : completion B :=
  match c with
  | Normal v => k v
  | Throw e => Throw e
  | OutOfFuel => OutOfFuel
  end.

(** An argument of [calculateOperations]: a token array, or an absent one. *)
Inductive tokensArg :=
| Null
| Undefined
| Tokens (ts : list jsstring).

(** [actionMap[`${inBefore},${inAfter}`]] *)
Definition actionMap (matchStartsAtCurrentPositionInBefore
                      matchStartsAtCurrentPositionInAfter : bool) : Action :=
  match matchStartsAtCurrentPositionInBefore, matchStartsAtCurrentPositionInAfter with
  | false, false => ActReplace
  | true, false => ActInsert
  | false, true => ActDelete
  | true, true => ActNone
  end.

(** The locals the [for (const match of matches)] loop updates. *)
Record cursor := {
  positionInBefore : Z;
  positionInAfter : Z;
  operations : list Op.t
}.

Definition calculateOperations_step (st : cursor) (m : Match.t) : cursor :=
  let action :=
    actionMap (bool_decide (positionInBefore st = Match.startInBefore m))
              (bool_decide (positionInAfter st = Match.startInAfter m)) in
  let ops1 :=
    if bool_decide (action ≠ ActNone)
    then operations st ++
         [ {| Op.action := action;
              Op.startInBefore := positionInBefore st;
              Op.endInBefore :=
                if bool_decide (action ≠ ActInsert)
                then Some (Match.startInBefore m - 1) else None;
              Op.startInAfter := positionInAfter st;
              Op.endInAfter :=
                if bool_decide (action ≠ ActDelete)
                then Some (Match.startInAfter m - 1) else None |} ]
    else operations st in
  let ops2 :=
    if negb (Match.length m =? 0)
    then ops1 ++
         [ {| Op.action := ActEqual;
              Op.startInBefore := Match.startInBefore m;
              Op.endInBefore := Some (Match.endInBefore m);
              Op.startInAfter := Match.startInAfter m;
              Op.endInAfter := Some (Match.endInAfter m) |} ]
    else ops1 in
  {| positionInBefore := Match.endInBefore m + 1;
     positionInAfter := Match.endInAfter m + 1;
     operations := ops2 |}.

(** [tokens.slice(start, end + 1)] where [end] may be [undefined]: then
    [end + 1] is [NaN], which [slice] reads as 0. *)
Definition sliceThrough (ts : list jsstring) (start : Z) (stop : option Z)
    : list jsstring :=
  match stop with
  | Some e => slice ts start (e + 1)
  | None => slice ts start 0
  end.

(** The closure [isSingleWhitespace] of [postProcessOperations]. With an
    [undefined] end the difference is [NaN], which is [!== 0]. *)
Definition isSingleWhitespace (beforeTokens : list jsstring) (op : Op.t) : bool :=
  if bool_decide (Op.action op ≠ ActEqual) then false
  else if match Op.endInBefore op with
          | Some e => negb (e - Op.startInBefore op =? 0)
          | None => true
          end
  then false
  else
    let token := join (sliceThrough beforeTokens (Op.startInBefore op) (Op.endInBefore op)) in
    matches (Class class_s) token.

(** [lastOp] is the initial [{ action: 'none' }] until the first push, and
    from then on the very object last pushed on [processed]. *)
Definition lastOp_action (processed : list Op.t) : Action :=
  match last processed with
  | Some op => Op.action op
  | None => ActNone
  end.

(** The two assignments to [lastOp] change the last element of [processed]
    in place. *)
Definition extendLast (processed : list Op.t) (op : Op.t) : list Op.t :=
  match last processed with
  | Some lastOp =>
      removelast processed ++
      [ {| Op.action := Op.action lastOp;
           Op.startInBefore := Op.startInBefore lastOp;
           Op.endInBefore := Op.endInBefore op;
           Op.startInAfter := Op.startInAfter lastOp;
           Op.endInAfter := Op.endInAfter op |} ]
  | None => processed
  end.

Definition postProcessOperations_step (beforeTokens : list jsstring)
    (processed : list Op.t) (op : Op.t) : list Op.t :=
  if (isSingleWhitespace beforeTokens op
        && bool_decide (lastOp_action processed = ActReplace))
     || (bool_decide (Op.action op = ActReplace)
           && bool_decide (lastOp_action processed = ActReplace))
  then extendLast processed op
  else processed ++ [op].

Definition postProcessOperations (operations : list Op.t) (beforeTokens : list jsstring)
    : list Op.t :=
  fold_left (postProcessOperations_step beforeTokens) operations [].

(** The array [operations] of [calculateOperations] as it stands when the
    loop over the matches ends, before it is handed to
    [postProcessOperations]. *)
Definition derivedOperations (beforeTokens afterTokens : list jsstring)
    : option (list Op.t) :=
  blocks ← findMatchingBlocks beforeTokens afterTokens;
  let blocks :=
    blocks ++ [Match.new (Z.of_nat (length beforeTokens))
                          (Z.of_nat (length afterTokens)) 0] in
  Some (operations
          (fold_left calculateOperations_step blocks
             {| positionInBefore := 0; positionInAfter := 0; operations := [] |})).

Definition calculateOperations (beforeTokens afterTokens : tokensArg)
    : completion (list Op.t) :=
  match beforeTokens with
  | Null | Undefined => Throw (Error "beforeTokens is required")
  | Tokens beforeTokens =>
      match afterTokens with
      | Null | Undefined => Throw (Error "afterTokens is required")
      | Tokens afterTokens =>
          match derivedOperations beforeTokens afterTokens with
          | Some ops => Normal (postProcessOperations ops beforeTokens)
          | None => OutOfFuel
          end
      end
  end.

(** * Diff records *)

(** The values held by the fields of a diff record. *)
Inductive jsvalue :=
| VString (s : jsstring)
| VNumber (n : Z).

(** A diff record is an object literal: its properties in the order written. *)
Abbreviation record := (list (string * jsvalue)).

(** [rec[name]]; [None] is [undefined]. *)
Fixpoint getProp (rec : record) (name : string) : option jsvalue :=
  match rec with
  | [] => None
  | (k, v) :: rest => if String.eqb k name then Some v else getProp rest name
  end.

Definition getTextPosition (tokens : list jsstring) (startToken endToken : Z) : Z :=
  strlen (join (slice tokens startToken endToken)).

(** [n || fallback] on numbers: 0 is falsy. *)
Definition orElse (n fallback : Z) : Z := if n =? 0 then fallback else n.

Definition createDiffObjects_step (before after : jsstring)
    (beforeTokens afterTokens : list jsstring) (diffObjects : list record) (op : Op.t)
    : list record :=
  let ntokens (ts : list jsstring) := Z.of_nat (length ts) in
  match Op.action op with
  | ActEqual =>
      let equalText :=
        join (sliceThrough beforeTokens (Op.startInBefore op) (Op.endInBefore op)) in
      let beforeStart := getTextPosition beforeTokens 0 (Op.startInBefore op) in
      let afterStart := getTextPosition afterTokens 0 (Op.startInAfter op) in
      diffObjects ++
      [ [ ("type", VString (str "equal"));
          ("text", VString equalText);
          ("beforeStartPosition", VNumber beforeStart);
          ("beforeEndPosition", VNumber (beforeStart + strlen equalText - 1));
          ("afterStartPosition", VNumber afterStart);
          ("afterEndPosition", VNumber (afterStart + strlen equalText - 1));
          ("length", VNumber (strlen equalText)) ]%string ]
  | ActInsert =>
      let insertedText :=
        join (sliceThrough afterTokens (Op.startInAfter op) (Op.endInAfter op)) in
      let insertAfterStart := getTextPosition afterTokens 0 (Op.startInAfter op) in
      diffObjects ++
      [ [ ("type", VString (str "insert"));
          ("text", VString insertedText);
          ("afterStartPosition", VNumber insertAfterStart);
          ("afterEndPosition", VNumber (insertAfterStart + strlen insertedText - 1));
          ("length", VNumber (strlen insertedText));
          ("beforePosition",
           VNumber (getTextPosition beforeTokens 0
                      (orElse (Op.startInBefore op) (ntokens beforeTokens)))) ]%string ]
  | ActDelete =>
      let deletedText :=
        join (sliceThrough beforeTokens (Op.startInBefore op) (Op.endInBefore op)) in
      let deleteBeforeStart := getTextPosition beforeTokens 0 (Op.startInBefore op) in
      diffObjects ++
      [ [ ("type", VString (str "delete"));
          ("text", VString deletedText);
          ("beforeStartPosition", VNumber deleteBeforeStart);
          ("beforeEndPosition", VNumber (deleteBeforeStart + strlen deletedText - 1));
          ("length", VNumber (strlen deletedText));
          ("afterPosition",
           VNumber (getTextPosition afterTokens 0
                      (orElse (Op.startInAfter op) (ntokens afterTokens)))) ]%string ]
  | ActReplace =>
      let deletedTextReplace :=
        join (sliceThrough beforeTokens (Op.startInBefore op) (Op.endInBefore op)) in
      let insertedTextReplace :=
        join (sliceThrough afterTokens (Op.startInAfter op) (Op.endInAfter op)) in
      let replaceBeforeStart := getTextPosition beforeTokens 0 (Op.startInBefore op) in
      let replaceAfterStart := getTextPosition afterTokens 0 (Op.startInAfter op) in
      diffObjects ++
      [ [ ("type", VString (str "replace"));
          ("oldText", VString deletedTextReplace);
          ("newText", VString insertedTextReplace);
          ("beforeStartPosition", VNumber replaceBeforeStart);
          ("beforeEndPosition",
           VNumber (replaceBeforeStart + strlen deletedTextReplace - 1));
          ("afterStartPosition", VNumber replaceAfterStart);
          ("afterEndPosition",
           VNumber (replaceAfterStart + strlen insertedTextReplace - 1));
          ("oldLength", VNumber (strlen deletedTextReplace));
          ("newLength", VNumber (strlen insertedTextReplace)) ]%string ]
  | ActNone => diffObjects
  end.

Definition createDiffObjects (before after : jsstring)
    (beforeTokens afterTokens : list jsstring) (operations : list Op.t) : list record :=
  fold_left (createDiffObjects_step before after beforeTokens afterTokens) operations [].

(** [diff(before, after)] *)
Definition diff (before after : jsstring) : completion (list record) :=
  if bool_decide (before = after)
  then Normal
         [ [ ("type", VString (str "equal"));
             ("text", VString before);
             ("startPosition", VNumber 0);
             ("endPosition", VNumber (strlen before - 1));
             ("length", VNumber (strlen before)) ]%string ]
  else
    let beforeTokens := htmlToTokens before in
    let afterTokens := htmlToTokens after in
    bind (calculateOperations (Tokens beforeTokens) (Tokens afterTokens))
      (fun operations =>
         Normal (createDiffObjects before after beforeTokens afterTokens operations)).

(** * Markup *)

(** The [for] loop of [consecutiveWhere]: the value of [lastMatchingIndex]
    when the loop ends. Both predicates passed by the source return
    booleans. *)
Fixpoint consecutiveWhere_loop (predicate : jsstring -> bool) (subset : list jsstring)
    (i lastMatchingIndex : Z) : Z :=
  match subset with
  | [] => lastMatchingIndex
  | token :: rest =>
      if predicate token
      then consecutiveWhere_loop predicate rest (i + 1) i
      else lastMatchingIndex
  end.

Definition consecutiveWhere (start : Z) (content : list jsstring)
    (predicate : jsstring -> bool) : list jsstring :=
  let subset := slice content start (Z.of_nat (length content)) in
  let lastMatchingIndex := consecutiveWhere_loop predicate subset 0 (-1) in
  if lastMatchingIndex >=? 0 then slice subset 0 (lastMatchingIndex + 1) else [].

(** The template [`<${tag}>${text}</${tag}>`]. *)
Definition wrapper (tag text : jsstring) : jsstring :=
  str "<" ++ tag ++ str ">" ++ text ++ str "</" ++ tag ++ str ">".

(** The [while (position < length)] loop of [wrapWithTag]. Each pass moves
    [position] forward, so [length] passes are enough. *)
Fixpoint wrapWithTag_loop (fuel : nat) (tag : jsstring) (content : list jsstring)
    (position : Z) (rendering : jsstring) : jsstring :=
  match fuel with
  | O => rendering
  | S fuel' =>
      let length := Z.of_nat (length content) in
      if position <? length then
        let nonTags := consecutiveWhere position content (fun token => negb (isTag token)) in
        let position := position + Z.of_nat (List.length nonTags) in
        let rendering :=
          if Z.of_nat (List.length nonTags) >? 0
          then rendering ++ wrapper tag (join nonTags)
          else rendering in
        if position >=? length then rendering
        else
          let tags := consecutiveWhere position content isTag in
          wrapWithTag_loop fuel' tag content
            (position + Z.of_nat (List.length tags)) (rendering ++ join tags)
      else rendering
  end.

Definition wrapWithTag (tag : jsstring) (content : list jsstring) : jsstring :=
  wrapWithTag_loop (length content) tag content 0 [].

(** The closures of [operationMap]. *)
Definition operationMap_equal (op : Op.t) (beforeTokens afterTokens : list jsstring)
    : jsstring :=
  join (sliceThrough beforeTokens (Op.startInBefore op) (Op.endInBefore op)).

Definition operationMap_insert (op : Op.t) (beforeTokens afterTokens : list jsstring)
    : jsstring :=
  let value := sliceThrough afterTokens (Op.startInAfter op) (Op.endInAfter op) in
  wrapWithTag (str "ins") value.

Definition operationMap_delete (op : Op.t) (beforeTokens afterTokens : list jsstring)
    : jsstring :=
  let value := sliceThrough beforeTokens (Op.startInBefore op) (Op.endInBefore op) in
  wrapWithTag (str "del") value.

Definition operationMap_replace (op : Op.t) (beforeTokens afterTokens : list jsstring)
    : jsstring :=
  operationMap_insert op beforeTokens afterTokens
  ++ operationMap_delete op beforeTokens afterTokens.

(** [this.operationMap[action]]; ['none'] has no entry. *)
Definition operationMap (action : Action)
    : option (Op.t -> list jsstring -> list jsstring -> jsstring) :=
  match action with
  | ActEqual => Some operationMap_equal
  | ActInsert => Some operationMap_insert
  | ActDelete => Some operationMap_delete
  | ActReplace => Some operationMap_replace
  | ActNone => None
  end.

(** [this.renderOperations]: the body of class [HTMLDiff] declares no method
    of that name and its constructor sets no such field, so the property
    read gives [undefined]. *)
Definition renderOperations
    : option (list jsstring -> list jsstring -> list Op.t -> jsstring) :=
  None.

(** [diffToHTML(before, after)]. Calling [undefined] throws a [TypeError]. *)
Definition diffToHTML (before after : jsstring) : completion jsstring :=
  if bool_decide (before = after) then Normal before
  else
    let beforeTokens := htmlToTokens before in
    let afterTokens := htmlToTokens after in
    bind (calculateOperations (Tokens beforeTokens) (Tokens afterTokens))
      (fun operations =>
         match renderOperations with
         | Some render => Normal (render beforeTokens afterTokens operations)
         | None => Throw (TypeError "this.renderOperations is not a function")
         end).

(** Modelled from the spec: the renderer of section 4.8, which [diffToHTML]
    calls as [renderOperations] and no class of the source defines. Every
    operation goes through its [operationMap] entry ([equal] as it is,
    [insert] and [delete] wrapped, [replace] as the insert followed by the
    delete) and the pieces are concatenated. *)
Definition renderWithOperationMap (beforeTokens afterTokens : list jsstring)
    (operations : list Op.t) : jsstring :=
  concat ((fun op =>
             match operationMap (Op.action op) with
             | Some render => render op beforeTokens afterTokens
             | None => []
             end) <$> operations).

(** * Proof tools *)

(** Settle one integer test of the goal by linear arithmetic. *)
Ltac Zb_step :=
  match goal with
  | |- context [Z.ltb ?a ?b] =>
      first [ rewrite (proj2 (Z.ltb_lt a b)) by lia
            | rewrite (proj2 (Z.ltb_ge a b)) by lia ]
  | |- context [Z.leb ?a ?b] =>
      first [ rewrite (proj2 (Z.leb_le a b)) by lia
            | rewrite (proj2 (Z.leb_gt a b)) by lia ]
  | |- context [Z.eqb ?a ?b] =>
      first [ rewrite (proj2 (Z.eqb_eq a b)) by lia
            | rewrite (proj2 (Z.eqb_neq a b)) by lia ]
  end.

(** Settle every integer test of the goal that linear arithmetic decides. *)
Ltac decide_Zb := rewrite ?Z.geb_leb, ?Z.gtb_ltb; repeat Zb_step.

(** * Properties of the tokenizer *)

Section Tokenizer.

Lemma stringIterator_pair (c d : Z) (rest : jsstring) :
  stringIterator (c :: d :: rest)
  = if isHighSurrogate c && isLowSurrogate d
    then [c; d] :: stringIterator rest
    else [c] :: stringIterator (d :: rest).
Proof. reflexivity. Qed.

Lemma stringIterator_concat (s : jsstring) : concat (stringIterator s) = s.
Proof.
  remember (length s) as n eqn:Hn.
  revert s Hn. induction (lt_wf n) as [n _ IH]. intros s Hn.
  destruct s as [|c [|d rest]]; [reflexivity | reflexivity |].
  rewrite stringIterator_pair.
  destruct (isHighSurrogate c && isLowSurrogate d).
  - cbn [concat app]. do 2 f_equal.
    apply (IH (length rest)); [subst n; cbn [length]; lia | reflexivity].
  - cbn [concat app]. f_equal.
    apply (IH (length (d :: rest))); [subst n; cbn [length]; lia | reflexivity].
Qed.

Lemma flush_concat (st : lexer) :
  concat (flush st) = concat (tokens st) ++ currentToken st.
Proof.
  unfold flush. destruct (currentToken st) as [|c cur]; cbn [truthy].
  - by rewrite app_nil_r.
  - rewrite concat_app. cbn [concat]. by rewrite app_nil_r.
Qed.

(** What has been read so far is the pushed tokens followed by the token
    in progress. *)
Lemma htmlToTokens_step_concat (st : lexer) (char : jsstring) :
  concat (tokens (htmlToTokens_step st char)) ++ currentToken (htmlToTokens_step st char)
  = (concat (tokens st) ++ currentToken st) ++ char.
Proof.
  unfold htmlToTokens_step.
  destruct (mode st);
    repeat match goal with
           | |- context [if ?b then _ else _] => destruct b
           end;
    cbn [tokens currentToken];
    rewrite ?flush_concat, ?concat_app; cbn [concat];
    rewrite ?app_nil_r, <- ?app_assoc; reflexivity.
Qed.

Lemma htmlToTokens_loop_concat (chars : list jsstring) (st : lexer) :
  let st' := fold_left htmlToTokens_step chars st in
  concat (tokens st') ++ currentToken st'
  = (concat (tokens st) ++ currentToken st) ++ concat chars.
Proof.
  revert st. induction chars as [|char chars IH]; intros st; cbn.
  - by rewrite app_nil_r.
  - specialize (IH (htmlToTokens_step st char)). cbn in IH.
    rewrite IH, htmlToTokens_step_concat. by rewrite <- !app_assoc.
Qed.

End Tokenizer.

(** C3. Tokenization is lossless: for every string [html], the tokens
    returned by [htmlToTokens], concatenated in order, are [html] itself. *)
Theorem htmlToTokens_lossless (html : jsstring) :
  join (htmlToTokens html) = html.
Proof.
  unfold join, htmlToTokens. rewrite flush_concat.
  pose proof (htmlToTokens_loop_concat (stringIterator html) lexer_init) as H.
  cbn zeta in H. rewrite H. cbn. apply stringIterator_concat.
Qed.

(** * Matching by derivatives decides the language of a pattern *)

Section Regex.

Lemma lang_cat_inv r1 r2 s :
  lang (Cat r1 r2) s -> exists s1 s2, s = s1 ++ s2 /\ lang r1 s1 /\ lang r2 s2.
Proof. inversion 1; subst; eauto. Qed.

Lemma lang_alt_inv r1 r2 s : lang (Alt r1 r2) s -> lang r1 s \/ lang r2 s.
Proof. inversion 1; subst; eauto. Qed.

Lemma lang_class_inv p s : lang (Class p) s -> exists c, s = [c] /\ p c = true.
Proof. inversion 1; subst; eauto. Qed.

Lemma lang_void_inv s : ~ lang Void s.
Proof. inversion 1. Qed.

Lemma lang_eps_inv s : lang Eps s -> s = [].
Proof. by inversion 1. Qed.

Lemma nullable_lang r : nullable r = true <-> lang r [].
Proof.
  induction r as [| |p|r1 IH1 r2 IH2|r1 IH1 r2 IH2|r IH]; cbn.
  - split; [done | intros H; by apply lang_void_inv in H].
  - split; [intros _; constructor | done].
  - split; [done | intros (c & Hc & _)%lang_class_inv; done].
  - rewrite andb_true_iff, IH1, IH2. split.
    + intros [H1 H2]. apply (lang_cat _ _ [] []); done.
    + intros (s1 & s2 & Heq & H1 & H2)%lang_cat_inv.
      symmetry in Heq. apply app_eq_nil in Heq as [-> ->]. done.
  - rewrite orb_true_iff, IH1, IH2. split.
    + intros [H|H]; [by apply lang_alt_l | by apply lang_alt_r].
    + apply lang_alt_inv.
  - split; [intros _; constructor | done].
Qed.

(** A non-empty word of [r*] starts with a non-empty word of [r]. *)
Lemma lang_star_cons_inv r c s :
  lang (Star r) (c :: s) ->
  exists s1 s2, s = s1 ++ s2 /\ lang r (c :: s1) /\ lang (Star r) s2.
Proof.
  intros H. remember (Star r) as r' eqn:Hr. remember (c :: s) as w eqn:Hw.
  revert c s Hw. induction H as [| | | | | |r0 s1 s2 H1 _ H2 IH2];
    intros a w Hw; try discriminate.
  injection Hr as ->. destruct s1 as [|c1 s1]; cbn in Hw.
  - by apply IH2.
  - injection Hw as <- <-. by exists s1, s2.
Qed.

Lemma deriv_lang c r s : lang (deriv c r) s <-> lang r (c :: s).
Proof.
  revert s. induction r as [| |p|r1 IH1 r2 IH2|r1 IH1 r2 IH2|r IH]; intros s; cbn.
  - split; intros H; by apply lang_void_inv in H.
  - split; intros H; [by apply lang_void_inv in H | by apply lang_eps_inv in H].
  - destruct (p c) eqn:Hp; split; intros H.
    + apply lang_eps_inv in H as ->. by constructor.
    + apply lang_class_inv in H as (c' & [= <- ->] & _). constructor.
    + by apply lang_void_inv in H.
    + apply lang_class_inv in H as (c' & [= <- ->] & Hc). congruence.
  - assert (Hcat : lang (Cat (deriv c r1) r2) s ->  lang (Cat r1 r2) (c :: s)).
    { intros (s1 & s2 & -> & H1 & H2)%lang_cat_inv.
      apply IH1 in H1. by apply (lang_cat _ _ (c :: s1) s2). }
    assert (Hinv : lang (Cat r1 r2) (c :: s) ->
                   lang (Cat (deriv c r1) r2) s \/ (lang r1 [] /\ lang r2 (c :: s))).
    { intros (s1 & s2 & Heq & H1 & H2)%lang_cat_inv.
      destruct s1 as [|c1 s1]; cbn in Heq.
      - right. subst s2. done.
      - injection Heq as -> ->. left. apply lang_cat; [by apply IH1 | done]. }
    destruct (nullable r1) eqn:Hn.
    + split.
      * intros [H|H]%lang_alt_inv; [by apply Hcat |].
        apply (lang_cat _ _ [] (c :: s)); [by apply nullable_lang | by apply IH2].
      * intros H. destruct (Hinv H) as [H'|[_ H']].
        -- by apply lang_alt_l.
        -- apply lang_alt_r. by apply IH2.
    + split; [done|].
      intros H. destruct (Hinv H) as [H'|[H' _]]; [done|].
      apply nullable_lang in H'. congruence.
  - split.
    + intros [H|H]%lang_alt_inv; [apply lang_alt_l; by apply IH1 | apply lang_alt_r; by apply IH2].
    + intros [H|H]%lang_alt_inv; [apply lang_alt_l; by apply IH1 | apply lang_alt_r; by apply IH2].
  - split.
    + intros (s1 & s2 & -> & H1 & H2)%lang_cat_inv.
      apply IH in H1. by apply (lang_star_cons _ (c :: s1) s2).
    + intros H. apply lang_star_cons_inv in H as (s1 & s2 & -> & H1 & H2).
      apply lang_cat; [by apply IH | done].
Qed.

Lemma matches_lang r s : matches r s = true <-> lang r s.
Proof.
  revert r. induction s as [|c s IH]; intros r; cbn.
  - apply nullable_lang.
  - rewrite IH. apply deriv_lang.
Qed.

(** A token that matches the tag pattern holds a [>]. *)
Lemma isTag_has_gt (token : jsstring) : isTag token = true -> 0x3E ∈ token.
Proof.
  unfold isTag. rewrite matches_lang. unfold tagPattern.
  intros (s1 & w1 & -> & _ & H)%lang_cat_inv.
  apply lang_cat_inv in H as (s2 & w2 & -> & _ & H).
  apply lang_cat_inv in H as (s3 & w3 & -> & _ & H).
  apply lang_cat_inv in H as (s4 & w4 & -> & H & _).
  apply lang_class_inv in H as (c & -> & Hc).
  unfold class_gt in Hc. apply Z.eqb_eq in Hc as ->.
  rewrite !elem_of_app. do 3 right. left. apply list_elem_of_here.
Qed.

End Regex.

(** * Tag tokens, end to end *)

Section TagTokens.

(** The iterator never splits or merges around a unit that is not a
    surrogate. *)
Lemma stringIterator_split_at (u : Z) (rest : jsstring) :
  isHighSurrogate u = false -> isLowSurrogate u = false ->
  forall body : jsstring,
    stringIterator (body ++ u :: rest)
    = stringIterator body ++ [u] :: stringIterator rest.
Proof.
  intros Hhigh Hlow body.
  remember (length body) as n eqn:Hn. revert body Hn.
  induction (lt_wf n) as [n _ IH]. intros body Hn.
  destruct body as [|c [|d body]].
  - cbn [app]. destruct rest as [|d rest]; [reflexivity|].
    rewrite stringIterator_pair, Hhigh. reflexivity.
  - cbn [app]. rewrite stringIterator_pair, Hlow, andb_false_r.
    f_equal. apply (IH O ltac:(subst n; cbn; lia) [] eq_refl).
  - cbn [app]. rewrite !stringIterator_pair.
    destruct (isHighSurrogate c && isLowSurrogate d).
    + cbn [app]. f_equal.
      apply (IH (length body) ltac:(subst n; cbn [length]; lia) body eq_refl).
    + cbn [app]. f_equal.
      apply (IH (length (d :: body)) ltac:(subst n; cbn [length]; lia) (d :: body) eq_refl).
Qed.

Lemma stringIterator_cons_plain (u : Z) (rest : jsstring) :
  isHighSurrogate u = false -> isLowSurrogate u = false ->
  stringIterator (u :: rest) = [u] :: stringIterator rest.
Proof. intros Hhigh Hlow. exact (stringIterator_split_at u rest Hhigh Hlow []). Qed.

Lemma stringIterator_units (body : jsstring) (char : jsstring) (u : Z) :
  char ∈ stringIterator body -> u ∈ char -> u ∈ body.
Proof.
  intros Hchar Hu. rewrite <- (stringIterator_concat body).
  apply list_elem_of_In, in_concat. exists char.
  split; by apply list_elem_of_In.
Qed.

(** In tag mode every character but [>] is appended to the tag token. *)
Lemma tag_mode_absorbs (chars : list jsstring) :
  forall st : lexer,
    mode st = ModeTag ->
    Forall (fun char => char <> str ">") chars ->
    fold_left htmlToTokens_step chars st
    = {| tokens := tokens st; currentToken := currentToken st ++ concat chars;
         mode := ModeTag |}.
Proof.
  induction chars as [|char chars IH]; intros st Hmode Hchars; cbn [fold_left concat].
  - rewrite app_nil_r. destruct st; cbn in *. by subst.
  - apply Forall_cons in Hchars as [Hchar Hchars].
    rewrite IH; [| |done].
    + unfold htmlToTokens_step. rewrite Hmode. unfold isEndOfTag.
      rewrite bool_decide_eq_false_2 by done. cbn. by rewrite <- app_assoc.
    + unfold htmlToTokens_step. rewrite Hmode. unfold isEndOfTag.
      by rewrite bool_decide_eq_false_2 by done.
Qed.

(** Tokens already pushed play no part in what the tokenizer does next. *)
Definition prepend (pre : list jsstring) (st : lexer) : lexer :=
  {| tokens := pre ++ tokens st; currentToken := currentToken st; mode := mode st |}.

Lemma flush_prepend (pre : list jsstring) (st : lexer) :
  flush (prepend pre st) = pre ++ flush st.
Proof.
  unfold flush, prepend. cbn. destruct (truthy (currentToken st)); [|done].
  by rewrite app_assoc.
Qed.

Lemma htmlToTokens_step_prepend (pre : list jsstring) (st : lexer) (char : jsstring) :
  htmlToTokens_step (prepend pre st) char = prepend pre (htmlToTokens_step st char).
Proof.
  unfold htmlToTokens_step.
  change (mode (prepend pre st)) with (mode st).
  change (currentToken (prepend pre st)) with (currentToken st).
  change (tokens (prepend pre st)) with (pre ++ tokens st).
  rewrite !flush_prepend.
  destruct (mode st);
    repeat match goal with
           | |- context [if ?b then _ else _] => destruct b
           end;
    unfold prepend; cbn; by rewrite ?app_assoc.
Qed.

Lemma htmlToTokens_loop_prepend (pre : list jsstring) (chars : list jsstring) :
  forall st : lexer,
    fold_left htmlToTokens_step chars (prepend pre st)
    = prepend pre (fold_left htmlToTokens_step chars st).
Proof.
  induction chars as [|char chars IH]; intros st; cbn [fold_left]; [done|].
  by rewrite htmlToTokens_step_prepend, IH.
Qed.

Lemma not_gt_chars (body : jsstring) :
  0x3E ∉ body -> Forall (fun char => char <> str ">") (stringIterator body).
Proof.
  intros Hbody. apply Forall_forall. intros char Hchar ->.
  apply Hbody. apply (stringIterator_units body (str ">")); [done|].
  apply list_elem_of_here.
Qed.

(** A [<] opens a tag token that runs up to the first [>], whatever lies
    between them, and the text after the [>] is tokenized afresh in char
    mode. *)
Lemma htmlToTokens_tag_token (body rest : jsstring) :
  0x3E ∉ body ->
  htmlToTokens (0x3C :: body ++ 0x3E :: rest)
  = (0x3C :: body ++ [0x3E]) :: htmlToTokens rest.
Proof.
  intros Hbody. unfold htmlToTokens.
  rewrite (stringIterator_cons_plain 0x3C (body ++ 0x3E :: rest) eq_refl eq_refl).
  rewrite (stringIterator_split_at 0x3E rest eq_refl eq_refl body).
  cbn [fold_left]. rewrite fold_left_app.
  change (htmlToTokens_step lexer_init [0x3C])
    with {| tokens := []; currentToken := [0x3C]; mode := ModeTag |}.
  rewrite (tag_mode_absorbs (stringIterator body))
    by (done || by apply not_gt_chars).
  rewrite stringIterator_concat. cbn [fold_left tokens currentToken].
  change (htmlToTokens_step
            {| tokens := []; currentToken := [0x3C] ++ body; mode := ModeTag |} [0x3E])
    with (prepend [([0x3C] ++ body) ++ [0x3E]] lexer_init).
  rewrite htmlToTokens_loop_prepend, flush_prepend. reflexivity.
Qed.

(** An unterminated tag is flushed at the end of the input as one token. *)
Lemma htmlToTokens_unterminated (body : jsstring) :
  0x3E ∉ body -> htmlToTokens (0x3C :: body) = [0x3C :: body].
Proof.
  intros Hbody. unfold htmlToTokens.
  rewrite (stringIterator_cons_plain 0x3C body eq_refl eq_refl). cbn [fold_left].
  change (htmlToTokens_step lexer_init [0x3C])
    with {| tokens := []; currentToken := [0x3C]; mode := ModeTag |}.
  rewrite (tag_mode_absorbs (stringIterator body))
    by (done || by apply not_gt_chars).
  rewrite stringIterator_concat. reflexivity.
Qed.

End TagTokens.

(** * Mode transitions of the tokenizer *)

(** Reading [<] in state [st] flushes the token in progress and opens a tag
    token. *)
Definition lt_starts_tag_token (st : lexer) : Prop :=
  htmlToTokens_step st (str "<")
  = {| tokens := flush st; currentToken := str "<"; mode := ModeTag |}.

(** C8, as stated, fails inside a tag token: after reading ["<a"] the
    tokenizer is in tag mode, and a [<] read there is appended to the token
    in progress; ["<a<b>"] is one token. *)
Lemma lt_inside_tag_token_is_appended :
  let st := fold_left htmlToTokens_step (stringIterator (str "<a")) lexer_init in
  mode st = ModeTag
  /\ ~ lt_starts_tag_token st
  /\ htmlToTokens_step st (str "<")
     = {| tokens := []; currentToken := str "<a<"; mode := ModeTag |}
  /\ htmlToTokens (str "<a<b>") = [str "<a<b>"].
Proof.
  cbv zeta. split; [reflexivity|]. split; [|split].
  - unfold lt_starts_tag_token. vm_compute. discriminate.
  - vm_compute. reflexivity.
  - vm_compute. reflexivity.
Qed.

(** C8, amended. Outside tag mode a [<] flushes the token in progress and
    opens a tag token. In tag mode every character is appended to the tag
    token, a [<] included; the token closes at the first [>], which is part
    of it, and the mode that follows is read off the closing character: a
    [>] is not whitespace, so it is char mode. End to end: a tag token
    opened at the start of the input runs to the first [>], and what
    follows is tokenized as a fresh input. *)
Theorem tag_token_transitions (st : lexer) (char : jsstring) :
  (mode st <> ModeTag -> lt_starts_tag_token st)
  /\ (mode st = ModeTag ->
      htmlToTokens_step st (str "<")
      = {| tokens := tokens st; currentToken := currentToken st ++ str "<";
           mode := ModeTag |})
  /\ (mode st = ModeTag ->
      htmlToTokens_step st char
      = if bool_decide (char = str ">")
        then {| tokens := tokens st ++ [currentToken st ++ char];
                currentToken := [];
                mode := if isWhitespace char then ModeWhitespace else ModeChar |}
        else {| tokens := tokens st; currentToken := currentToken st ++ char;
                mode := ModeTag |})
  /\ (mode st = ModeTag ->
      mode (htmlToTokens_step st (str ">")) = ModeChar)
  /\ (forall body rest : jsstring,
        0x3E ∉ body ->
        htmlToTokens (str "<" ++ body ++ str ">" ++ rest)
        = (str "<" ++ body ++ str ">") :: htmlToTokens rest).
Proof.
  unfold lt_starts_tag_token, htmlToTokens_step.
  split; [|split; [|split; [|split]]].
  - intros Hmode. destruct (mode st); [reflexivity | congruence | reflexivity].
  - intros Hmode. rewrite Hmode. reflexivity.
  - intros Hmode. rewrite Hmode. reflexivity.
  - intros Hmode. rewrite Hmode. reflexivity.
  - intros body rest Hbody. exact (htmlToTokens_tag_token body rest Hbody).
Qed.

Lemma tag_token_transitions_witness :
  lt_starts_tag_token lexer_init
  /\ htmlToTokens_step {| tokens := []; currentToken := str "<a"; mode := ModeTag |} (str ">")
     = {| tokens := [str "<a>"]; currentToken := []; mode := ModeChar |}
  /\ htmlToTokens (str "<a<b>c") = [str "<a<b>"; str "c"].
Proof.
  split; [|split].
  - destruct (tag_token_transitions lexer_init []) as (H & _).
    apply H. cbn. discriminate.
  - destruct (tag_token_transitions
                {| tokens := []; currentToken := str "<a"; mode := ModeTag |} (str ">"))
      as (_ & _ & H & _).
    rewrite (H eq_refl). reflexivity.
  - destruct (tag_token_transitions lexer_init []) as (_ & _ & _ & _ & H).
    change (str "<a<b>c") with (str "<" ++ str "a<b" ++ str ">" ++ str "c").
    rewrite (H (str "a<b") (str "c")); [reflexivity|].
    vm_compute. intros Hin.
    repeat (inversion Hin as [|? ? ? Hin']; clear Hin; rename Hin' into Hin).
Defined.

(** * The tag-safe wrapper *)

(** What [wrapWithTag] emits, piece by piece: a run of tokens inside a
    wrapper, or a run of tokens as they are. *)
Inductive segment :=
| Wrapped (run : list jsstring)
| Verbatim (run : list jsstring).

Definition segmentTokens (seg : segment) : list jsstring :=
  match seg with Wrapped run | Verbatim run => run end.

Definition renderSegment (tag : jsstring) (seg : segment) : jsstring :=
  match seg with
  | Wrapped run => wrapper tag (join run)
  | Verbatim run => join run
  end.

(** A wrapped run is non-empty and holds no tag token; a verbatim run is
    non-empty and holds tag tokens only. *)
Definition segment_ok (seg : segment) : Prop :=
  match seg with
  | Wrapped run => run <> [] /\ Forall (fun token => isTag token = false) run
  | Verbatim run => run <> [] /\ Forall (fun token => isTag token = true) run
  end.

(** Wrapped and verbatim runs alternate, so every run is maximal. *)
Fixpoint alternating (segs : list segment) : Prop :=
  match segs with
  | Wrapped _ :: ((Verbatim _ :: _) as rest) => alternating rest
  | Verbatim _ :: ((Wrapped _ :: _) as rest) => alternating rest
  | [_] | [] => True
  | _ => False
  end.

(** The maximal runs of [content], split by [isTag]. *)
Fixpoint runs (content : list jsstring) : list segment :=
  match content with
  | [] => []
  | token :: rest =>
      match runs rest with
      | Wrapped run :: segs =>
          if isTag token then Verbatim [token] :: Wrapped run :: segs
          else Wrapped (token :: run) :: segs
      | Verbatim run :: segs =>
          if isTag token then Verbatim (token :: run) :: segs
          else Wrapped [token] :: Verbatim run :: segs
      | [] => [if isTag token then Verbatim [token] else Wrapped [token]]
      end
  end.

(** The longest prefix of [l] whose elements all satisfy [predicate]. *)
Fixpoint prefixWhere {A} (predicate : A -> bool) (l : list A) : list A :=
  match l with
  | [] => []
  | x :: rest => if predicate x then x :: prefixWhere predicate rest else []
  end.

Section Wrapper.

Lemma prefixWhere_take {A} (p : A -> bool) (l : list A) :
  take (length (prefixWhere p l)) l = prefixWhere p l.
Proof.
  induction l as [|x l IH]; [reflexivity|]. cbn.
  destruct (p x); cbn; [by rewrite IH | reflexivity].
Qed.

Lemma prefixWhere_Forall {A} (p : A -> bool) (l : list A) :
  Forall (fun x => p x = true) (prefixWhere p l).
Proof.
  induction l as [|x l IH]; cbn; [constructor|].
  destruct (p x) eqn:Hx; [by constructor | constructor].
Qed.

(** The prefix is maximal: what follows it is empty or starts with an
    element that fails the predicate. *)
Lemma prefixWhere_split {A} (p : A -> bool) (l : list A) :
  exists rest, l = prefixWhere p l ++ rest
               /\ match rest with [] => True | x :: _ => p x = false end.
Proof.
  induction l as [|x l (rest & Hl & Hrest)]; cbn.
  - by exists [].
  - destruct (p x) eqn:Hx.
    + exists rest. split; [cbn; by f_equal | done].
    + by exists (x :: l).
Qed.

Lemma prefixWhere_nonempty {A} (p : A -> bool) (x : A) (l : list A) :
  p x = true -> prefixWhere p (x :: l) <> [].
Proof. intros Hx. cbn. by rewrite Hx. Qed.

Lemma consecutiveWhere_loop_last (predicate : jsstring -> bool) (subset : list jsstring)
    (i lastMatchingIndex : Z) :
  consecutiveWhere_loop predicate subset i lastMatchingIndex
  = match prefixWhere predicate subset with
    | [] => lastMatchingIndex
    | run => i + Z.of_nat (length run) - 1
    end.
Proof.
  revert i lastMatchingIndex. induction subset as [|token rest IH]; intros i l; cbn.
  - reflexivity.
  - destruct (predicate token); [|reflexivity].
    rewrite IH. destruct (prefixWhere predicate rest); cbn [length]; lia.
Qed.

Lemma slice_from {A} (pre rest : list A) :
  slice (pre ++ rest) (Z.of_nat (length pre)) (Z.of_nat (length (pre ++ rest))) = rest.
Proof.
  unfold slice, relativeIndex. rewrite length_app. decide_Zb.
  rewrite Z.min_id, Z.min_l by lia.
  replace (Z.to_nat (_ - _)) with (length rest) by lia.
  rewrite Nat2Z.id, drop_app_length.
  apply take_ge. lia.
Qed.

Lemma slice_0 {A} (l : list A) (n : nat) :
  (n <= length l)%nat -> slice l 0 (Z.of_nat n) = take n l.
Proof.
  intros Hn. unfold slice, relativeIndex. decide_Zb.
  rewrite Z.min_l by lia. rewrite Z.min_l by lia.
  rewrite Z.sub_0_r, Nat2Z.id. reflexivity.
Qed.

(** [consecutiveWhere] returns the longest run that starts at [start] and
    satisfies the predicate. *)
Lemma consecutiveWhere_prefix (pre rest : list jsstring) (predicate : jsstring -> bool) :
  consecutiveWhere (Z.of_nat (length pre)) (pre ++ rest) predicate
  = prefixWhere predicate rest.
Proof.
  unfold consecutiveWhere. rewrite slice_from, consecutiveWhere_loop_last.
  pose proof (prefixWhere_take predicate rest) as Htake.
  destruct (prefixWhere predicate rest) as [|t run] eqn:Hrun; [reflexivity|].
  cbn [length]. decide_Zb.
  replace (0 + Z.of_nat (S (length run)) - 1 + 1)
    with (Z.of_nat (length (t :: run))) by (cbn [length]; lia).
  rewrite slice_0; [done|].
  rewrite <- Htake, length_take. lia.
Qed.

Lemma runs_head (token : jsstring) (rest : list jsstring) :
  exists run segs,
    runs (token :: rest)
    = (if isTag token then Verbatim run else Wrapped run) :: segs.
Proof.
  cbn. destruct (runs rest) as [|[run|run] segs]; destruct (isTag token); eauto.
Qed.

Lemma runs_nonTags (run rest : list jsstring) :
  run <> [] ->
  Forall (fun token => negb (isTag token) = true) run ->
  match rest with [] => True | token :: _ => negb (isTag token) = false end ->
  runs (run ++ rest) = Wrapped run :: runs rest.
Proof.
  intros Hne Hrun Hrest. induction run as [|t run IH]; [done|].
  apply Forall_cons in Hrun as [Ht Hrun]. apply negb_true_iff in Ht.
  destruct run as [|t' run].
  - cbn [app runs]. destruct rest as [|token rest]; [cbn; by rewrite Ht|].
    apply negb_false_iff in Hrest.
    destruct (runs_head token rest) as (run' & segs & ->).
    rewrite Hrest, Ht. reflexivity.
  - change ((t :: t' :: run) ++ rest) with (t :: ((t' :: run) ++ rest)).
    cbn [runs]. rewrite IH by done. by rewrite Ht.
Qed.

Lemma runs_tags (run rest : list jsstring) :
  run <> [] ->
  Forall (fun token => isTag token = true) run ->
  match rest with [] => True | token :: _ => isTag token = false end ->
  runs (run ++ rest) = Verbatim run :: runs rest.
Proof.
  intros Hne Hrun Hrest. induction run as [|t run IH]; [done|].
  apply Forall_cons in Hrun as [Ht Hrun].
  destruct run as [|t' run].
  - cbn [app runs]. destruct rest as [|token rest]; [cbn; by rewrite Ht|].
    destruct (runs_head token rest) as (run' & segs & ->).
    rewrite Hrest, Ht. reflexivity.
  - change ((t :: t' :: run) ++ rest) with (t :: ((t' :: run) ++ rest)).
    cbn [runs]. rewrite IH by done. by rewrite Ht.
Qed.

Lemma render_cons (tag : jsstring) (seg : segment) (segs : list segment) :
  concat (renderSegment tag <$> seg :: segs)
  = renderSegment tag seg ++ concat (renderSegment tag <$> segs).
Proof. reflexivity. Qed.

(** The loop of [wrapWithTag], started at the end of [pre] with enough
    passes left for [rest], appends the rendering of the runs of [rest]. *)
Lemma wrapWithTag_loop_runs (tag : jsstring) (fuel : nat) :
  forall (pre rest : list jsstring) (rendering : jsstring),
    (length rest <= fuel)%nat ->
    wrapWithTag_loop fuel tag (pre ++ rest) (Z.of_nat (length pre)) rendering
    = rendering ++ concat (renderSegment tag <$> runs rest).
Proof.
  induction fuel as [|fuel IH]; intros pre rest rendering Hfuel.
  - destruct rest; [|cbn in Hfuel; lia]. cbn. by rewrite app_nil_r.
  - cbn [wrapWithTag_loop]. cbv zeta.
    destruct rest as [|t0 rest0].
    { rewrite app_nil_r. decide_Zb. cbn. by rewrite app_nil_r. }
    set (rest := t0 :: rest0) in *.
    assert (Hrest_len : (0 < length rest)%nat) by (cbn; lia).
    rewrite consecutiveWhere_prefix.
    destruct (prefixWhere_split (fun token => negb (isTag token)) rest)
      as (rest1 & Hrest & Hrest1).
    pose proof (prefixWhere_Forall (fun token => negb (isTag token)) rest) as HnonTags.
    set (nonTags := prefixWhere (fun token => negb (isTag token)) rest) in *.
    clearbody nonTags rest.
    replace (Z.of_nat (length pre) + Z.of_nat (length nonTags))
      with (Z.of_nat (length (pre ++ nonTags))) by (rewrite length_app; lia).
    pose proof (length_app pre rest) as Hlen.
    pose proof (length_app pre nonTags) as Hlen'.
    pose proof (f_equal length Hrest) as Hlen_rest. rewrite length_app in Hlen_rest.
    destruct rest1 as [|t1 rest1'].
    + rewrite app_nil_r in Hrest. subst nonTags. cbn [length] in Hlen_rest.
      decide_Zb.
      pose proof (runs_nonTags rest []) as Hruns. rewrite app_nil_r in Hruns.
      rewrite Hruns; [| intros ->; cbn in Hrest_len; lia | done | done].
      rewrite render_cons. cbn. by rewrite app_nil_r.
    + cbn [length] in Hlen_rest. decide_Zb.
      assert (Hcontent : pre ++ rest = (pre ++ nonTags) ++ t1 :: rest1')
        by (rewrite Hrest at 1; by rewrite app_assoc).
      rewrite Hcontent, consecutiveWhere_prefix.
      apply negb_false_iff in Hrest1.
      destruct (prefixWhere_split isTag (t1 :: rest1')) as (rest2 & Hrest1' & Hrest2).
      pose proof (prefixWhere_Forall isTag (t1 :: rest1')) as Htags.
      pose proof (prefixWhere_nonempty isTag t1 rest1' Hrest1) as Htags_ne.
      set (tags := prefixWhere isTag (t1 :: rest1')) in *.
      clearbody tags.
      replace (Z.of_nat (length (pre ++ nonTags)) + Z.of_nat (length tags))
        with (Z.of_nat (length ((pre ++ nonTags) ++ tags)))
        by (rewrite (length_app _ tags); lia).
      pose proof (f_equal length Hrest1') as Hlen_rest1.
      rewrite length_app in Hlen_rest1. cbn [length] in Hlen_rest1.
      rewrite Hrest1', (app_assoc (pre ++ nonTags) tags rest2).
      rewrite IH by (destruct tags; [done | cbn [length] in *; lia]).
      assert (Hruns : runs (tags ++ rest2) = Verbatim tags :: runs rest2).
      { apply runs_tags; [done | done |]. by destruct rest2. }
      rewrite Hrest, Hrest1'.
      destruct nonTags as [|n0 nonTags'].
      * cbn [length app]. decide_Zb. rewrite Hruns, render_cons.
        cbn [renderSegment]. by rewrite <- ?app_assoc.
      * cbn [length]. decide_Zb.
        rewrite runs_nonTags; [| done | done |].
        2:{ destruct tags as [|g tags']; [done|].
            apply Forall_cons in Htags as [Hg _]. cbn. by rewrite Hg. }
        rewrite Hruns, !render_cons. cbn [renderSegment]. by rewrite <- ?app_assoc.
Qed.

Lemma runs_tokens (content : list jsstring) :
  concat (segmentTokens <$> runs content) = content.
Proof.
  induction content as [|token rest IH]; [reflexivity|].
  cbn [runs]. destruct (runs rest) as [|[run|run] segs];
    destruct (isTag token); cbn in *; by rewrite ?IH.
Qed.

Lemma runs_ok (content : list jsstring) : Forall segment_ok (runs content).
Proof.
  induction content as [|token rest IH]; [constructor|].
  cbn [runs]. destruct (runs rest) as [|[run|run] segs];
    destruct (isTag token) eqn:Htoken;
    repeat match goal with
           | H : Forall segment_ok (_ :: _) |- _ => apply Forall_cons in H as [? ?]
           | |- Forall segment_ok (_ :: _) => apply Forall_cons; split
           | |- Forall segment_ok [] => constructor
           | H : segment_ok (_ _) |- _ => destruct H
           | |- segment_ok _ => split
           | |- Forall _ (_ :: _) => apply Forall_cons; split
           | |- Forall _ [] => constructor
           end; done.
Qed.

Lemma runs_alternating (content : list jsstring) : alternating (runs content).
Proof.
  induction content as [|token rest IH]; [done|].
  cbn [runs]. destruct (runs rest) as [|[run|run] [|[run'|run'] segs]];
    destruct (isTag token); cbn in *; done.
Qed.

End Wrapper.

(** C9. Tag safety of the wrapper: for every tag name and token run, what
    [wrapWithTag] emits is its content cut into maximal runs; the runs of
    tokens that do not match the tag pattern each sit in one wrapper, and
    the runs of tokens that match it are emitted as they are, outside every
    wrapper. *)
Theorem wrapWithTag_tag_safe (tag : jsstring) (content : list jsstring) :
  wrapWithTag tag content = concat (renderSegment tag <$> runs content)
  /\ concat (segmentTokens <$> runs content) = content
  /\ Forall segment_ok (runs content)
  /\ alternating (runs content).
Proof.
  split; [|split; [|split]].
  - unfold wrapWithTag.
    apply (wrapWithTag_loop_runs tag (length content) [] content []). lia.
  - apply runs_tokens.
  - apply runs_ok.
  - apply runs_alternating.
Qed.

(** C10. A token that begins with [<] and holds no [>] is what the
    tokenizer flushes at the end of an input that is one unterminated tag.
    It does not match the tag pattern, and [wrapWithTag] puts it inside the
    wrapper, on its own or in any run of tokens. *)
Theorem unterminated_tag_is_wrapped (tag token : jsstring) :
  (exists rest, token = 0x3C :: rest) ->
  0x3E ∉ token ->
  htmlToTokens token = [token]
  /\ isTag token = false
  /\ wrapWithTag tag [token] = wrapper tag token
  /\ (forall content : list jsstring,
        token ∈ content ->
        exists run, Wrapped run ∈ runs content /\ token ∈ run).
Proof.
  intros [rest Hlt] Hgt.
  assert (Htag : isTag token = false).
  { destruct (isTag token) eqn:H; [|reflexivity]. by apply isTag_has_gt in H. }
  split.
  { subst token. apply htmlToTokens_unterminated.
    intros H. apply Hgt. apply elem_of_cons. by right. }
  split; [done|]. split.
  - destruct (wrapWithTag_tag_safe tag [token]) as (-> & _).
    cbn [runs]. rewrite Htag. cbn. unfold join. cbn. by rewrite !app_nil_r.
  - intros content Hin.
    rewrite <- (runs_tokens content) in Hin.
    apply list_elem_of_In, in_concat in Hin as (ts & Hin & Hts).
    apply list_elem_of_In in Hin, Hts.
    apply list_elem_of_fmap in Hin as (seg & -> & Hseg).
    pose proof (runs_ok content) as Hok.
    rewrite Forall_forall in Hok. specialize (Hok seg Hseg).
    destruct seg as [run|run]; cbn in Hts, Hok.
    + by exists run.
    + destruct Hok as [_ Hall]. rewrite Forall_forall in Hall.
      specialize (Hall token Hts). congruence.
Qed.

Lemma unterminated_tag_is_wrapped_witness :
  htmlToTokens (str "<abc") = [str "<abc"]
  /\ isTag (str "<abc") = false
  /\ wrapWithTag (str "ins") [str "<abc"] = str "<ins><abc</ins>".
Proof.
  destruct (unterminated_tag_is_wrapped (str "ins") (str "<abc")) as (H0 & H1 & H2 & _).
  - exists (str "abc"). reflexivity.
  - vm_compute. intros H. repeat (inversion H as [|? ? ? H']; clear H; rename H' into H).
  - split; [exact H0|]. split; [exact H1|]. rewrite H2. reflexivity.
Defined.

(** * Loops over an integer range *)

Section Ranges.

(** Induction over [for (let i = k; i < k + n; i++)]. *)
Lemma fold_seqZ_ind {St : Type} (P : Z -> St -> Prop) (f : St -> Z -> St) (n : nat) :
  forall (k : Z) (st : St),
    P k st ->
    (forall i st', k <= i < k + Z.of_nat n -> P i st' -> P (i + 1) (f st' i)) ->
    P (k + Z.of_nat n) (fold_left f (seqZ k (Z.of_nat n)) st).
Proof.
  induction n as [|n IH]; intros k st Hst Hstep.
  - cbn. by rewrite Z.add_0_r.
  - rewrite seqZ_cons by lia. cbn [fold_left].
    replace (Z.pred (Z.of_nat (S n))) with (Z.of_nat n) by lia.
    replace (k + Z.of_nat (S n)) with (Z.succ k + Z.of_nat n) by lia.
    apply IH.
    + replace (Z.succ k) with (k + 1) by lia. apply Hstep; [lia | done].
    + intros i st' Hi. apply Hstep. lia.
Qed.

Lemma seqZ_split (lo mid hi : Z) :
  lo <= mid <= hi -> seqZ lo (mid - lo) ++ seqZ mid (hi - mid) = seqZ lo (hi - lo).
Proof.
  intros H. replace (hi - lo) with ((mid - lo) + (hi - mid)) by lia.
  rewrite seqZ_app by lia. do 2 f_equal. lia.
Qed.

End Ranges.

(** * The block matcher stays inside its ranges *)

Section MatcherBounds.

Context (beforeTokens : list jsstring) (index : gmap (list Z) (list Z)).
Context (startInBefore endInBefore startInAfter endInAfter : Z).

(** A run of length [l] that ends at [(i, j)] starts inside both ranges
    and ends inside the after range. *)
Definition run_fits (i j l : Z) : Prop :=
  1 <= l /\ startInBefore <= i - l + 1 /\ startInAfter <= j - l + 1 /\ j < endInAfter.

Definition row_fits (i : Z) (matchLengthAt : gmap Z Z) : Prop :=
  forall j l, matchLengthAt !! j = Some l -> run_fits i j l.

(** The best match so far is absent or lies inside both ranges, ending
    at or before row [i]. *)
Definition best_fits (i : Z) (b : best) : Prop :=
  bestMatchLength b = 0
  \/ (1 <= bestMatchLength b
      /\ startInBefore <= bestMatchInBefore b
      /\ bestMatchInBefore b + bestMatchLength b <= i + 1
      /\ startInAfter <= bestMatchInAfter b
      /\ bestMatchInAfter b + bestMatchLength b <= endInAfter).

Lemma best_fits_mono (i i' : Z) (b : best) : i <= i' -> best_fits i b -> best_fits i' b.
Proof. unfold best_fits. intros Hi [H|H]; [by left | right; lia]. Qed.

Lemma findMatch_inner_fits (locationsInAfter : list Z) (i : Z)
    (matchLengthAt newMatchLengthAt : gmap Z Z) (b : best) :
  startInBefore <= i ->
  row_fits (i - 1) matchLengthAt ->
  row_fits i newMatchLengthAt ->
  best_fits i b ->
  let r := findMatch_inner locationsInAfter i startInAfter endInAfter
             matchLengthAt newMatchLengthAt b in
  row_fits i (fst r) /\ best_fits i (snd r).
Proof.
  intros Hi Hprev. revert newMatchLengthAt b.
  induction locationsInAfter as [|j rest IH]; intros new b Hnew Hb; cbn.
  - done.
  - destruct (Z.ltb_spec j startInAfter); [by apply IH|].
    rewrite Z.geb_leb. destruct (Z.leb_spec endInAfter j); [done|].
    assert (Hl : 1 <= default 0 (matchLengthAt !! (j - 1)) + 1
                 /\ startInBefore <= i - (default 0 (matchLengthAt !! (j - 1)) + 1) + 1
                 /\ startInAfter <= j - (default 0 (matchLengthAt !! (j - 1)) + 1) + 1).
    { destruct (matchLengthAt !! (j - 1)) as [l|] eqn:Hl; cbn.
      - apply Hprev in Hl. unfold run_fits in Hl. lia.
      - lia. }
    set (len := default 0 (matchLengthAt !! (j - 1)) + 1) in *.
    apply IH.
    + intros j' l'. rewrite lookup_insert. case_decide as Hj.
      * intros [= <-]. subst j'. unfold run_fits. lia.
      * apply Hnew.
    + rewrite Z.gtb_ltb. destruct (Z.ltb_spec (bestMatchLength b) len); [|done].
      right. cbn. lia.
Qed.

Lemma findMatch_loop_fits :
  startInBefore <= endInBefore ->
  best_fits (endInBefore - 1)
    (snd (findMatch_loop beforeTokens index
            startInBefore endInBefore startInAfter endInAfter)).
Proof.
  intros Hrange. unfold findMatch_loop.
  pose (P := fun (i : Z) (st : gmap Z Z * best) =>
               row_fits (i - 1) (fst st) /\ best_fits (i - 1) (snd st)).
  replace (endInBefore - startInBefore)
    with (Z.of_nat (Z.to_nat (endInBefore - startInBefore))) by lia.
  enough (P (startInBefore + Z.of_nat (Z.to_nat (endInBefore - startInBefore)))
            (fold_left (findMatch_outer beforeTokens index startInAfter endInAfter)
               (seqZ startInBefore (Z.of_nat (Z.to_nat (endInBefore - startInBefore))))
               (∅, {| bestMatchInBefore := startInBefore;
                      bestMatchInAfter := startInAfter;
                      bestMatchLength := 0 |}))) as [_ H].
  { replace (endInBefore - 1)
      with (startInBefore + Z.of_nat (Z.to_nat (endInBefore - startInBefore)) - 1)
      by lia.
    exact H. }
  apply fold_seqZ_ind.
  - unfold P, row_fits. cbn [fst snd].
    split; [intros j l; by rewrite lookup_empty | by left].
  - intros i [mla b] Hi [Hrow Hbest]. unfold P, findMatch_outer. cbn [fst snd] in *.
    replace (i + 1 - 1) with i by lia.
    apply findMatch_inner_fits; [lia | done | | ].
    + intros j l. by rewrite lookup_empty.
    + apply (best_fits_mono (i - 1)); [lia | done].
Qed.

End MatcherBounds.

(** A match returned by [findMatch] holds at least one token and lies inside
    the two ranges it was asked to search, whatever the index. *)
Lemma findMatch_fits (beforeTokens afterTokens : list jsstring)
    (index : gmap (list Z) (list Z)) (sb eb sa ea : Z) (m : Match.t) :
  findMatch beforeTokens afterTokens index sb eb sa ea = Some m ->
  1 <= Match.length m
  /\ sb <= Match.startInBefore m
  /\ Match.startInBefore m + Match.length m <= eb
  /\ sa <= Match.startInAfter m
  /\ Match.startInAfter m + Match.length m <= ea
  /\ Match.endInBefore m = Match.startInBefore m + Match.length m - 1
  /\ Match.endInAfter m = Match.startInAfter m + Match.length m - 1.
Proof.
  unfold findMatch. intros H.
  destruct (Z.le_gt_cases sb eb) as [Hrange|Hrange].
  - pose proof (findMatch_loop_fits beforeTokens index sb eb sa ea Hrange) as Hfits.
    destruct (bestMatchLength _ =? 0) eqn:Hlen; [done|].
    apply Z.eqb_neq in Hlen. cbn in H. injection H as <-. cbn.
    destruct Hfits as [Hfits|Hfits]; [done | lia].
  - unfold findMatch_loop in H. rewrite seqZ_nil in H by lia. cbn in H. done.
Qed.

(** * The aligner returns an ascending chain of blocks *)

(** [ms] is a chain of non-empty blocks, ascending and disjoint in both
    sequences, that starts at or after [(pb, pa)] and ends at or before
    [(hb, ha)]. *)
Fixpoint blocks_in (pb pa : Z) (ms : list Match.t) (hb ha : Z) : Prop :=
  match ms with
  | [] => pb <= hb /\ pa <= ha
  | m :: ms' =>
      pb <= Match.startInBefore m
      /\ pa <= Match.startInAfter m
      /\ 1 <= Match.length m
      /\ Match.endInBefore m = Match.startInBefore m + Match.length m - 1
      /\ Match.endInAfter m = Match.startInAfter m + Match.length m - 1
      /\ blocks_in (Match.startInBefore m + Match.length m)
           (Match.startInAfter m + Match.length m) ms' hb ha
  end.

Section Aligner.

Context (beforeTokens afterTokens : list jsstring) (index : gmap (list Z) (list Z)).

Lemma blocks_in_weaken (pb pa pb' pa' : Z) (ms : list Match.t) (hb ha : Z) :
  pb' <= pb -> pa' <= pa -> blocks_in pb pa ms hb ha -> blocks_in pb' pa' ms hb ha.
Proof. destruct ms; cbn; intros; intuition lia. Qed.

Lemma blocks_in_app (pb pa mb ma : Z) (ms1 ms2 : list Match.t) (hb ha : Z) :
  blocks_in pb pa ms1 mb ma -> blocks_in mb ma ms2 hb ha ->
  blocks_in pb pa (ms1 ++ ms2) hb ha.
Proof.
  revert pb pa. induction ms1 as [|m ms1 IH]; intros pb pa H1 H2; cbn in *.
  - apply (blocks_in_weaken mb ma); [lia | lia | done].
  - destruct H1 as (? & ? & ? & ? & ? & H1). repeat split; try done.
    by apply IH.
Qed.

(** The recursion returns, and appends to [matchingBlocks] a chain of
    blocks inside the ranges it was given. *)
Lemma recursivelyFindMatchingBlocks_chain (fuel : nat) :
  forall (sb eb sa ea : Z) (matchingBlocks : list Match.t),
    sb <= eb -> sa <= ea -> (Z.to_nat (eb - sb) < fuel)%nat ->
    exists ms,
      recursivelyFindMatchingBlocks fuel beforeTokens afterTokens index
        sb eb sa ea matchingBlocks = Some (matchingBlocks ++ ms)
      /\ blocks_in sb sa ms eb ea.
Proof.
  induction fuel as [|fuel IH]; intros sb eb sa ea acc Hb Ha Hfuel; [lia|].
  cbn [recursivelyFindMatchingBlocks].
  destruct (findMatch beforeTokens afterTokens index sb eb sa ea) as [m|] eqn:Hm.
  2:{ exists []. rewrite app_nil_r. done. }
  apply findMatch_fits in Hm as (Hlen & Hsb & Heb & Hsa & Hea & HendB & HendA).
  assert (Hleft : exists ms1,
             (if (sb <? Match.startInBefore m) && (sa <? Match.startInAfter m)
              then recursivelyFindMatchingBlocks fuel beforeTokens afterTokens index
                     sb (Match.startInBefore m) sa (Match.startInAfter m) acc
              else Some acc) = Some (acc ++ ms1)
             /\ blocks_in sb sa ms1 (Match.startInBefore m) (Match.startInAfter m)).
  { destruct (_ && _).
    - apply IH; lia.
    - exists []. rewrite app_nil_r. done. }
  destruct Hleft as (ms1 & -> & Hms1). cbn [mbind option_bind].
  assert (Hright : exists ms2,
             (if (Match.endInBefore m <? eb) && (Match.endInAfter m <? ea)
              then recursivelyFindMatchingBlocks fuel beforeTokens afterTokens index
                     (Match.endInBefore m + 1) eb (Match.endInAfter m + 1) ea
                     ((acc ++ ms1) ++ [m])
              else Some ((acc ++ ms1) ++ [m])) = Some (((acc ++ ms1) ++ [m]) ++ ms2)
             /\ blocks_in (Match.startInBefore m + Match.length m)
                  (Match.startInAfter m + Match.length m) ms2 eb ea).
  { destruct (_ && _).
    - replace (Match.startInBefore m + Match.length m)
        with (Match.endInBefore m + 1) by lia.
      replace (Match.startInAfter m + Match.length m)
        with (Match.endInAfter m + 1) by lia.
      apply IH; lia.
    - exists []. rewrite app_nil_r. cbn. split; [done | lia]. }
  destruct Hright as (ms2 & -> & Hms2).
  exists (ms1 ++ m :: ms2). split.
  - f_equal. rewrite <- !app_assoc. reflexivity.
  - apply (blocks_in_app _ _ _ _ _ _ _ _ Hms1). cbn. repeat split; try lia. done.
Qed.

End Aligner.

(** [findMatchingBlocks] returns within its fuel, with a chain of blocks
    inside the two token sequences. *)
Lemma findMatchingBlocks_chain (beforeTokens afterTokens : list jsstring) :
  exists ms,
    findMatchingBlocks beforeTokens afterTokens = Some ms
    /\ blocks_in 0 0 ms (Z.of_nat (length beforeTokens)) (Z.of_nat (length afterTokens)).
Proof.
  unfold findMatchingBlocks.
  destruct (recursivelyFindMatchingBlocks_chain beforeTokens afterTokens
              (createIndex beforeTokens afterTokens) (S (length beforeTokens))
              0 (Z.of_nat (length beforeTokens)) 0 (Z.of_nat (length afterTokens)) [])
    as (ms & Hms & Hchain); [lia | lia | lia |].
  exists ms. done.
Qed.

(** * Coverage *)

(** The token indexes an operation spans in the before sequence: an insert
    has no before range. *)
Definition beforeIndices (op : Op.t) : list Z :=
  match Op.action op, Op.endInBefore op with
  | (ActEqual | ActDelete | ActReplace), Some e =>
      seqZ (Op.startInBefore op) (e - Op.startInBefore op + 1)
  | _, _ => []
  end.

(** The token indexes an operation spans in the after sequence: a delete
    has no after range. *)
Definition afterIndices (op : Op.t) : list Z :=
  match Op.action op, Op.endInAfter op with
  | (ActEqual | ActInsert | ActReplace), Some e =>
      seqZ (Op.startInAfter op) (e - Op.startInAfter op + 1)
  | _, _ => []
  end.

(** [ops] tiles both sequences from [(pb, pa)] up to [(nb, na)]: in list
    order, every operation starts where the tiling stands in each sequence
    and its ranges, non-empty and closed, move the tiling just past their
    ends. An insert moves it in the after sequence only, a delete in the
    before sequence only. *)
Fixpoint covers (pb pa : Z) (ops : list Op.t) (nb na : Z) : Prop :=
  match ops with
  | [] => pb = nb /\ pa = na
  | op :: rest =>
      Op.startInBefore op = pb /\ Op.startInAfter op = pa
      /\ match Op.action op with
         | ActEqual | ActReplace =>
             exists eb ea,
               Op.endInBefore op = Some eb /\ Op.endInAfter op = Some ea
               /\ pb <= eb /\ pa <= ea /\ covers (eb + 1) (ea + 1) rest nb na
         | ActInsert =>
             exists ea,
               Op.endInBefore op = None /\ Op.endInAfter op = Some ea
               /\ pa <= ea /\ covers pb (ea + 1) rest nb na
         | ActDelete =>
             exists eb,
               Op.endInBefore op = Some eb /\ Op.endInAfter op = None
               /\ pb <= eb /\ covers (eb + 1) pa rest nb na
         | ActNone => False
         end
  end.

Section Coverage.

Lemma covers_le (ops : list Op.t) :
  forall pb pa nb na, covers pb pa ops nb na -> pb <= nb /\ pa <= na.
Proof.
  induction ops as [|op ops IH]; intros pb pa nb na; cbn.
  - lia.
  - intros (_ & _ & H). destruct (Op.action op).
    + destruct H as (eb & ea & _ & _ & ? & ? & H%IH). lia.
    + destruct H as (ea & _ & _ & ? & H%IH). lia.
    + destruct H as (eb & _ & _ & ? & H%IH). lia.
    + destruct H as (eb & ea & _ & _ & ? & ? & H%IH). lia.
    + done.
Qed.

Lemma covers_app (ops1 ops2 : list Op.t) :
  forall pb pa nb na,
    covers pb pa (ops1 ++ ops2) nb na
    <-> exists mb ma, covers pb pa ops1 mb ma /\ covers mb ma ops2 nb na.
Proof.
  induction ops1 as [|op ops1 IH]; intros pb pa nb na; cbn.
  - split.
    + intros H. by exists pb, pa.
    + intros (mb & ma & [-> ->] & H). done.
  - split.
    + intros (Hb & Ha & H). destruct (Op.action op).
      * destruct H as (eb & ea & ? & ? & ? & ? & (mb & ma & ? & ?)%IH).
        exists mb, ma. split; [|done]. repeat split; try done. by exists eb, ea.
      * destruct H as (ea & ? & ? & ? & (mb & ma & ? & ?)%IH).
        exists mb, ma. split; [|done]. repeat split; try done. by exists ea.
      * destruct H as (eb & ? & ? & ? & (mb & ma & ? & ?)%IH).
        exists mb, ma. split; [|done]. repeat split; try done. by exists eb.
      * destruct H as (eb & ea & ? & ? & ? & ? & (mb & ma & ? & ?)%IH).
        exists mb, ma. split; [|done]. repeat split; try done. by exists eb, ea.
      * done.
    + intros (mb & ma & (Hb & Ha & H) & H2). repeat split; try done.
      destruct (Op.action op).
      * destruct H as (eb & ea & ? & ? & ? & ? & H). exists eb, ea.
        repeat split; try done. apply IH. by exists mb, ma.
      * destruct H as (ea & ? & ? & ? & H). exists ea.
        repeat split; try done. apply IH. by exists mb, ma.
      * destruct H as (eb & ? & ? & ? & H). exists eb.
        repeat split; try done. apply IH. by exists mb, ma.
      * destruct H as (eb & ea & ? & ? & ? & ? & H). exists eb, ea.
        repeat split; try done. apply IH. by exists mb, ma.
      * done.
Qed.

(** A tiling lists every token index of both sequences once, in order. *)
Lemma covers_indices (ops : list Op.t) :
  forall pb pa nb na,
    covers pb pa ops nb na ->
    concat (beforeIndices <$> ops) = seqZ pb (nb - pb)
    /\ concat (afterIndices <$> ops) = seqZ pa (na - pa).
Proof.
  induction ops as [|op ops IH]; intros pb pa nb na; cbn [covers].
  - intros [-> ->]. rewrite !Z.sub_diag. done.
  - intros (Hb & Ha & H).
    rewrite !fmap_cons. cbn [concat]. unfold beforeIndices at 1, afterIndices at 1.
    rewrite Hb, Ha.
    destruct (Op.action op).
    + destruct H as (eb & ea & -> & -> & ? & ? & H).
      pose proof (covers_le _ _ _ _ _ H). apply IH in H as [-> ->].
      replace (eb - pb + 1) with (eb + 1 - pb) by lia.
      replace (ea - pa + 1) with (ea + 1 - pa) by lia.
      rewrite !seqZ_split by lia. done.
    + destruct H as (ea & _ & -> & ? & H).
      pose proof (covers_le _ _ _ _ _ H). apply IH in H as [-> ->].
      replace (ea - pa + 1) with (ea + 1 - pa) by lia.
      rewrite !seqZ_split by lia. done.
    + destruct H as (eb & -> & _ & ? & H).
      pose proof (covers_le _ _ _ _ _ H). apply IH in H as [-> ->].
      replace (eb - pb + 1) with (eb + 1 - pb) by lia.
      rewrite !seqZ_split by lia. done.
    + destruct H as (eb & ea & -> & -> & ? & ? & H).
      pose proof (covers_le _ _ _ _ _ H). apply IH in H as [-> ->].
      replace (eb - pb + 1) with (eb + 1 - pb) by lia.
      replace (ea - pa + 1) with (ea + 1 - pa) by lia.
      rewrite !seqZ_split by lia. done.
    + done.
Qed.

(** One pass of the loop over the matches: the gap before the match and
    the match itself extend the tiling to the end of the match. *)
Lemma calculateOperations_step_covers (st : cursor) (m : Match.t) :
  covers 0 0 (operations st) (positionInBefore st) (positionInAfter st) ->
  positionInBefore st <= Match.startInBefore m ->
  positionInAfter st <= Match.startInAfter m ->
  0 <= Match.length m ->
  Match.endInBefore m = Match.startInBefore m + Match.length m - 1 ->
  Match.endInAfter m = Match.startInAfter m + Match.length m - 1 ->
  let st' := calculateOperations_step st m in
  covers 0 0 (operations st') (positionInBefore st') (positionInAfter st')
  /\ positionInBefore st' = Match.startInBefore m + Match.length m
  /\ positionInAfter st' = Match.startInAfter m + Match.length m.
Proof.
  intros Hcov Hb Ha Hlen HendB HendA. cbv zeta.
  unfold calculateOperations_step. cbn [positionInBefore positionInAfter operations].
  split; [|lia].
  set (gap := if bool_decide (_ ≠ ActNone) then _ else _).
  assert (Hgap : covers 0 0 gap (Match.startInBefore m) (Match.startInAfter m)).
  { subst gap.
    destruct (bool_decide_reflect (positionInBefore st = Match.startInBefore m)) as [Eb|Nb];
      destruct (bool_decide_reflect (positionInAfter st = Match.startInAfter m)) as [Ea|Na];
      cbn [actionMap].
    - rewrite bool_decide_eq_false_2 by (intros H; by apply H).
      by rewrite <- Eb, <- Ea.
    - rewrite bool_decide_eq_true_2 by done. apply covers_app.
      exists (positionInBefore st), (positionInAfter st). split; [done|].
      cbn. repeat split; try done.
      exists (Match.startInAfter m - 1). repeat split; try done; lia.
    - rewrite bool_decide_eq_true_2 by done. apply covers_app.
      exists (positionInBefore st), (positionInAfter st). split; [done|].
      cbn. repeat split; try done.
      exists (Match.startInBefore m - 1). repeat split; try done; lia.
    - rewrite bool_decide_eq_true_2 by done. apply covers_app.
      exists (positionInBefore st), (positionInAfter st). split; [done|].
      cbn. repeat split; try done.
      exists (Match.startInBefore m - 1), (Match.startInAfter m - 1).
      repeat split; try done; lia. }
  clearbody gap.
  destruct (Z.eqb_spec (Match.length m) 0) as [E|N]; cbn [negb].
  - replace (Match.endInBefore m + 1) with (Match.startInBefore m) by lia.
    replace (Match.endInAfter m + 1) with (Match.startInAfter m) by lia. done.
  - apply covers_app. exists (Match.startInBefore m), (Match.startInAfter m).
    split; [done|]. cbn. repeat split; try done.
    exists (Match.endInBefore m), (Match.endInAfter m). repeat split; try done; lia.
Qed.

Lemma calculateOperations_loop_covers (ms : list Match.t) (hb ha : Z) :
  forall st : cursor,
    covers 0 0 (operations st) (positionInBefore st) (positionInAfter st) ->
    blocks_in (positionInBefore st) (positionInAfter st) ms hb ha ->
    let st' := fold_left calculateOperations_step ms st in
    covers 0 0 (operations st') (positionInBefore st') (positionInAfter st')
    /\ positionInBefore st' <= hb /\ positionInAfter st' <= ha.
Proof.
  induction ms as [|m ms IH]; intros st Hcov Hms; cbn [fold_left blocks_in] in *.
  - done.
  - destruct Hms as (? & ? & ? & ? & ? & Hms).
    destruct (calculateOperations_step_covers st m) as (Hcov' & Hb' & Ha');
      try done; [lia|].
    apply IH; [done|]. by rewrite Hb', Ha'.
Qed.

(** The operations derived from the matches tile both token sequences. *)
Lemma derivedOperations_covers (beforeTokens afterTokens : list jsstring) :
  exists ops,
    derivedOperations beforeTokens afterTokens = Some ops
    /\ covers 0 0 ops (Z.of_nat (length beforeTokens)) (Z.of_nat (length afterTokens)).
Proof.
  unfold derivedOperations.
  destruct (findMatchingBlocks_chain beforeTokens afterTokens) as (ms & -> & Hms).
  cbn [mbind option_bind]. eexists. split; [reflexivity|].
  rewrite fold_left_app. cbn [fold_left].
  destruct (calculateOperations_loop_covers ms
              (Z.of_nat (length beforeTokens)) (Z.of_nat (length afterTokens))
              {| positionInBefore := 0; positionInAfter := 0; operations := [] |})
    as (Hcov & Hb & Ha); [done | done |].
  cbv zeta in Hcov, Hb, Ha.
  set (st := fold_left calculateOperations_step ms _) in *.
  set (m := Match.new (Z.of_nat (length beforeTokens)) (Z.of_nat (length afterTokens)) 0).
  assert (Hm : Match.startInBefore m + Match.length m = Z.of_nat (length beforeTokens)
               /\ Match.startInAfter m + Match.length m = Z.of_nat (length afterTokens))
    by (subst m; cbn; lia).
  destruct Hm as [HmB HmA].
  destruct (calculateOperations_step_covers st m) as (Hcov' & Hb' & Ha');
    try done; try (subst m; cbn; lia).
  by rewrite Hb', Ha', HmB, HmA in Hcov'.
Qed.

Lemma isSingleWhitespace_equal (beforeTokens : list jsstring) (op : Op.t) :
  isSingleWhitespace beforeTokens op = true -> Op.action op = ActEqual.
Proof.
  unfold isSingleWhitespace. case_bool_decide as H; [done|].
  intros _. by destruct (decide (Op.action op = ActEqual)).
Qed.

(** Folding an operation into the replace before it keeps the tiling. *)
Lemma postProcessOperations_loop_covers (beforeTokens : list jsstring)
    (operations : list Op.t) (nb na : Z) :
  forall processed,
    covers 0 0 (processed ++ operations) nb na ->
    covers 0 0
      (fold_left (postProcessOperations_step beforeTokens) operations processed) nb na.
Proof.
  induction operations as [|op ops IH]; intros processed Hcov; cbn [fold_left].
  - by rewrite app_nil_r in Hcov.
  - apply IH. unfold postProcessOperations_step.
    destruct (_ || _) eqn:Hfold.
    2:{ by rewrite <- app_assoc. }
    assert (Hlast : lastOp_action processed = ActReplace
                    /\ (Op.action op = ActEqual \/ Op.action op = ActReplace)).
    { apply orb_true_iff in Hfold as [H|H]; apply andb_true_iff in H as [H1 H2];
        apply bool_decide_eq_true in H2; split; try done.
      - left. by apply (isSingleWhitespace_equal beforeTokens).
      - right. by apply bool_decide_eq_true in H1. }
    destruct Hlast as [Hlast Hop]. unfold lastOp_action, extendLast in *.
    destruct (last processed) as [lastOp|] eqn:Hl; [|done].
    apply last_Some in Hl as [processed' ->].
    rewrite removelast_last.
    rewrite <- !app_assoc in *. cbn [app] in *.
    apply covers_app in Hcov as (mb & ma & Hcov1 & Hcov2).
    apply covers_app. exists mb, ma. split; [done|].
    cbn [covers] in *. rewrite Hlast in *.
    destruct Hcov2 as (Hb & Ha & eb & ea & HeB & HeA & ? & ? & Hb' & Ha' & Hrest).
    cbn [Op.startInBefore Op.startInAfter Op.action Op.endInBefore Op.endInAfter].
    repeat split; try done.
    destruct Hop as [Hop|Hop]; rewrite Hop in Hrest;
      destruct Hrest as (eb' & ea' & ? & ? & ? & ? & Hrest);
      exists eb', ea'; repeat split; try done; lia.
Qed.

End Coverage.

(** C4. For every pair of token sequences the operations of
    [calculateOperations] tile [[0, len(beforeTokens))] and
    [[0, len(afterTokens))]: taken in order, their before ranges list every
    before index exactly once and their after ranges every after index
    exactly once, each operation starting where the one before it ended. It
    holds for the operations as derived from the matches and for the list
    returned after [postProcessOperations]. *)
Theorem calculateOperations_coverage (beforeTokens afterTokens : list jsstring) :
  let nb := Z.of_nat (length beforeTokens) in
  let na := Z.of_nat (length afterTokens) in
  exists derived processed,
    derivedOperations beforeTokens afterTokens = Some derived
    /\ calculateOperations (Tokens beforeTokens) (Tokens afterTokens) = Normal processed
    /\ processed = postProcessOperations derived beforeTokens
    /\ covers 0 0 derived nb na
    /\ concat (beforeIndices <$> derived) = seqZ 0 nb
    /\ concat (afterIndices <$> derived) = seqZ 0 na
    /\ covers 0 0 processed nb na
    /\ concat (beforeIndices <$> processed) = seqZ 0 nb
    /\ concat (afterIndices <$> processed) = seqZ 0 na.
Proof.
  cbv zeta.
  destruct (derivedOperations_covers beforeTokens afterTokens) as (derived & Hd & Hcov).
  exists derived, (postProcessOperations derived beforeTokens).
  assert (Hcov' : covers 0 0 (postProcessOperations derived beforeTokens)
                    (Z.of_nat (length beforeTokens)) (Z.of_nat (length afterTokens))).
  { unfold postProcessOperations. by apply postProcessOperations_loop_covers. }
  pose proof (covers_indices _ _ _ _ _ Hcov) as [Hb Ha].
  pose proof (covers_indices _ _ _ _ _ Hcov') as [Hb' Ha'].
  rewrite Z.sub_0_r in Hb, Ha, Hb', Ha'.
  unfold calculateOperations. rewrite Hd. done.
Qed.

(** An argument of [calculateOperations] is absent when it is [null] or
    [undefined]. *)
Definition absent (arg : tokensArg) : Prop := arg = Null \/ arg = Undefined.

(** C6. [calculateOperations] throws exactly when one of the two token
    sequences is absent. For any two token sequences, empty ones and ones
    with nothing in common included, it returns a list of operations. *)
Theorem calculateOperations_throws_iff_absent (beforeTokens afterTokens : tokensArg) :
  ((exists e, calculateOperations beforeTokens afterTokens = Throw e)
   <-> absent beforeTokens \/ absent afterTokens)
  /\ (forall bs ts : list jsstring,
        exists ops, calculateOperations (Tokens bs) (Tokens ts) = Normal ops)
  /\ calculateOperations (Tokens []) (Tokens [])  = Normal [].
Proof.
  assert (Hreturns : forall bs ts : list jsstring,
             exists ops, calculateOperations (Tokens bs) (Tokens ts) = Normal ops).
  { intros bs ts.
    destruct (calculateOperations_coverage bs ts) as (_ & ops & _ & H & _). by exists ops. }
  split; [|split; [done | reflexivity]].
  unfold absent. split.
  - intros [e He].
    destruct beforeTokens as [| |bs]; [left; by left | left; by right |].
    destruct afterTokens as [| |ts]; [right; by left | right; by right |].
    destruct (Hreturns bs ts) as [ops Hops]. congruence.
  - intros H. destruct beforeTokens as [| |bs]; cbn; eauto.
    destruct afterTokens as [| |ts]; cbn; eauto.
    destruct H as [[H|H]|[H|H]]; discriminate.
Qed.

(** * The two entry points *)

(** Whenever the two strings differ, [diffToHTML] ends in the call of the
    missing [renderOperations]. *)
Lemma diffToHTML_distinct_throws (before after : jsstring) :
  before <> after ->
  diffToHTML before after
  = Throw (TypeError "this.renderOperations is not a function").
Proof.
  intros Hne. unfold diffToHTML. rewrite bool_decide_eq_false_2 by done.
  destruct (calculateOperations_coverage (htmlToTokens before) (htmlToTokens after))
    as (_ & ops & _ & -> & _).
  reflexivity.
Qed.

(** C1. On ["this is original text"] and ["this is new text"] the
    operations are equal, replace, equal, and sending them through
    [operationMap] gives ["this is <ins>new</ins><del>original</del> text"],
    the inserted text before the deleted one. [diffToHTML] itself does not
    get that far: it calls [this.renderOperations], which the class does not
    define, and throws. *)
Theorem diffToHTML_scenario_throws :
  let before := str "this is original text" in
  let after := str "this is new text" in
  diffToHTML before after
  = Throw (TypeError "this.renderOperations is not a function")
  /\ exists operations,
       calculateOperations (Tokens (htmlToTokens before)) (Tokens (htmlToTokens after))
       = Normal operations
       /\ Op.action <$> operations = [ActEqual; ActReplace; ActEqual]
       /\ renderWithOperationMap (htmlToTokens before) (htmlToTokens after) operations
          = str "this is <ins>new</ins><del>original</del> text".
Proof.
  cbv zeta. split; [vm_compute; reflexivity|].
  eexists. split; [vm_compute; reflexivity|].
  split; vm_compute; reflexivity.
Qed.

(** C2. [diff(s, s)] returns one record of type equal with text [s] and
    length [len(s)], and its span is [(0, len(s) - 1)]; but the span is held
    by the fields [startPosition] and [endPosition], and the record has
    none of [beforeStartPosition], [beforeEndPosition],
    [afterStartPosition], [afterEndPosition], which the equal records of
    [createDiffObjects] carry. *)
Theorem diff_identity_record (s : jsstring) :
  exists rec,
    diff s s = Normal [rec]
    /\ getProp rec "type" = Some (VString (str "equal"))
    /\ getProp rec "text" = Some (VString s)
    /\ getProp rec "length" = Some (VNumber (strlen s))
    /\ getProp rec "startPosition" = Some (VNumber 0)
    /\ getProp rec "endPosition" = Some (VNumber (strlen s - 1))
    /\ getProp rec "beforeStartPosition" = None
    /\ getProp rec "beforeEndPosition" = None
    /\ getProp rec "afterStartPosition" = None
    /\ getProp rec "afterEndPosition" = None.
Proof.
  unfold diff. rewrite bool_decide_eq_true_2 by reflexivity.
  eexists. split; [reflexivity|]. cbn. repeat split; reflexivity.
Qed.

(** The equal records built by [createDiffObjects] do carry the four
    fields. *)
Lemma createDiffObjects_equal_fields (before after : jsstring)
    (beforeTokens afterTokens : list jsstring) (op : Op.t) :
  Op.action op = ActEqual ->
  exists rec,
    createDiffObjects before after beforeTokens afterTokens [op] = [rec]
    /\ is_Some (getProp rec "beforeStartPosition")
    /\ is_Some (getProp rec "beforeEndPosition")
    /\ is_Some (getProp rec "afterStartPosition")
    /\ is_Some (getProp rec "afterEndPosition").
Proof.
  intros Hop. unfold createDiffObjects. cbn [fold_left].
  unfold createDiffObjects_step. rewrite Hop.
  eexists. split; [reflexivity|]. cbn. repeat split; eauto.
Qed.

(** The anchor of an insert record is read at token index
    [startInBefore || beforeTokens.length]: where the operation starts at
    token index 0 the anchor is the length of the whole before text. *)
Lemma createDiffObjects_insert_anchor (before after : jsstring)
    (beforeTokens afterTokens : list jsstring) (op : Op.t) :
  Op.action op = ActInsert ->
  exists rec,
    createDiffObjects before after beforeTokens afterTokens [op] = [rec]
    /\ getProp rec "beforePosition"
       = Some (VNumber
                 (if Op.startInBefore op =? 0
                  then strlen (join beforeTokens)
                  else getTextPosition beforeTokens 0 (Op.startInBefore op))).
Proof.
  intros Hop. unfold createDiffObjects. cbn [fold_left].
  unfold createDiffObjects_step. rewrite Hop.
  eexists. split; [reflexivity|]. cbn. unfold orElse.
  destruct (Op.startInBefore op =? 0); [|reflexivity].
  unfold getTextPosition. do 4 f_equal.
  apply (slice_from [] beforeTokens).
Qed.

(** C5. [diff("b", "a b")] is an insert of ["a "] in front of the equal
    ["b"]: the gap starts at token index 0 of the before sequence, nothing
    of the before text precedes it, and yet the record's [beforePosition]
    is 1, the length of the before text, not 0. The same holds for the
    [afterPosition] of the delete in [diff("a b", "b")]. *)
Theorem insert_anchor_at_start_is_text_length :
  (exists ins eq,
     diff (str "b") (str "a b") = Normal [ins; eq]
     /\ getProp ins "type" = Some (VString (str "insert"))
     /\ getProp ins "text" = Some (VString (str "a "))
     /\ getProp ins "afterStartPosition" = Some (VNumber 0)
     /\ getProp ins "beforePosition" = Some (VNumber 1))
  /\ (exists del eq,
        diff (str "a b") (str "b") = Normal [del; eq]
        /\ getProp del "type" = Some (VString (str "delete"))
        /\ getProp del "text" = Some (VString (str "a "))
        /\ getProp del "beforeStartPosition" = Some (VNumber 0)
        /\ getProp del "afterPosition" = Some (VNumber 1)).
Proof.
  split; do 2 eexists; (split; [vm_compute; reflexivity|]);
    repeat split; reflexivity.
Qed.

(** * The token index *)

(** [positions] lists, in ascending order, exactly the places of [token] in
    [inThese]. *)
Definition positions_of (inThese : list jsstring) (token : jsstring)
    (positions : list Z) : Prop :=
  StronglySorted Z.lt positions
  /\ forall j, j ∈ positions <-> nthZ inThese j = Some token.

Section Index.

Context (inThese : list jsstring) (token : jsstring).

Lemma nthZ_Some {A} (l : list A) (i : Z) (x : A) :
  nthZ l i = Some x <-> 0 <= i /\ l !! Z.to_nat i = Some x.
Proof.
  unfold nthZ. destruct (Z.ltb_spec i 0); split; try done.
  - intros [? _]. lia.
  - intros [_ ?]. done.
Qed.

Lemma nthZ_bounds {A} (l : list A) (i : Z) (x : A) :
  nthZ l i = Some x -> 0 <= i < Z.of_nat (length l).
Proof. intros [? H%lookup_lt_Some]%nthZ_Some. lia. Qed.

Lemma nthZ_in_range {A} (l : list A) (i : Z) :
  0 <= i < Z.of_nat (length l) -> exists x, nthZ l i = Some x.
Proof.
  intros Hi. destruct (lookup_lt_is_Some_2 l (Z.to_nat i)) as [x Hx]; [lia|].
  exists x. apply nthZ_Some. split; [lia | done].
Qed.

(** [indexOf] finds the first place of [token] at or after [k]. *)
Lemma indexOf_found (k : Z) :
  0 <= k -> indexOf inThese token k <> -1 ->
  k <= indexOf inThese token k
  /\ nthZ inThese (indexOf inThese token k) = Some token
  /\ forall j, k <= j < indexOf inThese token k -> nthZ inThese j <> Some token.
Proof.
  intros Hk. unfold indexOf. replace (k <? 0) with false by lia.
  destruct (list_find _ _) as [[n y]|] eqn:Hfind; [|done]. intros _.
  apply list_find_Some in Hfind as (Hn & -> & Hfirst).
  rewrite lookup_drop in Hn. split; [lia|]. split.
  - apply nthZ_Some. split; [lia|]. by replace (Z.to_nat (k + Z.of_nat n))
      with (Z.to_nat k + n)%nat by lia.
  - intros j Hj [_ Hjt]%nthZ_Some.
    apply (Hfirst (Z.to_nat j - Z.to_nat k)%nat token); [|lia|done].
    rewrite lookup_drop. by replace (Z.to_nat k + (Z.to_nat j - Z.to_nat k))%nat
      with (Z.to_nat j) by lia.
Qed.

Lemma indexOf_none (k : Z) :
  0 <= k -> indexOf inThese token k = -1 ->
  forall j, k <= j -> nthZ inThese j <> Some token.
Proof.
  intros Hk. unfold indexOf. replace (k <? 0) with false by lia.
  destruct (list_find _ _) as [[n y]|] eqn:Hfind; [lia|]. intros _.
  apply list_find_None in Hfind. rewrite Forall_forall in Hfind.
  intros j Hj [_ Hjt]%nthZ_Some. apply (Hfind token); [|done].
  apply (list_elem_of_lookup_2 _ (Z.to_nat j - Z.to_nat k)%nat).
  rewrite lookup_drop. by replace (Z.to_nat k + (Z.to_nat j - Z.to_nat k))%nat
    with (Z.to_nat j) by lia.
Qed.

Lemma StronglySorted_snoc (positions : list Z) (r : Z) :
  StronglySorted Z.lt positions -> Forall (fun j => j < r) positions ->
  StronglySorted Z.lt (positions ++ [r]).
Proof.
  induction 1 as [|j l Hl IH Hj]; intros Hr; cbn.
  - repeat constructor.
  - apply Forall_cons in Hr as [Hjr Hr]. constructor; [by apply IH|].
    apply Forall_app. split; [done|]. by repeat constructor.
Qed.

(** The [while] loop of [createIndex], entered with the places below [k]
    collected, ends with all of them, fuel permitting. *)
Lemma createIndex_while_positions (fuel : nat) :
  forall (k : Z) (positions : list Z),
    0 <= k ->
    Z.of_nat (length inThese) - k <= Z.of_nat fuel ->
    StronglySorted Z.lt positions ->
    (forall j, j ∈ positions <-> j < k /\ nthZ inThese j = Some token) ->
    positions_of inThese token
      (createIndex_while fuel inThese token (indexOf inThese token k) positions).
Proof.
  induction fuel as [|fuel IH]; intros k positions Hk Hfuel Hsorted Hmem.
  - assert (Hidx : indexOf inThese token k = -1).
    { destruct (decide (indexOf inThese token k = -1)) as [|Hne]; [done|].
      apply indexOf_found in Hne as (? & H%nthZ_bounds & _); lia. }
    cbn. rewrite Hidx. cbn. split; [done|].
    intros j. rewrite Hmem. split; [by intros [_ ?]|].
    intros Hj. split; [|done].
    destruct (Z.lt_ge_cases j k) as [|Hge]; [done|].
    by apply (indexOf_none k Hk Hidx j) in Hge.
  - cbn [createIndex_while].
    destruct (Z.eqb_spec (indexOf inThese token k) (-1)) as [Hidx|Hidx].
    + split; [done|].
      intros j. rewrite Hmem. split; [by intros [_ ?]|].
      intros Hj. split; [|done].
      destruct (Z.lt_ge_cases j k) as [|Hge]; [done|].
      by apply (indexOf_none k Hk Hidx j) in Hge.
    + apply indexOf_found in Hidx as (Hle & Hat & Hfirst); [|done].
      set (r := indexOf inThese token k) in *.
      pose proof (nthZ_bounds _ _ _ Hat) as Hr.
      apply IH; [lia | lia | |].
      * apply StronglySorted_snoc; [done|].
        apply Forall_forall. intros j Hj%Hmem. lia.
      * intros j. rewrite elem_of_app, list_elem_of_singleton, Hmem. split.
        -- intros [[? ?]| ->]; [split; [lia | done] | split; [lia | done]].
        -- intros [Hj Hjt].
           destruct (Z.lt_ge_cases j k) as [|Hge]; [by left|]. right.
           destruct (Z.eq_dec j r) as [|Hne]; [done|].
           exfalso. apply (Hfirst j); [lia | done].
Qed.

End Index.

(** [createIndex] maps every token of [findThese] to its places in
    [inThese]. *)
Lemma createIndex_lookup (findThese inThese : list jsstring) (token : jsstring) :
  token ∈ findThese ->
  exists positions,
    createIndex findThese inThese !! token = Some positions
    /\ positions_of inThese token positions.
Proof.
  intros Hin. unfold createIndex.
  set (places t := createIndex_while (length inThese) inThese t (indexOf inThese t 0) []).
  set (f := fun (index : gmap (list Z) (list Z)) t => <[t := places t]> index).
  assert (Hfold : forall (fs : list jsstring) (m : gmap (list Z) (list Z)),
             fold_left f fs m !! token
             = if decide (token ∈ fs) then Some (places token) else m !! token).
  { induction fs as [|t fs IH]; intros m; cbn [fold_left].
    - destruct (decide (token ∈ [])) as [H%elem_of_nil|]; done.
    - rewrite IH. unfold f.
      destruct (decide (token ∈ fs)) as [Hfs|Hfs].
      + rewrite decide_True by (apply elem_of_cons; by right). done.
      + destruct (decide (token = t)) as [->|Hne].
        * rewrite lookup_insert_eq.
          rewrite decide_True by (apply elem_of_cons; by left). done.
        * rewrite lookup_insert_ne by done.
          rewrite decide_False; [done|].
          intros [?|?]%elem_of_cons; done. }
  exists (places token). split.
  - rewrite Hfold. by rewrite decide_True.
  - apply (createIndex_while_positions inThese token); [lia | lia | constructor |].
    intros j. split; [by intros ?%elem_of_nil|].
    intros [Hj H%nthZ_bounds]. lia.
Qed.

(** * What the block matcher finds *)

(** [beforeTokens[i]] and [afterTokens[j]] exist and are the same token. *)
Definition same_token (beforeTokens afterTokens : list jsstring) (i j : Z) : Prop :=
  exists t, nthZ beforeTokens i = Some t /\ nthZ afterTokens j = Some t.

(** A run of [l] pairwise-equal tokens that starts at [s1] in the before
    sequence and at [s2] in the after sequence. *)
Definition common_run (beforeTokens afterTokens : list jsstring) (s1 s2 l : Z) : Prop :=
  forall k, 0 <= k < l -> same_token beforeTokens afterTokens (s1 + k) (s2 + k).

Section MatcherSpec.

Context (beforeTokens afterTokens : list jsstring).
Context (sb eb sa ea : Z).

Definition same_tokenb (i j : Z) : bool :=
  match nthZ beforeTokens i, nthZ afterTokens j with
  | Some x, Some y => bool_decide (x = y)
  | _, _ => false
  end.

Lemma same_tokenb_spec (i j : Z) :
  same_tokenb i j = true <-> same_token beforeTokens afterTokens i j.
Proof.
  unfold same_tokenb, same_token.
  destruct (nthZ beforeTokens i) as [x|], (nthZ afterTokens j) as [y|].
  - rewrite bool_decide_eq_true. split; [intros ->; by exists y|].
    intros (t & [= ->] & [= ->]). done.
  - split; [done | intros (t & _ & ?); done].
  - split; [done | intros (t & ? & _); done].
  - split; [done | intros (t & ? & _); done].
Qed.

(** The length of the longest run of equal tokens that ends at [(i, j)]
    and does not leave the ranges on the left. *)
Fixpoint runlen_aux (n : nat) (i j : Z) : Z :=
  match n with
  | O => 0
  | S n' =>
      if (sb <=? i) && (sa <=? j) && same_tokenb i j
      then 1 + runlen_aux n' (i - 1) (j - 1)
      else 0
  end.

Definition runlen (i j : Z) : Z := runlen_aux (Z.to_nat (i - sb + 1)) i j.

Lemma runlen_unfold (i j : Z) :
  runlen i j
  = if (sb <=? i) && (sa <=? j) && same_tokenb i j
    then 1 + runlen (i - 1) (j - 1)
    else 0.
Proof.
  unfold runlen. destruct (Z.leb_spec sb i) as [Hi|Hi].
  - replace (Z.to_nat (i - sb + 1)) with (S (Z.to_nat (i - 1 - sb + 1))) by lia.
    cbn [runlen_aux]. by replace (sb <=? i) with true by lia.
  - replace (Z.to_nat (i - sb + 1)) with O by lia. reflexivity.
Qed.

Lemma runlen_same (i j : Z) :
  sb <= i -> sa <= j -> same_token beforeTokens afterTokens i j ->
  runlen i j = 1 + runlen (i - 1) (j - 1).
Proof.
  intros Hi Hj Hij%same_tokenb_spec. rewrite runlen_unfold, Hij.
  by replace (sb <=? i) with true by lia; replace (sa <=? j) with true by lia.
Qed.

Lemma runlen_differ (i j : Z) :
  ~ (sb <= i /\ sa <= j /\ same_token beforeTokens afterTokens i j) -> runlen i j = 0.
Proof.
  intros H. rewrite runlen_unfold.
  destruct (Z.leb_spec sb i), (Z.leb_spec sa j), (same_tokenb i j) eqn:Hij; try done.
  apply same_tokenb_spec in Hij. destruct H. done.
Qed.

(** [runlen] is the length of a run that ends at [(i, j)] inside the
    ranges. *)
Lemma runlen_aux_run (n : nat) :
  forall i j,
    let r := runlen_aux n i j in
    0 <= r
    /\ common_run beforeTokens afterTokens (i - r + 1) (j - r + 1) r
    /\ (1 <= r -> sb <= i - r + 1 /\ sa <= j - r + 1).
Proof.
  induction n as [|n IH]; intros i j; cbn [runlen_aux]; cbv zeta.
  - split; [lia|]. split; [intros k Hk; lia | lia].
  - destruct (Z.leb_spec sb i) as [Hi|Hi]; cbn [andb];
      [|split; [lia|]; split; [intros k Hk; lia | lia]].
    destruct (Z.leb_spec sa j) as [Hj|Hj]; cbn [andb];
      [|split; [lia|]; split; [intros k Hk; lia | lia]].
    destruct (same_tokenb i j) eqn:Hij;
      [|split; [lia|]; split; [intros k Hk; lia | lia]].
    apply same_tokenb_spec in Hij.
    destruct (IH (i - 1) (j - 1)) as (Hr & Hrun & Hlow). cbv zeta in *.
    set (r := runlen_aux n (i - 1) (j - 1)) in *.
    split; [lia|]. split.
    + intros k Hk. destruct (Z.eq_dec k r) as [->|Hne].
      * by replace (i - (1 + r) + 1 + r) with i by lia;
          replace (j - (1 + r) + 1 + r) with j by lia.
      * replace (i - (1 + r) + 1 + k) with (i - 1 - r + 1 + k) by lia.
        replace (j - (1 + r) + 1 + k) with (j - 1 - r + 1 + k) by lia.
        apply Hrun. lia.
    + intros _. destruct (Z.eq_dec r 0) as [Hr0|Hr0]; lia.
Qed.

Lemma runlen_run (i j : Z) :
  0 <= runlen i j
  /\ common_run beforeTokens afterTokens
       (i - runlen i j + 1) (j - runlen i j + 1) (runlen i j)
  /\ (1 <= runlen i j -> sb <= i - runlen i j + 1 /\ sa <= j - runlen i j + 1).
Proof. apply runlen_aux_run. Qed.

(** Every run inside the ranges is at most as long as [runlen] where it
    ends. *)
Lemma runlen_ge (l : nat) :
  forall s1 s2,
    sb <= s1 -> sa <= s2 ->
    common_run beforeTokens afterTokens s1 s2 (Z.of_nat l) ->
    Z.of_nat l <= runlen (s1 + Z.of_nat l - 1) (s2 + Z.of_nat l - 1).
Proof.
  induction l as [|l IH]; intros s1 s2 H1 H2 Hrun.
  - apply runlen_run.
  - rewrite runlen_same; [| lia | lia |].
    + specialize (IH s1 s2 H1 H2).
      replace (s1 + Z.of_nat (S l) - 1 - 1) with (s1 + Z.of_nat l - 1) by lia.
      replace (s2 + Z.of_nat (S l) - 1 - 1) with (s2 + Z.of_nat l - 1) by lia.
      assert (Z.of_nat l <= runlen (s1 + Z.of_nat l - 1) (s2 + Z.of_nat l - 1)); [|lia].
      apply IH. intros k Hk. apply Hrun. lia.
    + replace (s1 + Z.of_nat (S l) - 1) with (s1 + Z.of_nat l) by lia.
      replace (s2 + Z.of_nat (S l) - 1) with (s2 + Z.of_nat l) by lia.
      apply Hrun. lia.
Qed.

(** The cells [(i', j')] the two loops have visited when the outer loop is
    at row [i] and the inner loop has passed every column below [c]. *)
Definition scanned (i c i' j' : Z) : Prop := i' < i \/ (i' = i /\ j' < c).

(** The best match is the first, in the order of the scan, among the
    longest runs that end in a visited cell of the ranges. *)
Definition best_first (i c : Z) (b : best) : Prop :=
  (forall i' j', sb <= i' -> sa <= j' < ea -> scanned i c i' j' ->
                 runlen i' j' <= bestMatchLength b)
  /\ (bestMatchLength b = 0
      \/ exists i0 j0,
           sb <= i0 /\ sa <= j0 < ea /\ scanned i c i0 j0
           /\ runlen i0 j0 = bestMatchLength b
           /\ 1 <= bestMatchLength b
           /\ bestMatchInBefore b = i0 - bestMatchLength b + 1
           /\ bestMatchInAfter b = j0 - bestMatchLength b + 1
           /\ forall i' j', sb <= i' -> sa <= j' < ea -> scanned i c i' j' ->
                            runlen i' j' = bestMatchLength b ->
                            i0 < i' \/ (i0 = i' /\ j0 <= j')).

(** Visiting more cells keeps the best match, as long as no run ends in
    the new cells. *)
Lemma best_first_extend (i c i2 c2 : Z) (b : best) :
  best_first i c b ->
  (forall i' j', sb <= i' -> sa <= j' < ea -> scanned i c i' j' -> scanned i2 c2 i' j') ->
  (forall i' j', sb <= i' -> sa <= j' < ea -> scanned i2 c2 i' j' ->
                 ~ scanned i c i' j' -> runlen i' j' = 0) ->
  best_first i2 c2 b.
Proof.
  intros [Hmax Hbest] Hmono Hnew.
  assert (Hlen : 0 <= bestMatchLength b).
  { destruct Hbest as [->|(i0 & j0 & _ & _ & _ & _ & ? & _)]; lia. }
  assert (Hdec : forall i' j', scanned i c i' j' \/ ~ scanned i c i' j')
    by (unfold scanned; lia).
  split.
  - intros i' j' Hi' Hj' Hs. destruct (Hdec i' j') as [Hold|Hold].
    + by apply Hmax.
    + rewrite (Hnew i' j') by done. done.
  - destruct Hbest as [Hbest|(i0 & j0 & ? & ? & Hs0 & ? & ? & ? & ? & Htie)]; [by left|].
    right. exists i0, j0. repeat split; try done; try lia.
    + by apply Hmono.
    + intros i' j' Hi' Hj' Hs Hrun. destruct (Hdec i' j') as [Hold|Hold].
      * by apply Htie.
      * rewrite (Hnew i' j') in Hrun by done. lia.
Qed.

(** Visiting the cell [(i, j)], where a run of length [runlen i j] ends. *)
Lemma best_first_cell (i j : Z) (b : best) :
  best_first i j b -> sb <= i -> sa <= j < ea -> 1 <= runlen i j ->
  best_first i (j + 1)
    (if runlen i j >? bestMatchLength b
     then {| bestMatchInBefore := i - runlen i j + 1;
             bestMatchInAfter := j - runlen i j + 1;
             bestMatchLength := runlen i j |}
     else b).
Proof.
  intros [Hmax Hbest] Hi Hj Hrun.
  assert (Hcell : forall i' j', scanned i (j + 1) i' j'
                                <-> scanned i j i' j' \/ (i' = i /\ j' = j))
    by (unfold scanned; lia).
  rewrite Z.gtb_ltb. destruct (Z.ltb_spec (bestMatchLength b) (runlen i j)) as [Hlt|Hge].
  - split; cbn [bestMatchLength bestMatchInBefore bestMatchInAfter].
    + intros i' j' Hi' Hj' [Hs|[-> ->]]%Hcell; [|lia].
      specialize (Hmax i' j' Hi' Hj' Hs). lia.
    + right. exists i, j. repeat split; try done; try lia.
      * apply Hcell. by right.
      * intros i' j' Hi' Hj' [Hs|[-> ->]]%Hcell Heq; [|lia].
        specialize (Hmax i' j' Hi' Hj' Hs). lia.
  - split.
    + intros i' j' Hi' Hj' [Hs|[-> ->]]%Hcell; [by apply Hmax | lia].
    + destruct Hbest as [Hbest|(i0 & j0 & ? & ? & Hs0 & ? & ? & ? & ? & Htie)]; [lia|].
      right. exists i0, j0. repeat split; try done; try lia.
      * apply Hcell. by left.
      * intros i' j' Hi' Hj' [Hs|[-> ->]]%Hcell Heq; [by apply Htie|].
        unfold scanned in Hs0. lia.
Qed.

(** The inner loop, for row [i] with token [beforeTokens[i]] at places
    [locationsInAfter]: it leaves in [newMatchLengthAt] the run lengths of
    the row and keeps the best match first. *)
Lemma findMatch_inner_first (i : Z) (matchLengthAt : gmap Z Z) :
  sb <= i ->
  (forall j, j < ea -> default 0 (matchLengthAt !! j) = runlen (i - 1) j) ->
  forall (locationsInAfter : list Z) (c : Z) (newMatchLengthAt : gmap Z Z) (b : best),
    StronglySorted Z.lt locationsInAfter ->
    Forall (fun j => c <= j) locationsInAfter ->
    (forall j, c <= j ->
               j ∈ locationsInAfter <-> same_token beforeTokens afterTokens i j) ->
    (forall j, j < c -> j < ea -> default 0 (newMatchLengthAt !! j) = runlen i j) ->
    (forall j, c <= j -> newMatchLengthAt !! j = None) ->
    best_first i c b ->
    let r := findMatch_inner locationsInAfter i sa ea matchLengthAt newMatchLengthAt b in
    (forall j, j < ea -> default 0 (fst r !! j) = runlen i j)
    /\ best_first (i + 1) sa (snd r).
Proof.
  intros Hi Hprev.
  (* the loop is over: no token of the row matches at or after column [c] *)
  assert (Hdone : forall (c : Z) (new : gmap Z Z) (b : best),
             (forall j, c <= j < ea -> ~ same_token beforeTokens afterTokens i j) ->
             (forall j, j < c -> j < ea -> default 0 (new !! j) = runlen i j) ->
             (forall j, c <= j -> new !! j = None) ->
             best_first i c b ->
             (forall j, j < ea -> default 0 (new !! j) = runlen i j)
             /\ best_first (i + 1) sa b).
  { intros c new b Hnone Hrow Hfresh Hb. split.
    - intros j Hj. destruct (Z.lt_ge_cases j c) as [Hjc|Hjc]; [by apply Hrow|].
      rewrite Hfresh by done. cbn. symmetry. apply runlen_differ.
      intros (_ & _ & Hsame). by apply (Hnone j).
    - apply (best_first_extend i c); [done | |].
      + unfold scanned. intros i' j' ? ? ?. lia.
      + unfold scanned. intros i' j' ? ? Hs Hns. apply runlen_differ.
        intros (_ & _ & Hsame).
        assert (i' = i) as -> by lia. apply (Hnone j'); [lia | done]. }
  induction locationsInAfter as [|j0 rest IH];
    intros c new b Hsorted Hge Hmem Hrow Hfresh Hb; cbn [findMatch_inner]; cbv zeta.
  - apply (Hdone c); try done.
    intros j Hj Hsame. apply Hmem in Hsame; [|lia]. by apply elem_of_nil in Hsame.
  - apply StronglySorted_inv in Hsorted as [Hsorted Hrest].
    apply Forall_cons in Hge as [Hj0 Hge].
    assert (Hge' : Forall (fun j => j0 + 1 <= j) rest).
    { eapply Forall_impl; [exact Hrest|]. cbn. intros; lia. }
    assert (Hmem' : forall j, j0 + 1 <= j ->
                              j ∈ rest <-> same_token beforeTokens afterTokens i j).
    { intros j Hj. rewrite <- Hmem by lia. rewrite elem_of_cons.
      split; [by right | intros [?|?]; [lia | done]]. }
    assert (Hgap : forall j, c <= j < j0 -> ~ same_token beforeTokens afterTokens i j).
    { intros j Hj Hsame. apply Hmem in Hsame; [|lia].
      apply elem_of_cons in Hsame as [?|Hin]; [lia|].
      rewrite Forall_forall in Hrest. specialize (Hrest j Hin). lia. }
    destruct (Z.ltb_spec j0 sa) as [Hlow|Hlow].
    { (* continue *)
      apply (IH (j0 + 1)); try done.
      - intros j Hj Hjea. destruct (Z.lt_ge_cases j c) as [Hjc|Hjc]; [by apply Hrow|].
        rewrite Hfresh by done. cbn. symmetry. apply runlen_differ. lia.
      - intros j Hj. apply Hfresh. lia.
      - apply (best_first_extend i c); [done | |].
        + unfold scanned. intros i' j' ? ? ?. lia.
        + unfold scanned. intros i' j' ? ? Hs Hns. lia. }
    rewrite Z.geb_leb. destruct (Z.leb_spec ea j0) as [Hhigh|Hhigh].
    { (* break *)
      apply (Hdone c); try done.
      intros j Hj. apply Hgap. lia. }
    assert (Hsame : same_token beforeTokens afterTokens i j0).
    { apply Hmem; [lia|]. apply elem_of_cons. by left. }
    assert (Hnew : default 0 (matchLengthAt !! (j0 - 1)) + 1 = runlen i j0).
    { rewrite Hprev by lia. rewrite (runlen_same i j0) by (done || lia). lia. }
    rewrite Hnew.
    assert (Hpos : 1 <= runlen i j0).
    { rewrite (runlen_same i j0) by (done || lia).
      pose proof (runlen_run (i - 1) (j0 - 1)) as [? _]. lia. }
    apply (IH (j0 + 1)); try done.
    + intros j Hj Hjea. rewrite lookup_insert. case_decide as Hjj0.
      * subst j. done.
      * destruct (Z.lt_ge_cases j c) as [Hjc|Hjc]; [by apply Hrow|].
        rewrite Hfresh by done. cbn. symmetry. apply runlen_differ.
        intros (_ & _ & Hs). apply (Hgap j); [lia | done].
    + intros j Hj. rewrite lookup_insert_ne by lia. apply Hfresh. lia.
    + apply best_first_cell; try done; try lia.
      apply (best_first_extend i c); [done | |].
      * unfold scanned. intros i' j' ? ? ?. lia.
      * unfold scanned. intros i' j' ? ? Hs Hns. apply runlen_differ.
        intros (_ & _ & Hs'). assert (i' = i) as -> by lia.
        apply (Hgap j'); [lia | done].
Qed.

(** The outer loop over the before range, with the index of
    [createIndex]. *)
Lemma findMatch_loop_first :
  0 <= sb -> eb <= Z.of_nat (length beforeTokens) -> 0 <= sa ->
  best_first (Z.max sb eb) sa
    (snd (findMatch_loop beforeTokens (createIndex beforeTokens afterTokens)
            sb eb sa ea)).
Proof.
  intros Hsb Heb Hsa. unfold findMatch_loop.
  pose (P := fun (i : Z) (st : gmap Z Z * best) =>
               (forall j, j < ea -> default 0 (fst st !! j) = runlen (i - 1) j)
               /\ best_first i sa (snd st)).
  assert (Hseq : seqZ sb (eb - sb) = seqZ sb (Z.of_nat (Z.to_nat (eb - sb)))).
  { destruct (Z.le_gt_cases sb eb); [f_equal; lia | by rewrite !seqZ_nil by lia]. }
  rewrite Hseq.
  replace (Z.max sb eb) with (sb + Z.of_nat (Z.to_nat (eb - sb))) by lia.
  enough (P (sb + Z.of_nat (Z.to_nat (eb - sb)))
            (fold_left
               (findMatch_outer beforeTokens (createIndex beforeTokens afterTokens) sa ea)
               (seqZ sb (Z.of_nat (Z.to_nat (eb - sb))))
               (∅, {| bestMatchInBefore := sb; bestMatchInAfter := sa;
                      bestMatchLength := 0 |}))) as [_ H] by exact H.
  apply fold_seqZ_ind.
  - unfold P. cbn [fst snd]. split.
    + intros j _. rewrite lookup_empty. cbn. symmetry. apply runlen_differ. lia.
    + split; [|by left]. unfold scanned. intros i' j' ? ? ?. lia.
  - intros i [mla b] Hi [Hrow Hbest]. unfold P, findMatch_outer. cbn [fst snd] in *.
    replace (i + 1 - 1) with i by lia.
    destruct (nthZ_in_range beforeTokens i) as [t Ht]; [lia|].
    rewrite Ht. cbn [propertyKey].
    destruct (createIndex_lookup beforeTokens afterTokens t) as (L & -> & Hsorted & Hmem).
    { apply nthZ_Some in Ht as [_ Ht]. by apply list_elem_of_lookup_2 in Ht. }
    cbn [default].
    apply (findMatch_inner_first i mla) with (c := 0); try done; try lia.
    + apply Forall_forall. intros j Hj%Hmem%nthZ_bounds. lia.
    + intros j _. rewrite Hmem. unfold same_token. split.
      * intros Hj. by exists t.
      * intros (t' & Ht' & Hj). congruence.
    + intros j Hj _. rewrite lookup_empty. cbn. symmetry. apply runlen_differ. lia.
    + apply (best_first_extend i sa); [done | |].
      * unfold scanned. intros i' j' ? ? ?. lia.
      * unfold scanned. intros i' j' ? ? ? ?. lia.
Qed.

End MatcherSpec.

(** C7. With the index of [createIndex] and ranges inside the sequences,
    [findMatch] returns a longest run of pairwise-equal tokens between
    [before[sb, eb)] and [after[sa, ea)]: the block is such a run, no run in
    the ranges is longer, and among the runs of that length it is the
    leftmost in the before sequence and, among those, the leftmost in the
    after sequence. It returns [null] exactly when the two ranges have no
    token in common. *)
Theorem findMatch_longest_first (beforeTokens afterTokens : list jsstring)
    (sb eb sa ea : Z) :
  0 <= sb -> eb <= Z.of_nat (length beforeTokens) -> 0 <= sa ->
  let found :=
    findMatch beforeTokens afterTokens (createIndex beforeTokens afterTokens)
      sb eb sa ea in
  match found with
  | Some m =>
      1 <= Match.length m
      /\ Match.endInBefore m = Match.startInBefore m + Match.length m - 1
      /\ Match.endInAfter m = Match.startInAfter m + Match.length m - 1
      /\ sb <= Match.startInBefore m /\ Match.startInBefore m + Match.length m <= eb
      /\ sa <= Match.startInAfter m /\ Match.startInAfter m + Match.length m <= ea
      /\ common_run beforeTokens afterTokens
           (Match.startInBefore m) (Match.startInAfter m) (Match.length m)
      /\ forall s1 s2 l,
           1 <= l -> sb <= s1 -> s1 + l <= eb -> sa <= s2 -> s2 + l <= ea ->
           common_run beforeTokens afterTokens s1 s2 l ->
           l <= Match.length m
           /\ (l = Match.length m ->
               Match.startInBefore m < s1
               \/ (Match.startInBefore m = s1 /\ Match.startInAfter m <= s2))
  | None => True
  end
  /\ (found = None
      <-> forall i j, sb <= i < eb -> sa <= j < ea ->
                      ~ same_token beforeTokens afterTokens i j).
Proof.
  intros Hsb Heb Hsa. cbv zeta. unfold findMatch.
  pose proof (findMatch_loop_first beforeTokens afterTokens sb eb sa ea Hsb Heb Hsa)
    as [Hmax Hbest].
  set (b := snd (findMatch_loop _ _ _ _ _ _)) in *.
  assert (Hscan : forall i j, sb <= i < eb -> scanned (Z.max sb eb) sa i j)
    by (unfold scanned; lia).
  destruct (Z.eqb_spec (bestMatchLength b) 0) as [Hzero|Hnz]; cbn [negb].
  - split; [done|]. split; [|done]. intros _ i j Hi Hj Hsame.
    specialize (Hmax i j ltac:(lia) Hj (Hscan i j Hi)).
    rewrite (runlen_same beforeTokens afterTokens sb sa i j) in Hmax by (done || lia).
    pose proof (runlen_run beforeTokens afterTokens sb sa (i - 1) (j - 1)) as [? _]. lia.
  - destruct Hbest as [?|(i0 & j0 & Hi0 & Hj0 & Hs0 & Hrun0 & Hlen & HinB & HinA & Htie)];
      [done|].
    pose proof (runlen_run beforeTokens afterTokens sb sa i0 j0) as (_ & Hcommon & Hlow).
    rewrite Hrun0 in Hcommon, Hlow. specialize (Hlow Hlen).
    assert (Hi0' : i0 < eb) by (unfold scanned in Hs0; lia).
    split.
    + cbn [Match.new Match.length Match.startInBefore Match.startInAfter
             Match.endInBefore Match.endInAfter].
      rewrite HinB, HinA.
      do 7 (split; [lia|]). split; [done|].
      intros s1 s2 l Hl Hs1 He1 Hs2 He2 Hrun.
      pose proof (runlen_ge beforeTokens afterTokens sb sa (Z.to_nat l) s1 s2) as Hge.
      rewrite Z2Nat.id in Hge by lia. specialize (Hge Hs1 Hs2 Hrun).
      pose proof (Hmax (s1 + l - 1) (s2 + l - 1) ltac:(lia) ltac:(lia)
                    (Hscan (s1 + l - 1) (s2 + l - 1) ltac:(lia))) as Hle.
      split; [lia|]. intros Heq.
      specialize (Htie (s1 + l - 1) (s2 + l - 1) ltac:(lia) ltac:(lia)
                    (Hscan (s1 + l - 1) (s2 + l - 1) ltac:(lia)) ltac:(lia)).
      lia.
    + split; [done|]. intros Hnone. exfalso.
      apply (Hnone i0 j0); [lia | lia |].
      specialize (Hcommon (bestMatchLength b - 1) ltac:(lia)).
      by replace (i0 - bestMatchLength b + 1 + (bestMatchLength b - 1)) with i0 in Hcommon
        by lia;
        replace (j0 - bestMatchLength b + 1 + (bestMatchLength b - 1)) with j0 in Hcommon
        by lia.
Qed.

Lemma findMatch_longest_first_witness :
  let beforeTokens := str <$> ["a"; "b"; "c"; "a"; "b"]%string in
  let afterTokens := str <$> ["x"; "a"; "b"; "y"; "a"; "b"]%string in
  findMatch beforeTokens afterTokens (createIndex beforeTokens afterTokens) 0 5 0 6
  = Some (Match.new 0 1 2)
  /\ forall s1 s2 l,
       1 <= l -> 0 <= s1 -> s1 + l <= 5 -> 0 <= s2 -> s2 + l <= 6 ->
       common_run beforeTokens afterTokens s1 s2 l ->
       l <= 2 /\ (l = 2 -> 0 < s1 \/ (0 = s1 /\ 1 <= s2)).
Proof.
  cbv zeta.
  pose proof (findMatch_longest_first
                (str <$> ["a"; "b"; "c"; "a"; "b"]%string)
                (str <$> ["x"; "a"; "b"; "y"; "a"; "b"]%string) 0 5 0 6) as H.
  assert (Hfound :
            findMatch (str <$> ["a"; "b"; "c"; "a"; "b"]%string)
              (str <$> ["x"; "a"; "b"; "y"; "a"; "b"]%string)
              (createIndex (str <$> ["a"; "b"; "c"; "a"; "b"]%string)
                 (str <$> ["x"; "a"; "b"; "y"; "a"; "b"]%string)) 0 5 0 6
            = Some (Match.new 0 1 2)) by (vm_compute; reflexivity).
  cbv zeta in H. rewrite Hfound in H.
  destruct H as [H _]; [lia | cbn; lia | lia |].
  split; [exact Hfound|]. apply H.
Defined.

(** * The scenarios of the specification *)

(** Scenario 1: ["original"] is replaced by ["new"] between the equal spans
    ["this is "] and [" text"]. *)
Example diff_scenario_replace :
  diff (str "this is original text") (str "this is new text")
  = Normal
      [ [ ("type", VString (str "equal")); ("text", VString (str "this is "));
          ("beforeStartPosition", VNumber 0); ("beforeEndPosition", VNumber 7);
          ("afterStartPosition", VNumber 0); ("afterEndPosition", VNumber 7);
          ("length", VNumber 8) ];
        [ ("type", VString (str "replace"));
          ("oldText", VString (str "original")); ("newText", VString (str "new"));
          ("beforeStartPosition", VNumber 8); ("beforeEndPosition", VNumber 15);
          ("afterStartPosition", VNumber 8); ("afterEndPosition", VNumber 10);
          ("oldLength", VNumber 8); ("newLength", VNumber 3) ];
        [ ("type", VString (str "equal")); ("text", VString (str " text"));
          ("beforeStartPosition", VNumber 16); ("beforeEndPosition", VNumber 20);
          ("afterStartPosition", VNumber 11); ("afterEndPosition", VNumber 15);
          ("length", VNumber 5) ] ]%string.
Proof. vm_compute. reflexivity. Qed.

(** Scenario 3: only [" world"] is wrapped, the [<p>] and [</p>] tokens are
    left as they are. *)
Example render_scenario_tags :
  let beforeTokens := htmlToTokens (str "<p>hello</p>") in
  let afterTokens := htmlToTokens (str "<p>hello world</p>") in
  bind (calculateOperations (Tokens beforeTokens) (Tokens afterTokens))
    (fun operations =>
       Normal (renderWithOperationMap beforeTokens afterTokens operations))
  = Normal (str "<p>hello<ins> world</ins></p>").
Proof. vm_compute. reflexivity. Qed.

(** Scenario 4: the empty string against ["x"] is one insert record. *)
Example diff_scenario_insert :
  diff (str "") (str "x")
  = Normal
      [ [ ("type", VString (str "insert")); ("text", VString (str "x"));
          ("afterStartPosition", VNumber 0); ("afterEndPosition", VNumber 0);
          ("length", VNumber 1); ("beforePosition", VNumber 0) ] ]%string.
Proof. vm_compute. reflexivity. Qed.

(** * More about the patterns *)

Section Patterns.

Lemma lang_star_class (p : Z -> bool) (s : jsstring) :
  lang (Star (Class p)) s <-> Forall (fun c => p c = true) s.
Proof.
  split.
  - intros H. remember (Star (Class p)) as r eqn:Hr.
    induction H as [| | | | | |r0 s1 s2 H1 _ H2 IH2]; try discriminate.
    + constructor.
    + injection Hr as ->. apply lang_class_inv in H1 as (c & -> & Hc).
      constructor; [done | by apply IH2].
  - induction 1 as [|c s Hc _ IH]; [constructor|].
    apply (lang_star_cons _ [c] s); [by constructor | done].
Qed.

Lemma lang_plus_class (p : Z -> bool) (s : jsstring) :
  lang (Plus (Class p)) s <-> s <> [] /\ Forall (fun c => p c = true) s.
Proof.
  unfold Plus. split.
  - intros (s1 & s2 & -> & (c & -> & Hc)%lang_class_inv & H2%lang_star_class)%lang_cat_inv.
    split; [done | by constructor].
  - intros [Hne Hall]. destruct Hall as [|c s Hc Hall]; [done|].
    apply (lang_cat _ _ [c] s); [by constructor | by apply lang_star_class].
Qed.

(** [isWhitespace]: a non-empty string of whitespace units. *)
Lemma isWhitespace_spec (char : jsstring) :
  isWhitespace char = true <-> char <> [] /\ Forall (fun c => class_s c = true) char.
Proof. unfold isWhitespace. rewrite matches_lang. apply lang_plus_class. Qed.

(** An unanchored class test finds a unit of the class anywhere. *)
Lemma search_class (p : Z -> bool) (s : jsstring) :
  search (Class p) s = true <-> Exists (fun c => p c = true) s.
Proof.
  unfold search. rewrite matches_lang, Exists_exists. split.
  - intros (s1 & w & -> & _ & H)%lang_cat_inv.
    apply lang_cat_inv in H as (s2 & s3 & -> & (c & -> & Hc)%lang_class_inv & _).
    exists c. split; [|done]. rewrite !elem_of_app. right. left. apply list_elem_of_here.
  - intros (c & (s1 & s2 & ->)%list_elem_of_split & Hc).
    apply lang_cat; [apply lang_star_class; by apply Forall_forall|].
    apply (lang_cat _ _ [c] s2); [by constructor|].
    apply lang_star_class. by apply Forall_forall.
Qed.

(** The tag pattern, read as a shape: whitespace, [<], one or more units
    other than [>], [>], whitespace. *)
Lemma isTag_shape (token : jsstring) :
  isTag token = true
  <-> exists w1 body w2,
        token = w1 ++ 0x3C :: body ++ 0x3E :: w2
        /\ Forall (fun c => class_s c = true) w1
        /\ body <> [] /\ (0x3E ∉ body)
        /\ Forall (fun c => class_s c = true) w2.
Proof.
  unfold isTag. rewrite matches_lang. unfold tagPattern. split.
  - intros (w1 & r1 & -> & Hw1%lang_star_class & H)%lang_cat_inv.
    apply lang_cat_inv in H as (l & r2 & -> & (c & -> & Hc)%lang_class_inv & H).
    apply lang_cat_inv in H as (body & r3 & -> & [Hne Hbody]%lang_plus_class & H).
    apply lang_cat_inv in H as (g & w2 & -> & (d & -> & Hd)%lang_class_inv & Hw2%lang_star_class).
    apply Z.eqb_eq in Hc as ->. apply Z.eqb_eq in Hd as ->.
    exists w1, body, w2. repeat split; try done.
    intros Hin. rewrite Forall_forall in Hbody. by apply Hbody in Hin.
  - intros (w1 & body & w2 & -> & Hw1 & Hne & Hbody & Hw2).
    apply lang_cat; [by apply lang_star_class|].
    apply (lang_cat _ _ [0x3C]); [by constructor|].
    apply lang_cat.
    + apply lang_plus_class. split; [done|]. apply Forall_forall.
      intros c Hc. unfold class_not_gt. apply negb_true_iff, Z.eqb_neq. by intros ->.
    + apply (lang_cat _ _ [0x3E]); [by constructor | by apply lang_star_class].
Qed.

End Patterns.

(** X17. A closed tag token of the tokenizer, [<] body [>] with no [>] in
    the body, matches the tag pattern exactly when the body is not empty:
    ["<>"] alone is handled as text by [wrapWithTag]. *)
Theorem isTag_closed_tag_token (body : jsstring) :
  0x3E ∉ body ->
  (isTag (0x3C :: body ++ [0x3E]) = true <-> body <> [])
  /\ isTag (str "<>") = false.
Proof.
  intros Hbody. split; [|reflexivity]. rewrite isTag_shape. split.
  - intros (w1 & body' & w2 & Heq & Hw1 & Hne & Hbody' & Hw2) ->.
    destruct w1 as [|c w1]; cbn in Heq.
    + injection Heq as Heq. destruct body' as [|b body']; [done|].
      cbn in Heq. injection Heq as <- Heq. apply Hbody'. apply list_elem_of_here.
    + injection Heq as <- Heq. by apply Forall_cons in Hw1 as [? _].
  - intros Hne. exists [], body, []. repeat split; try done; constructor.
Qed.

Lemma isTag_closed_tag_token_witness :
  isTag (str "<br/>") = true /\ isTag (str "<>") = false.
Proof.
  destruct (isTag_closed_tag_token (str "br/")) as [H1 H2].
  - vm_compute. intros H. repeat (inversion H as [|? ? ? H']; clear H; rename H' into H).
  - split; [|exact H2]. apply H1. discriminate.
Defined.

(** * The shapes of the tokens *)

(** What the string iterator yields: one code unit, or a surrogate pair. *)
Definition code_point (char : jsstring) : Prop :=
  (exists c, char = [c])
  \/ (exists c d, char = [c; d] /\ isHighSurrogate c = true /\ isLowSurrogate d = true).

(** A whitespace token: a non-empty run of whitespace units. *)
Definition ws_token (t : jsstring) : Prop :=
  t <> [] /\ Forall (fun c => class_s c = true) t.

(** A tag token still open: [<] and then no [>]. *)
Definition tag_open (t : jsstring) : Prop :=
  exists body, t = 0x3C :: body /\ 0x3E ∉ body.

(** A closed tag token: [<], then no [>], then [>]. *)
Definition tag_closed (t : jsstring) : Prop :=
  exists body, t = 0x3C :: body ++ [0x3E] /\ 0x3E ∉ body.

(** A character that is neither [<], nor whitespace, nor of the class
    [[\w#@]]. *)
Definition other_char (char : jsstring) : Prop :=
  code_point char
  /\ isStartOfTag char = false
  /\ isWhitespace char = false
  /\ search (Class class_w_hash_at) char = false.

(** A token of char mode: a run of [[\w#@]] units, with at most one other
    character in front of it. *)
Definition char_token (t : jsstring) : Prop :=
  t <> []
  /\ exists head word,
       t = head ++ word
       /\ (head = [] \/ other_char head)
       /\ Forall (fun c => class_w_hash_at c = true) word.

Definition complete_token (t : jsstring) : Prop :=
  tag_closed t \/ ws_token t \/ char_token t.

Section TokenShapes.

Lemma stringIterator_code_points (s : jsstring) : Forall code_point (stringIterator s).
Proof.
  remember (length s) as n eqn:Hn. revert s Hn.
  induction (lt_wf n) as [n _ IH]. intros s Hn.
  destruct s as [|c [|d rest]].
  - constructor.
  - cbn. constructor; [|constructor]. left. by exists c.
  - rewrite stringIterator_pair.
    destruct (isHighSurrogate c && isLowSurrogate d) eqn:Hpair.
    + apply andb_true_iff in Hpair as [? ?]. constructor.
      * right. by exists c, d.
      * apply (IH (length rest) ltac:(subst n; cbn [length]; lia) rest eq_refl).
    + constructor.
      * left. by exists c.
      * apply (IH (length (d :: rest)) ltac:(subst n; cbn [length]; lia) (d :: rest) eq_refl).
Qed.

Lemma surrogate_plain (c : Z) :
  isHighSurrogate c = true \/ isLowSurrogate c = true ->
  c <> 0x3E /\ class_w_hash_at c = false.
Proof.
  unfold isHighSurrogate, isLowSurrogate, class_w_hash_at, class_w.
  rewrite !andb_true_iff, !Z.leb_le. intros H. split; [lia|].
  rewrite !orb_false_iff, !andb_false_iff, !Z.leb_gt, !Z.eqb_neq. lia.
Qed.

(** A character other than [>] holds no [>]. *)
Lemma code_point_no_gt (char : jsstring) :
  code_point char -> isEndOfTag char = false -> 0x3E ∉ char.
Proof.
  unfold isEndOfTag. intros Hcp Hend%bool_decide_eq_false.
  destruct Hcp as [(c & ->)|(c & d & -> & Hc & Hd)].
  - intros Hin%list_elem_of_singleton. subst c. by apply Hend.
  - intros Hin. apply elem_of_cons in Hin as [Hin|Hin].
    + subst c. by destruct (surrogate_plain 0x3E (or_introl Hc)).
    + apply list_elem_of_singleton in Hin. subst d.
      by destruct (surrogate_plain 0x3E (or_intror Hd)).
Qed.

(** A character of the class [[\w#@]] is one unit of the class. *)
Lemma code_point_word (char : jsstring) :
  code_point char -> search (Class class_w_hash_at) char = true ->
  Forall (fun c => class_w_hash_at c = true) char.
Proof.
  intros Hcp Hw%search_class.
  destruct Hcp as [(c & ->)|(c & d & -> & Hc & Hd)].
  - apply Exists_cons in Hw as [Hw|Hw%Exists_nil]; [|done]. by repeat constructor.
  - destruct (surrogate_plain c (or_introl Hc)) as [_ Hc'].
    destruct (surrogate_plain d (or_intror Hd)) as [_ Hd'].
    apply Exists_cons in Hw as [Hw|Hw]; [congruence|].
    apply Exists_cons in Hw as [Hw|Hw%Exists_nil]; [congruence | done].
Qed.

Lemma code_point_nonempty (char : jsstring) : code_point char -> char <> [].
Proof. intros [(c & ->)|(c & d & -> & _)]; done. Qed.

(** What the tokenizer holds between two characters: complete tokens
    pushed, and a token in progress of the shape of its mode. *)
Definition lexer_ok (st : lexer) : Prop :=
  Forall complete_token (tokens st)
  /\ match mode st with
     | ModeTag => tag_open (currentToken st)
     | ModeWhitespace => ws_token (currentToken st)
     | ModeChar => currentToken st = [] \/ char_token (currentToken st)
     end.

Lemma flush_complete (st : lexer) :
  Forall complete_token (tokens st) ->
  (currentToken st = [] \/ complete_token (currentToken st)) ->
  Forall complete_token (flush st).
Proof.
  intros Htokens Hcur. unfold flush.
  destruct (currentToken st) as [|c cur] eqn:Hc; cbn [truthy]; [done|].
  apply Forall_app. split; [done|]. constructor; [|constructor].
  destruct Hcur as [?|?]; done.
Qed.

Lemma char_token_start (char : jsstring) :
  code_point char -> isStartOfTag char = false -> isWhitespace char = false ->
  char_token char.
Proof.
  intros Hcp Hlt Hws. split; [by apply code_point_nonempty|].
  destruct (search (Class class_w_hash_at) char) eqn:Hw.
  - exists [], char. split; [done|]. split; [by left | by apply code_point_word].
  - exists char, []. rewrite app_nil_r. split; [done|]. split; [by right | constructor].
Qed.

Lemma htmlToTokens_step_ok (st : lexer) (char : jsstring) :
  code_point char -> lexer_ok st -> lexer_ok (htmlToTokens_step st char).
Proof.
  intros Hcp [Htokens Hcur]. unfold htmlToTokens_step, lexer_ok.
  destruct (mode st) eqn:Hmode.
  - (* char mode *)
    assert (Hflush : Forall complete_token (flush st)).
    { apply flush_complete; [done|]. destruct Hcur as [?|?]; [by left|].
      right. right. by right. }
    destruct (isStartOfTag char) eqn:Hlt; cbn [tokens currentToken mode].
    { split; [done|]. apply bool_decide_eq_true in Hlt as ->.
      exists []. split; [done | apply not_elem_of_nil]. }
    destruct (isWhitespace char) eqn:Hws; cbn [tokens currentToken mode].
    { split; [done|]. by apply isWhitespace_spec. }
    destruct (search (Class class_w_hash_at) char) eqn:Hw; cbn [tokens currentToken mode].
    + split; [done|]. right.
      pose proof (code_point_word char Hcp Hw) as Hword.
      destruct Hcur as [->|(Hne & head & word & Heq & Hhead & Hwords)].
      * cbn [app]. split; [by apply code_point_nonempty|].
        exists [], char. split; [done|]. split; [by left | done].
      * rewrite Heq in *.
        split; [intros [? _]%app_eq_nil; contradiction|].
        exists head, (word ++ char). rewrite app_assoc. split; [done|].
        split; [done | by apply Forall_app].
    + split; [done|]. right. by apply char_token_start.
  - (* tag mode *)
    destruct Hcur as (body & Hbody & Hgt).
    destruct (isEndOfTag char) eqn:Hend; cbn [tokens currentToken mode].
    + apply bool_decide_eq_true in Hend as ->. split.
      * apply Forall_app. split; [done|]. constructor; [|constructor].
        left. exists body. rewrite Hbody. done.
      * change (isWhitespace (str ">")) with false. cbn iota. by left.
    + split; [done|]. exists (body ++ char). rewrite Hbody. split; [done|].
      intros [?|?]%elem_of_app; [done|]. by apply (code_point_no_gt char).
  - (* whitespace mode *)
    assert (Hflush : Forall complete_token (flush st)).
    { apply flush_complete; [done|]. right. right. by left. }
    destruct (isStartOfTag char) eqn:Hlt; cbn [tokens currentToken mode].
    { split; [done|]. apply bool_decide_eq_true in Hlt as ->.
      exists []. split; [done | apply not_elem_of_nil]. }
    destruct (isWhitespace char) eqn:Hws; cbn [tokens currentToken mode].
    + split; [done|]. destruct Hcur as [Hne Hall].
      apply isWhitespace_spec in Hws as [_ Hchar].
      split; [intros [? _]%app_eq_nil; contradiction | by apply Forall_app].
    + split; [done|]. right. by apply char_token_start.
Qed.

Lemma htmlToTokens_loop_ok (chars : list jsstring) :
  forall st, Forall code_point chars -> lexer_ok st ->
             lexer_ok (fold_left htmlToTokens_step chars st).
Proof.
  induction chars as [|char chars IH]; intros st Hchars Hst; cbn [fold_left]; [done|].
  apply Forall_cons in Hchars as [Hchar Hchars].
  apply IH; [done|]. by apply htmlToTokens_step_ok.
Qed.

End TokenShapes.

(** The tokens pushed by the loop are complete; the one flushed at the end
    may be a tag left open. *)
Lemma htmlToTokens_shapes (html : jsstring) :
  exists pushed rest,
    htmlToTokens html = pushed ++ rest
    /\ Forall complete_token pushed
    /\ (rest = [] \/ exists t, rest = [t] /\ (complete_token t \/ tag_open t)).
Proof.
  unfold htmlToTokens.
  pose proof (htmlToTokens_loop_ok (stringIterator html) lexer_init
                (stringIterator_code_points html)) as [Htokens Hcur].
  { split; [constructor | by left]. }
  set (st := fold_left htmlToTokens_step (stringIterator html) lexer_init) in *.
  exists (tokens st). unfold flush.
  destruct (currentToken st) as [|c cur] eqn:Hc; cbn [truthy].
  - exists []. rewrite app_nil_r. split; [done|]. split; [done | by left].
  - exists [c :: cur]. split; [done|]. split; [done|]. right.
    exists (c :: cur). split; [done|].
    destruct (mode st).
    + destruct Hcur as [?|?]; [done|]. left. right. by right.
    + by right.
    + left. right. by left.
Qed.


(** X2. Every token of [htmlToTokens] but the last is a closed tag token
    ([<] up to the first [>]), a run of whitespace, or a char token: a run
    of [[\w#@]] units with at most one other character in front, so that a
    punctuation character is joined to the word that follows it. The last
    token may also be a tag token left open by the end of the input. *)
Theorem htmlToTokens_token_shapes (html : jsstring) :
  exists pushed rest,
    htmlToTokens html = pushed ++ rest
    /\ Forall complete_token pushed
    /\ (rest = [] \/ exists t, rest = [t] /\ (complete_token t \/ tag_open t)).
Proof. apply htmlToTokens_shapes. Qed.

(** X1. [htmlToTokens] never yields an empty token, and the empty string has
    no tokens. *)
Theorem htmlToTokens_no_empty_token (html : jsstring) :
  Forall (fun t => t <> []) (htmlToTokens html)
  /\ htmlToTokens [] = [].
Proof.
  split; [|reflexivity].
  destruct (htmlToTokens_shapes html) as (pushed & rest & -> & Hpushed & Hrest).
  assert (Hne : forall t, complete_token t \/ tag_open t -> t <> []).
  { intros t [[(body & -> & _)|[[? _]|[? _]]]|(body & -> & _)]; done. }
  apply Forall_app. split.
  - eapply Forall_impl; [exact Hpushed|]. intros t Ht. apply Hne. by left.
  - destruct Hrest as [->|(t & -> & Ht)]; [constructor|].
    constructor; [by apply Hne | constructor].
Qed.

(** * Slices *)

Section Slices.

Context {A : Type}.

(** [slice] between two non-negative indexes. *)
Lemma slice_nonneg (l : list A) (s e : Z) :
  0 <= s -> 0 <= e ->
  slice l s e = take (Z.to_nat e - Z.to_nat s) (drop (Z.to_nat s) l).
Proof.
  intros Hs He. unfold slice, relativeIndex. decide_Zb.
  destruct (Z.le_gt_cases (Z.of_nat (length l)) s) as [Hlen|Hlen].
  - rewrite (Z.min_r s) by lia. rewrite !drop_ge by lia. by rewrite !take_nil.
  - rewrite (Z.min_l s) by lia.
    destruct (Z.le_gt_cases e (Z.of_nat (length l))) as [Hlen'|Hlen'].
    + rewrite (Z.min_l e) by lia. f_equal. lia.
    + rewrite (Z.min_r e) by lia. rewrite !take_ge; [done | |]; rewrite length_drop; lia.
Qed.

Lemma slice_app (l : list A) (a b c : Z) :
  0 <= a <= b -> b <= c -> slice l a b ++ slice l b c = slice l a c.
Proof.
  intros Hab Hbc. rewrite !slice_nonneg by lia.
  replace (drop (Z.to_nat b) l)
    with (drop (Z.to_nat b - Z.to_nat a) (drop (Z.to_nat a) l))
    by (rewrite drop_drop; f_equal; lia).
  rewrite take_take_drop. f_equal. lia.
Qed.

Lemma slice_whole (l : list A) : slice l 0 (Z.of_nat (length l)) = l.
Proof. rewrite slice_nonneg by lia. cbn. rewrite drop_0. apply take_ge. lia. Qed.

Lemma slice_empty (l : list A) (a : Z) : 0 <= a -> slice l a a = [].
Proof. intros Ha. rewrite slice_nonneg by lia. by rewrite Nat.sub_diag. Qed.

(** The piece between two prefixes of a concatenation. *)
Lemma slice_middle (front mid back : list A) :
  slice (front ++ mid ++ back) (Z.of_nat (length front))
    (Z.of_nat (length front) + Z.of_nat (length mid)) = mid.
Proof.
  rewrite slice_nonneg by lia. rewrite Nat2Z.id, drop_app_length.
  replace (Z.to_nat (Z.of_nat (length front) + Z.of_nat (length mid)) - length front)%nat
    with (length mid) by lia.
  apply take_app_length.
Qed.

Lemma slice_lookup (l : list A) (s e : Z) (k : nat) :
  0 <= s -> 0 <= e ->
  slice l s e !! k
  = if decide (Z.of_nat k < e - s) then l !! (Z.to_nat s + k)%nat else None.
Proof.
  intros Hs He. rewrite slice_nonneg by lia. case_decide as Hk.
  - rewrite lookup_take_lt by lia. apply lookup_drop.
  - apply lookup_take_ge. lia.
Qed.

End Slices.

(** A run of equal tokens is the same slice of both sequences. *)
Lemma common_run_slices (beforeTokens afterTokens : list jsstring) (s1 s2 l : Z) :
  0 <= s1 -> 0 <= s2 -> 0 <= l ->
  common_run beforeTokens afterTokens s1 s2 l ->
  slice beforeTokens s1 (s1 + l) = slice afterTokens s2 (s2 + l).
Proof.
  intros H1 H2 Hl Hrun.
  apply list_eq. intros k. rewrite !slice_lookup by lia.
  replace (s1 + l - s1) with l by lia. replace (s2 + l - s2) with l by lia.
  case_decide as Hk; [|done].
  destruct (Hrun (Z.of_nat k) ltac:(lia)) as (t & [_ Hb]%nthZ_Some & [_ Ha]%nthZ_Some).
  replace (Z.to_nat (s1 + Z.of_nat k)) with (Z.to_nat s1 + k)%nat in Hb by lia.
  replace (Z.to_nat (s2 + Z.of_nat k)) with (Z.to_nat s2 + k)%nat in Ha by lia.
  congruence.
Qed.

Lemma common_run_app (beforeTokens afterTokens : list jsstring) (s1 s2 l1 l2 : Z) :
  0 <= l1 ->
  common_run beforeTokens afterTokens s1 s2 l1 ->
  common_run beforeTokens afterTokens (s1 + l1) (s2 + l1) l2 ->
  common_run beforeTokens afterTokens s1 s2 (l1 + l2).
Proof.
  intros Hl1 Hrun1 Hrun2 k Hk. destruct (Z.lt_ge_cases k l1) as [Hlt|Hge].
  - apply Hrun1. lia.
  - specialize (Hrun2 (k - l1) ltac:(lia)).
    by replace (s1 + l1 + (k - l1)) with (s1 + k) in Hrun2 by lia;
      replace (s2 + l1 + (k - l1)) with (s2 + k) in Hrun2 by lia.
Qed.

(** * The block matcher, for use below *)

(** A block found by [findMatch] is a run of equal tokens, and no run of
    equal tokens inside the ranges is longer. *)
Lemma findMatch_found (beforeTokens afterTokens : list jsstring)
    (sb eb sa ea : Z) (m : Match.t) :
  0 <= sb -> eb <= Z.of_nat (length beforeTokens) -> 0 <= sa ->
  findMatch beforeTokens afterTokens (createIndex beforeTokens afterTokens)
    sb eb sa ea = Some m ->
  common_run beforeTokens afterTokens
    (Match.startInBefore m) (Match.startInAfter m) (Match.length m)
  /\ forall s1 s2 l,
       1 <= l -> sb <= s1 -> s1 + l <= eb -> sa <= s2 -> s2 + l <= ea ->
       common_run beforeTokens afterTokens s1 s2 l ->
       l <= Match.length m.
Proof.
  intros Hsb Heb Hsa. unfold findMatch.
  pose proof (findMatch_loop_first beforeTokens afterTokens sb eb sa ea Hsb Heb Hsa)
    as [Hmax Hbest].
  set (b := snd (findMatch_loop _ _ _ _ _ _)) in *.
  assert (Hscan : forall i j, sb <= i < eb -> scanned (Z.max sb eb) sa i j)
    by (unfold scanned; lia).
  destruct (Z.eqb_spec (bestMatchLength b) 0) as [Hzero|Hnz]; cbn [negb]; [done|].
  intros [= <-].
  destruct Hbest as [?|(i0 & j0 & Hi0 & Hj0 & Hs0 & Hrun0 & Hlen & HinB & HinA & Htie)];
    [done|].
  pose proof (runlen_run beforeTokens afterTokens sb sa i0 j0) as (_ & Hcommon & _).
  rewrite Hrun0 in Hcommon.
  cbn [Match.new Match.length Match.startInBefore Match.startInAfter].
  rewrite HinB, HinA. split; [done|].
  intros s1 s2 l Hl Hs1 He1 Hs2 He2 Hrun.
  pose proof (runlen_ge beforeTokens afterTokens sb sa (Z.to_nat l) s1 s2) as Hge.
  rewrite Z2Nat.id in Hge by lia. specialize (Hge Hs1 Hs2 Hrun).
  pose proof (Hmax (s1 + l - 1) (s2 + l - 1) ltac:(lia) ltac:(lia)
                (Hscan (s1 + l - 1) (s2 + l - 1) ltac:(lia))) as Hle.
  lia.
Qed.

(** [findMatch] finds a block as soon as the ranges share a token. *)
Lemma findMatch_none (beforeTokens afterTokens : list jsstring) (sb eb sa ea : Z) :
  0 <= sb -> eb <= Z.of_nat (length beforeTokens) -> 0 <= sa ->
  (forall i j, sb <= i < eb -> sa <= j < ea ->
               ~ same_token beforeTokens afterTokens i j) ->
  findMatch beforeTokens afterTokens (createIndex beforeTokens afterTokens)
    sb eb sa ea = None.
Proof.
  intros Hsb Heb Hsa Hnone.
  destruct (findMatch _ _ _ _ _ _ _) as [m|] eqn:Hm; [|done]. exfalso.
  pose proof (findMatch_fits _ _ _ _ _ _ _ _ Hm) as (Hlen & ? & ? & ? & ? & _).
  apply findMatch_found in Hm as [Hrun _]; try done.
  apply (Hnone (Match.startInBefore m) (Match.startInAfter m)); [lia | lia |].
  specialize (Hrun 0 ltac:(lia)). by rewrite !Z.add_0_r in Hrun.
Qed.

(** * The matching blocks *)

(** The tokens of a block are pairwise equal. *)
Definition block_common (beforeTokens afterTokens : list jsstring) (m : Match.t) : Prop :=
  common_run beforeTokens afterTokens
    (Match.startInBefore m) (Match.startInAfter m) (Match.length m).

(** [m2] starts right after [m1] in both sequences. *)
Definition adjacent (m1 m2 : Match.t) : Prop :=
  Match.startInBefore m2 = Match.startInBefore m1 + Match.length m1
  /\ Match.startInAfter m2 = Match.startInAfter m1 + Match.length m1.

(** No block of the list continues the block before it. *)
Fixpoint separated (ms : list Match.t) : Prop :=
  match ms with
  | m1 :: ((m2 :: _) as rest) => ~ adjacent m1 m2 /\ separated rest
  | _ => True
  end.

Section Blocks.

Context (beforeTokens afterTokens : list jsstring).

Lemma blocks_in_Forall (ms : list Match.t) :
  forall pb pa hb ha,
    blocks_in pb pa ms hb ha ->
    Forall (fun m => pb <= Match.startInBefore m /\ pa <= Match.startInAfter m
                     /\ 1 <= Match.length m
                     /\ Match.startInBefore m + Match.length m <= hb
                     /\ Match.startInAfter m + Match.length m <= ha) ms.
Proof.
  induction ms as [|m ms IH]; intros pb pa hb ha H; cbn in H; [constructor|].
  destruct H as (? & ? & ? & ? & ? & H).
  pose proof (IH _ _ _ _ H) as Hrest.
  assert (Hlast : Match.startInBefore m + Match.length m <= hb
                  /\ Match.startInAfter m + Match.length m <= ha).
  { destruct ms as [|m' ms]; cbn in H; [lia|].
    apply Forall_cons in Hrest as [? _]. lia. }
  constructor; [lia|].
  eapply Forall_impl; [exact Hrest|]. cbn. intros; lia.
Qed.

Lemma separated_app (ms1 ms2 : list Match.t) (m : Match.t) :
  separated ms1 -> separated ms2 ->
  (forall l, last ms1 = Some l -> ~ adjacent l m) ->
  (forall h, head ms2 = Some h -> ~ adjacent m h) ->
  separated (ms1 ++ m :: ms2).
Proof.
  intros H1 H2 Hlast Hhead. induction ms1 as [|a ms1 IH].
  - cbn [app]. destruct ms2 as [|h ms2]; [done|]. split; [by apply Hhead | done].
  - destruct ms1 as [|b ms1].
    + cbn [app]. split; [by apply Hlast|]. by apply IH.
    + change ((a :: b :: ms1) ++ m :: ms2) with (a :: (b :: ms1) ++ m :: ms2).
      cbn [separated app] in *. destruct H1 as [Hab H1]. split; [done|].
      apply IH; [done|]. intros l Hl. by apply Hlast.
Qed.

(** The recursion returns a chain of blocks that are runs of equal tokens
    and do not continue one another. *)
Lemma recursivelyFindMatchingBlocks_blocks (fuel : nat) :
  forall (sb eb sa ea : Z) (matchingBlocks : list Match.t),
    0 <= sb <= eb -> eb <= Z.of_nat (length beforeTokens) -> 0 <= sa <= ea ->
    (Z.to_nat (eb - sb) < fuel)%nat ->
    exists ms,
      recursivelyFindMatchingBlocks fuel beforeTokens afterTokens
        (createIndex beforeTokens afterTokens) sb eb sa ea matchingBlocks
      = Some (matchingBlocks ++ ms)
      /\ blocks_in sb sa ms eb ea
      /\ Forall (block_common beforeTokens afterTokens) ms
      /\ separated ms.
Proof.
  induction fuel as [|fuel IH]; intros sb eb sa ea acc Hb Heb Ha Hfuel; [lia|].
  cbn [recursivelyFindMatchingBlocks].
  destruct (findMatch beforeTokens afterTokens _ sb eb sa ea) as [m|] eqn:Hm.
  2:{ exists []. rewrite app_nil_r. repeat split; try done; lia. }
  pose proof (findMatch_fits _ _ _ _ _ _ _ _ Hm)
    as (Hlen & Hsb & Hmeb & Hsa & Hmea & HendB & HendA).
  apply findMatch_found in Hm as [Hcommon Hlongest]; [|lia..].
  assert (Hleft : exists ms1,
             (if (sb <? Match.startInBefore m) && (sa <? Match.startInAfter m)
              then recursivelyFindMatchingBlocks fuel beforeTokens afterTokens
                     (createIndex beforeTokens afterTokens)
                     sb (Match.startInBefore m) sa (Match.startInAfter m) acc
              else Some acc) = Some (acc ++ ms1)
             /\ blocks_in sb sa ms1 (Match.startInBefore m) (Match.startInAfter m)
             /\ Forall (block_common beforeTokens afterTokens) ms1
             /\ separated ms1).
  { destruct (_ && _).
    - apply IH; lia.
    - exists []. rewrite app_nil_r. repeat split; try done; lia. }
  destruct Hleft as (ms1 & -> & Hms1 & Hcom1 & Hsep1). cbn [mbind option_bind].
  assert (Hright : exists ms2,
             (if (Match.endInBefore m <? eb) && (Match.endInAfter m <? ea)
              then recursivelyFindMatchingBlocks fuel beforeTokens afterTokens
                     (createIndex beforeTokens afterTokens)
                     (Match.endInBefore m + 1) eb (Match.endInAfter m + 1) ea
                     ((acc ++ ms1) ++ [m])
              else Some ((acc ++ ms1) ++ [m])) = Some (((acc ++ ms1) ++ [m]) ++ ms2)
             /\ blocks_in (Match.startInBefore m + Match.length m)
                  (Match.startInAfter m + Match.length m) ms2 eb ea
             /\ Forall (block_common beforeTokens afterTokens) ms2
             /\ separated ms2).
  { destruct (_ && _).
    - replace (Match.startInBefore m + Match.length m)
        with (Match.endInBefore m + 1) by lia.
      replace (Match.startInAfter m + Match.length m)
        with (Match.endInAfter m + 1) by lia.
      apply IH; lia.
    - exists []. rewrite app_nil_r. cbn. repeat split; try done; lia. }
  destruct Hright as (ms2 & -> & Hms2 & Hcom2 & Hsep2).
  exists (ms1 ++ m :: ms2). split; [f_equal; by rewrite <- !app_assoc|].
  split; [|split].
  - apply (blocks_in_app _ _ _ _ _ _ _ _ Hms1). cbn. repeat split; try lia. done.
  - apply Forall_app. split; [done|]. by constructor.
  - apply separated_app; try done.
    + intros l Hl%last_Some_elem_of [Hb' Ha'].
      pose proof (blocks_in_Forall _ _ _ _ _ Hms1) as Hin1.
      rewrite Forall_forall in Hin1, Hcom1.
      specialize (Hin1 l Hl). specialize (Hcom1 l Hl). unfold block_common in Hcom1.
      assert (Hrun : common_run beforeTokens afterTokens
                       (Match.startInBefore l) (Match.startInAfter l)
                       (Match.length l + Match.length m)).
      { apply common_run_app; [lia | done |]. by rewrite <- Hb', <- Ha'. }
      specialize (Hlongest (Match.startInBefore l) (Match.startInAfter l)
                    (Match.length l + Match.length m)
                    ltac:(lia) ltac:(lia) ltac:(lia) ltac:(lia) ltac:(lia) Hrun).
      lia.
    + intros h Hh [Hb' Ha']. destruct ms2 as [|h' ms2]; [done|].
      injection Hh as ->. apply Forall_cons in Hcom2 as [Hcomh _].
      pose proof (blocks_in_Forall _ _ _ _ _ Hms2) as [Hinh _]%Forall_cons.
      unfold block_common in Hcomh.
      assert (Hrun : common_run beforeTokens afterTokens
                       (Match.startInBefore m) (Match.startInAfter m)
                       (Match.length m + Match.length h)).
      { apply common_run_app; [lia | done |]. by rewrite <- Hb', <- Ha'. }
      specialize (Hlongest (Match.startInBefore m) (Match.startInAfter m)
                    (Match.length m + Match.length h)
                    ltac:(lia) ltac:(lia) ltac:(lia) ltac:(lia) ltac:(lia) Hrun).
      lia.
Qed.

Lemma findMatchingBlocks_blocks :
  exists ms,
    findMatchingBlocks beforeTokens afterTokens = Some ms
    /\ blocks_in 0 0 ms (Z.of_nat (length beforeTokens)) (Z.of_nat (length afterTokens))
    /\ Forall (block_common beforeTokens afterTokens) ms
    /\ separated ms.
Proof.
  unfold findMatchingBlocks.
  destruct (recursivelyFindMatchingBlocks_blocks (S (length beforeTokens))
              0 (Z.of_nat (length beforeTokens)) 0 (Z.of_nat (length afterTokens)) [])
    as (ms & Hms & H); [lia..|].
  by exists ms.
Qed.

End Blocks.

(** X3. [findMatchingBlocks] returns, for any two token sequences, an
    ascending chain of non-empty blocks that lie inside the sequences and do
    not overlap in either of them; the tokens of every block are pairwise
    equal, and no block continues the one before it in both sequences. *)
Theorem findMatchingBlocks_common_blocks (beforeTokens afterTokens : list jsstring) :
  exists ms,
    findMatchingBlocks beforeTokens afterTokens = Some ms
    /\ blocks_in 0 0 ms (Z.of_nat (length beforeTokens)) (Z.of_nat (length afterTokens))
    /\ Forall (fun m =>
                 slice beforeTokens (Match.startInBefore m) (Match.endInBefore m + 1)
                 = slice afterTokens (Match.startInAfter m) (Match.endInAfter m + 1)) ms
    /\ separated ms.
Proof.
  destruct (findMatchingBlocks_blocks beforeTokens afterTokens)
    as (ms & Hms & Hin & Hcommon & Hsep).
  exists ms. repeat split; try done.
  pose proof (blocks_in_Forall _ _ _ _ _ Hin) as Hbounds.
  assert (Hends : Forall (fun m => Match.endInBefore m
                                   = Match.startInBefore m + Match.length m - 1
                                   /\ Match.endInAfter m
                                      = Match.startInAfter m + Match.length m - 1) ms).
  { clear -Hin. revert Hin. generalize 0 at 1 2. intros p.
    generalize p at 2. revert p.
    induction ms as [|m ms IH]; intros pb pa H; cbn in H; [constructor|].
    destruct H as (_ & _ & _ & ? & ? & H). constructor; [done | by eapply IH]. }
  rewrite Forall_forall in *. intros m Hm.
  destruct (Hends m Hm) as [-> ->]. specialize (Hbounds m Hm).
  replace (Match.startInBefore m + Match.length m - 1 + 1)
    with (Match.startInBefore m + Match.length m) by lia.
  replace (Match.startInAfter m + Match.length m - 1 + 1)
    with (Match.startInAfter m + Match.length m) by lia.
  apply common_run_slices; [lia..|]. by apply Hcommon.
Qed.

(** * Equal operations *)

(** An equal operation spans the same tokens in both sequences. *)
Definition equal_same (beforeTokens afterTokens : list jsstring) (op : Op.t) : Prop :=
  Op.action op = ActEqual ->
  sliceThrough beforeTokens (Op.startInBefore op) (Op.endInBefore op)
  = sliceThrough afterTokens (Op.startInAfter op) (Op.endInAfter op).

(** No two equal operations in a row. *)
Fixpoint no_equal_pair (ops : list Op.t) : Prop :=
  match ops with
  | op1 :: ((op2 :: _) as rest) =>
      ~ (Op.action op1 = ActEqual /\ Op.action op2 = ActEqual) /\ no_equal_pair rest
  | _ => True
  end.

Section EqualOperations.

Context (beforeTokens afterTokens : list jsstring).

Lemma no_equal_pair_snoc (ops : list Op.t) (op : Op.t) :
  no_equal_pair ops ->
  (forall x, last ops = Some x -> ~ (Op.action x = ActEqual /\ Op.action op = ActEqual)) ->
  no_equal_pair (ops ++ [op]).
Proof.
  intros Hops Hlast. induction ops as [|a ops IH]; [done|].
  destruct ops as [|b ops].
  - cbn. split; [by apply Hlast | done].
  - change ((a :: b :: ops) ++ [op]) with (a :: (b :: ops) ++ [op]).
    cbn [no_equal_pair app] in *. destruct Hops as [Hab Hops]. split; [done|].
    apply IH; [done|]. intros x Hx. by apply Hlast.
Qed.

Lemma actionMap_gap (b1 b2 : bool) :
  actionMap b1 b2 <> ActNone -> actionMap b1 b2 <> ActEqual.
Proof. by destruct b1, b2. Qed.

(** One pass of the loop over the matches keeps equal operations on equal
    tokens. *)
Lemma calculateOperations_step_same (st : cursor) (m : Match.t) :
  Forall (equal_same beforeTokens afterTokens) (operations st) ->
  Match.length m = 0
  \/ (0 <= Match.startInBefore m /\ 0 <= Match.startInAfter m /\ 0 <= Match.length m
      /\ Match.endInBefore m = Match.startInBefore m + Match.length m - 1
      /\ Match.endInAfter m = Match.startInAfter m + Match.length m - 1
      /\ block_common beforeTokens afterTokens m) ->
  Forall (equal_same beforeTokens afterTokens)
    (operations (calculateOperations_step st m)).
Proof.
  intros Hops Hm. unfold calculateOperations_step. cbn [operations].
  set (action := actionMap _ _).
  set (gap := if bool_decide (action ≠ ActNone) then _ else _).
  assert (Hgap : Forall (equal_same beforeTokens afterTokens) gap).
  { subst gap. case_bool_decide as Hact; [|done].
    apply Forall_app. split; [done|]. constructor; [|constructor].
    intros Heq. cbn in Heq. by apply actionMap_gap in Hact. }
  clearbody gap.
  destruct (Z.eqb_spec (Match.length m) 0) as [E|N]; cbn [negb]; [done|].
  destruct Hm as [?|(? & ? & ? & HendB & HendA & Hcommon)]; [done|].
  apply Forall_app. split; [done|]. constructor; [|constructor].
  intros _. cbn. rewrite HendB, HendA.
  replace (Match.startInBefore m + Match.length m - 1 + 1)
    with (Match.startInBefore m + Match.length m) by lia.
  replace (Match.startInAfter m + Match.length m - 1 + 1)
    with (Match.startInAfter m + Match.length m) by lia.
  by apply common_run_slices.
Qed.

(** One pass keeps equal operations apart, as long as the match does not
    continue the one before it. *)
Lemma calculateOperations_step_apart (st : cursor) (prev : option Match.t) (m : Match.t) :
  no_equal_pair (operations st) ->
  match prev with
  | None => operations st = []
  | Some p =>
      positionInBefore st = Match.startInBefore p + Match.length p
      /\ positionInAfter st = Match.startInAfter p + Match.length p
      /\ ~ adjacent p m
  end ->
  no_equal_pair (operations (calculateOperations_step st m)).
Proof.
  intros Hops Hprev. unfold calculateOperations_step. cbn [operations].
  destruct (bool_decide_reflect (positionInBefore st = Match.startInBefore m)) as [Eb|Nb];
    destruct (bool_decide_reflect (positionInAfter st = Match.startInAfter m)) as [Ea|Na];
    cbn [actionMap].
  - rewrite bool_decide_eq_false_2 by (intros H; by apply H).
    destruct (negb _); [|done].
    destruct prev as [p|].
    + destruct Hprev as (Hb & Ha & Hadj). destruct Hadj. split; congruence.
    + rewrite Hprev. done.
  - rewrite bool_decide_eq_true_2 by done.
    assert (Hgap : no_equal_pair (operations st ++ [ {|
        Op.action := ActInsert; Op.startInBefore := positionInBefore st;
        Op.endInBefore := if bool_decide (ActInsert ≠ ActInsert)
                          then Some (Match.startInBefore m - 1) else None;
        Op.startInAfter := positionInAfter st;
        Op.endInAfter := if bool_decide (ActInsert ≠ ActDelete)
                         then Some (Match.startInAfter m - 1) else None |} ])).
    { apply no_equal_pair_snoc; [done|]. intros x _ [_ H]. done. }
    destruct (negb _); [|done].
    apply no_equal_pair_snoc; [done|]. intros x Hx [H _].
    rewrite last_snoc in Hx. injection Hx as <-. done.
  - rewrite bool_decide_eq_true_2 by done.
    assert (Hgap : no_equal_pair (operations st ++ [ {|
        Op.action := ActDelete; Op.startInBefore := positionInBefore st;
        Op.endInBefore := if bool_decide (ActDelete ≠ ActInsert)
                          then Some (Match.startInBefore m - 1) else None;
        Op.startInAfter := positionInAfter st;
        Op.endInAfter := if bool_decide (ActDelete ≠ ActDelete)
                         then Some (Match.startInAfter m - 1) else None |} ])).
    { apply no_equal_pair_snoc; [done|]. intros x _ [_ H]. done. }
    destruct (negb _); [|done].
    apply no_equal_pair_snoc; [done|]. intros x Hx [H _].
    rewrite last_snoc in Hx. injection Hx as <-. done.
  - rewrite bool_decide_eq_true_2 by done.
    assert (Hgap : no_equal_pair (operations st ++ [ {|
        Op.action := ActReplace; Op.startInBefore := positionInBefore st;
        Op.endInBefore := if bool_decide (ActReplace ≠ ActInsert)
                          then Some (Match.startInBefore m - 1) else None;
        Op.startInAfter := positionInAfter st;
        Op.endInAfter := if bool_decide (ActReplace ≠ ActDelete)
                         then Some (Match.startInAfter m - 1) else None |} ])).
    { apply no_equal_pair_snoc; [done|]. intros x _ [_ H]. done. }
    destruct (negb _); [|done].
    apply no_equal_pair_snoc; [done|]. intros x Hx [H _].
    rewrite last_snoc in Hx. injection Hx as <-. done.
Qed.

Lemma calculateOperations_step_position (st : cursor) (m : Match.t) :
  Match.endInBefore m = Match.startInBefore m + Match.length m - 1 ->
  Match.endInAfter m = Match.startInAfter m + Match.length m - 1 ->
  positionInBefore (calculateOperations_step st m)
  = Match.startInBefore m + Match.length m
  /\ positionInAfter (calculateOperations_step st m)
     = Match.startInAfter m + Match.length m.
Proof. intros HB HA. unfold calculateOperations_step. cbn. lia. Qed.

Lemma calculateOperations_step_nonempty (st : cursor) (m : Match.t) :
  Match.length m <> 0 -> operations (calculateOperations_step st m) <> [].
Proof.
  intros Hlen. unfold calculateOperations_step. cbn [operations].
  destruct (Z.eqb_spec (Match.length m) 0); [done|]. cbn [negb].
  intros [_ ?]%app_eq_nil. done.
Qed.

(** The loop over a chain of blocks, and then over the terminal match. *)
Lemma calculateOperations_loop_equal (ms : list Match.t) (hb ha : Z) :
  forall (st : cursor) (prev : option Match.t) (pb pa : Z),
    0 <= pb -> 0 <= pa ->
    blocks_in pb pa ms hb ha ->
    Forall (block_common beforeTokens afterTokens) ms ->
    separated ms ->
    Forall (equal_same beforeTokens afterTokens) (operations st) ->
    no_equal_pair (operations st) ->
    match prev with
    | None => operations st = []
    | Some p =>
        positionInBefore st = Match.startInBefore p + Match.length p
        /\ positionInAfter st = Match.startInAfter p + Match.length p
        /\ forall h, head ms = Some h -> ~ adjacent p h
    end ->
    forall final : Match.t,
      Match.length final = 0 ->
      let st' := fold_left calculateOperations_step (ms ++ [final]) st in
      Forall (equal_same beforeTokens afterTokens) (operations st')
      /\ no_equal_pair (operations st').
Proof.
  induction ms as [|m ms IH];
    intros st prev pb pa Hpb Hpa Hin Hcommon Hsep Hsame Hapart Hprev final Hfinal;
    cbn [app fold_left]; cbv zeta.
  - split.
    + apply calculateOperations_step_same; [done | by left].
    + unfold calculateOperations_step. cbn [operations].
      rewrite Hfinal. cbn [Z.eqb negb].
      destruct (bool_decide _); [|done].
      apply no_equal_pair_snoc; [done|]. intros x _ [_ H]. cbn in H.
      revert H. by repeat destruct (bool_decide _).
  - cbn [blocks_in] in Hin. destruct Hin as (? & ? & ? & HendB & HendA & Hin).
    apply Forall_cons in Hcommon as [Hcm Hcommon].
    destruct (calculateOperations_step_position st m HendB HendA) as [HposB HposA].
    apply (IH (calculateOperations_step st m) (Some m)
              (Match.startInBefore m + Match.length m)
              (Match.startInAfter m + Match.length m)); try done; try lia.
    + destruct ms as [|m' ms]; [done|]. by destruct Hsep.
    + apply calculateOperations_step_same; [done|]. right. repeat split; try done; lia.
    + apply (calculateOperations_step_apart st prev m); [done|].
      destruct prev as [p|]; [|done].
      destruct Hprev as (? & ? & Hadj). repeat split; try done. by apply Hadj.
    + repeat split; try done. intros h Hh. destruct ms as [|m' ms]; [done|].
      injection Hh as <-. by destruct Hsep.
Qed.

(** Folding into the replace before it changes no equal operation. *)
Lemma postProcessOperations_loop_equal (operations : list Op.t) :
  forall processed,
    Forall (equal_same beforeTokens afterTokens) processed ->
    Forall (equal_same beforeTokens afterTokens) operations ->
    no_equal_pair processed ->
    no_equal_pair operations ->
    (forall x y, last processed = Some x -> head operations = Some y ->
                 ~ (Op.action x = ActEqual /\ Op.action y = ActEqual)) ->
    let result := fold_left (postProcessOperations_step beforeTokens) operations processed in
    Forall (equal_same beforeTokens afterTokens) result /\ no_equal_pair result.
Proof.
  induction operations as [|op ops IH];
    intros processed Hsame Hsame' Hapart Hapart' Hjoin; cbn [fold_left]; [done|].
  apply Forall_cons in Hsame' as [Hop Hsame'].
  assert (Hops : no_equal_pair ops) by (destruct ops; [done | by destruct Hapart']).
  unfold postProcessOperations_step.
  destruct (_ || _) eqn:Hfold.
  - assert (Hlast : lastOp_action processed = ActReplace).
    { apply orb_true_iff in Hfold as [H|H]; apply andb_true_iff in H as [_ H];
        by apply bool_decide_eq_true in H. }
    unfold lastOp_action, extendLast in *.
    destruct (last processed) as [lastOp|] eqn:Hl; [|done].
    apply last_Some in Hl as [processed' ->]. rewrite removelast_last.
    apply Forall_app in Hsame as [Hsame _].
    apply IH; try done.
    + apply Forall_app. split; [done|]. constructor; [|constructor].
      intros H. cbn in H. congruence.
    + apply no_equal_pair_snoc.
      * clear -Hapart. induction processed' as [|a l IHl]; [done|].
        destruct l as [|b l]; [done|].
        change ((a :: b :: l) ++ [lastOp]) with (a :: (b :: l) ++ [lastOp]) in Hapart.
        cbn [no_equal_pair app] in *. destruct Hapart as [? Hapart]. split; [done|].
        by apply IHl.
      * intros x _ [_ H]. cbn in H. congruence.
    + intros x y Hx _ [H _]. rewrite last_snoc in Hx. injection Hx as <-.
      cbn in H. congruence.
  - apply IH; try done.
    + apply Forall_app. split; [done|]. by repeat constructor.
    + apply no_equal_pair_snoc; [done|]. intros x Hx. by apply (Hjoin x op).
    + intros x y Hx Hy. rewrite last_snoc in Hx. injection Hx as <-.
      destruct ops as [|y' ops]; [done|]. injection Hy as <-. by destruct Hapart'.
Qed.

Lemma calculateOperations_equal :
  exists ops,
    calculateOperations (Tokens beforeTokens) (Tokens afterTokens) = Normal ops
    /\ Forall (equal_same beforeTokens afterTokens) ops
    /\ no_equal_pair ops.
Proof.
  unfold calculateOperations, derivedOperations.
  destruct (findMatchingBlocks_blocks beforeTokens afterTokens)
    as (ms & -> & Hin & Hcommon & Hsep).
  cbn [mbind option_bind]. eexists. split; [reflexivity|].
  destruct (calculateOperations_loop_equal ms
              (Z.of_nat (length beforeTokens)) (Z.of_nat (length afterTokens))
              {| positionInBefore := 0; positionInAfter := 0; operations := [] |}
              None 0 0 ltac:(lia) ltac:(lia) Hin Hcommon Hsep
              ltac:(constructor) I eq_refl
              (Match.new (Z.of_nat (length beforeTokens))
                         (Z.of_nat (length afterTokens)) 0) eq_refl)
    as [Hsame Hapart].
  cbv zeta in Hsame, Hapart.
  apply (postProcessOperations_loop_equal _ []); try done; try constructor.
Qed.

End EqualOperations.

(** X4. In the operations [calculateOperations] returns, every equal
    operation spans the same tokens in the before and in the after
    sequence, and no two equal operations stand in a row. *)
Theorem calculateOperations_equal_runs (beforeTokens afterTokens : list jsstring) :
  exists ops,
    calculateOperations (Tokens beforeTokens) (Tokens afterTokens) = Normal ops
    /\ Forall (fun op =>
                 Op.action op = ActEqual ->
                 sliceThrough beforeTokens (Op.startInBefore op) (Op.endInBefore op)
                 = sliceThrough afterTokens (Op.startInAfter op) (Op.endInAfter op)) ops
    /\ no_equal_pair ops.
Proof. apply calculateOperations_equal. Qed.

(** * Two border cases of [calculateOperations] *)

Section BorderCases.

Lemma findMatch_none_inv (beforeTokens afterTokens : list jsstring) (sb eb sa ea : Z) :
  0 <= sb -> eb <= Z.of_nat (length beforeTokens) -> 0 <= sa ->
  findMatch beforeTokens afterTokens (createIndex beforeTokens afterTokens)
    sb eb sa ea = None ->
  forall i j, sb <= i < eb -> sa <= j < ea -> ~ same_token beforeTokens afterTokens i j.
Proof.
  intros Hsb Heb Hsa. unfold findMatch.
  pose proof (findMatch_loop_first beforeTokens afterTokens sb eb sa ea Hsb Heb Hsa)
    as [Hmax _].
  set (b := snd (findMatch_loop _ _ _ _ _ _)) in *.
  destruct (Z.eqb_spec (bestMatchLength b) 0) as [Hzero|Hnz]; cbn [negb]; [|done].
  intros _ i j Hi Hj Hsame.
  specialize (Hmax i j ltac:(lia) Hj ltac:(unfold scanned; lia)).
  rewrite (runlen_same beforeTokens afterTokens sb sa i j) in Hmax by (done || lia).
  pose proof (runlen_run beforeTokens afterTokens sb sa (i - 1) (j - 1)) as [? _]. lia.
Qed.

(** On an exhausted before range the recursion adds nothing. *)
Lemma recursivelyFindMatchingBlocks_exhausted (fuel : nat)
    (beforeTokens afterTokens : list jsstring) (index : gmap (list Z) (list Z))
    (sb eb sa ea : Z) (matchingBlocks : list Match.t) :
  eb <= sb ->
  recursivelyFindMatchingBlocks (S fuel) beforeTokens afterTokens index
    sb eb sa ea matchingBlocks = Some matchingBlocks.
Proof.
  intros Hrange. cbn [recursivelyFindMatchingBlocks].
  destruct (findMatch _ _ _ _ _ _ _) as [m|] eqn:Hm; [|done].
  apply findMatch_fits in Hm. lia.
Qed.

(** A lone operation has nothing to be folded into. *)
Lemma postProcessOperations_single (op : Op.t) (beforeTokens : list jsstring) :
  postProcessOperations [op] beforeTokens = [op].
Proof.
  unfold postProcessOperations. cbn [fold_left].
  unfold postProcessOperations_step. cbn [lastOp_action last].
  rewrite bool_decide_eq_false_2 by done. by rewrite !andb_false_r.
Qed.

Lemma same_token_diagonal (ts : list jsstring) (i : Z) :
  0 <= i < Z.of_nat (length ts) -> same_token ts ts i i.
Proof. intros Hi. destruct (nthZ_in_range ts i Hi) as [t Ht]. by exists t. Qed.

End BorderCases.

(** X5. Two identical, non-empty token sequences give one equal operation
    that spans them whole. *)
Theorem calculateOperations_identical (ts : list jsstring) :
  ts <> [] ->
  calculateOperations (Tokens ts) (Tokens ts)
  = Normal [ {| Op.action := ActEqual;
                Op.startInBefore := 0;
                Op.endInBefore := Some (Z.of_nat (length ts) - 1);
                Op.startInAfter := 0;
                Op.endInAfter := Some (Z.of_nat (length ts) - 1) |} ].
Proof.
  intros Hne. set (n := Z.of_nat (length ts)).
  assert (Hn : 1 <= n) by (subst n; destruct ts; [done | cbn [length]; lia]).
  assert (Hfound : findMatch ts ts (createIndex ts ts) 0 n 0 n = Some (Match.new 0 0 n)).
  { destruct (findMatch ts ts (createIndex ts ts) 0 n 0 n) as [m|] eqn:Hm.
    - pose proof (findMatch_fits _ _ _ _ _ _ _ _ Hm) as (? & ? & ? & ? & ? & HB & HA).
      apply findMatch_found in Hm as [_ Hlongest]; [|subst n; lia..].
      assert (Hrun : common_run ts ts 0 0 n).
      { intros k Hk. apply same_token_diagonal. subst n. lia. }
      specialize (Hlongest 0 0 n ltac:(lia) ltac:(lia) ltac:(lia) ltac:(lia) ltac:(lia) Hrun).
      destruct m as [mb ma ml meb mea]. cbn in *. unfold Match.new.
      f_equal. f_equal; lia.
    - exfalso.
      apply (findMatch_none_inv ts ts 0 n 0 n ltac:(lia) ltac:(subst n; lia) ltac:(lia)
               Hm 0 0); [lia | lia |].
      apply same_token_diagonal. subst n. lia. }
  assert (Hblocks : findMatchingBlocks ts ts = Some [Match.new 0 0 n]).
  { unfold findMatchingBlocks. fold n. cbn [recursivelyFindMatchingBlocks].
    rewrite Hfound. cbn [Match.new Match.startInBefore Match.startInAfter
                           Match.endInBefore Match.endInAfter].
    replace (0 <? 0) with false by reflexivity. cbn [andb mbind option_bind app].
    replace (0 + n - 1 <? n) with true by lia. cbn [andb].
    assert (Hk : length ts = S (Nat.pred (length ts))) by (subst n; lia).
    rewrite Hk at 1.
    apply recursivelyFindMatchingBlocks_exhausted. lia. }
  unfold calculateOperations, derivedOperations. rewrite Hblocks.
  cbn [mbind option_bind app fold_left]. fold n.
  unfold calculateOperations_step.
  cbn [positionInBefore positionInAfter operations Match.new Match.startInBefore
         Match.startInAfter Match.length Match.endInBefore Match.endInAfter].
  rewrite !(bool_decide_eq_true_2 (0 = 0)) by done. cbn [actionMap].
  rewrite (bool_decide_eq_false_2 (ActNone ≠ ActNone)) by (intros H; by apply H).
  replace (n =? 0) with false by lia. cbn [negb app].
  rewrite !(bool_decide_eq_true_2 (0 + n - 1 + 1 = n)) by lia. cbn [actionMap].
  rewrite (bool_decide_eq_false_2 (ActNone ≠ ActNone)) by (intros H; by apply H).
  cbn [Z.eqb negb]. rewrite postProcessOperations_single.
  do 3 f_equal; f_equal; lia.
Qed.

Lemma calculateOperations_identical_witness :
  calculateOperations (Tokens [str "a"; str " "; str "b"]) (Tokens [str "a"; str " "; str "b"])
  = Normal [ {| Op.action := ActEqual; Op.startInBefore := 0; Op.endInBefore := Some 2;
                Op.startInAfter := 0; Op.endInAfter := Some 2 |} ].
Proof. apply (calculateOperations_identical [str "a"; str " "; str "b"]). discriminate. Defined.

(** X6. Two token sequences with no token in common give at most one
    operation that spans them whole: a replace, or an insert when the
    before sequence is empty, or a delete when the after sequence is empty,
    or nothing when both are. *)
Theorem calculateOperations_nothing_in_common (bs ts : list jsstring) :
  (forall i j, ~ same_token bs ts i j) ->
  calculateOperations (Tokens bs) (Tokens ts)
  = Normal
      match bs, ts with
      | [], [] => []
      | [], _ :: _ =>
          [ {| Op.action := ActInsert; Op.startInBefore := 0; Op.endInBefore := None;
               Op.startInAfter := 0;
               Op.endInAfter := Some (Z.of_nat (length ts) - 1) |} ]
      | _ :: _, [] =>
          [ {| Op.action := ActDelete; Op.startInBefore := 0;
               Op.endInBefore := Some (Z.of_nat (length bs) - 1);
               Op.startInAfter := 0; Op.endInAfter := None |} ]
      | _ :: _, _ :: _ =>
          [ {| Op.action := ActReplace; Op.startInBefore := 0;
               Op.endInBefore := Some (Z.of_nat (length bs) - 1);
               Op.startInAfter := 0;
               Op.endInAfter := Some (Z.of_nat (length ts) - 1) |} ]
      end.
Proof.
  intros Hnone.
  assert (Hblocks : findMatchingBlocks bs ts = Some []).
  { unfold findMatchingBlocks. cbn [recursivelyFindMatchingBlocks].
    rewrite findMatch_none; [done | lia | lia | lia |]. intros i j _ _. apply Hnone. }
  unfold calculateOperations, derivedOperations. rewrite Hblocks.
  cbn [mbind option_bind app fold_left].
  unfold calculateOperations_step.
  cbn [positionInBefore positionInAfter operations Match.new Match.startInBefore
         Match.startInAfter Match.length Match.endInBefore Match.endInAfter].
  cbn [Z.eqb negb app].
  destruct bs as [|b bs], ts as [|t ts].
  - reflexivity.
  - rewrite (bool_decide_eq_true_2 (0 = Z.of_nat (length []))) by done.
    rewrite (bool_decide_eq_false_2 (0 = Z.of_nat (length (t :: ts))))
      by (cbn [length]; lia).
    unfold actionMap. repeat case_bool_decide; try congruence.
    by rewrite postProcessOperations_single.
  - rewrite (bool_decide_eq_false_2 (0 = Z.of_nat (length (b :: bs))))
      by (cbn [length]; lia).
    rewrite (bool_decide_eq_true_2 (0 = Z.of_nat (length []))) by done.
    unfold actionMap. repeat case_bool_decide; try congruence.
    by rewrite postProcessOperations_single.
  - rewrite (bool_decide_eq_false_2 (0 = Z.of_nat (length (b :: bs))))
      by (cbn [length]; lia).
    rewrite (bool_decide_eq_false_2 (0 = Z.of_nat (length (t :: ts))))
      by (cbn [length]; lia).
    unfold actionMap. repeat case_bool_decide; try congruence.
    by rewrite postProcessOperations_single.
Qed.

Lemma calculateOperations_nothing_in_common_witness :
  calculateOperations (Tokens [str "a"; str "b"]) (Tokens [str "x"])
  = Normal [ {| Op.action := ActReplace; Op.startInBefore := 0; Op.endInBefore := Some 1;
                Op.startInAfter := 0; Op.endInAfter := Some 0 |} ].
Proof.
  apply (calculateOperations_nothing_in_common [str "a"; str "b"] [str "x"]).
  intros i j (t & Hb & Ha).
  apply nthZ_Some in Hb as [Hi Hb]. apply nthZ_Some in Ha as [Hj Ha].
  destruct (Z.to_nat j) as [|[|?]]; [|done..].
  destruct (Z.to_nat i) as [|[|[|?]]]; vm_compute in Hb, Ha; congruence.
Defined.

(** * Reading the diff records *)

(** [rec[name]] where it is a string, else the empty string. *)
Definition propString (rec : record) (name : string) : jsstring :=
  match getProp rec name with
  | Some (VString s) => s
  | _ => []
  end.

(** The part of the before text a record stands for: the text of an equal
    or delete record, the old text of a replace record. *)
Definition beforeText (rec : record) : jsstring :=
  let type := propString rec "type" in
  if bool_decide (type = str "equal") || bool_decide (type = str "delete")
  then propString rec "text"
  else if bool_decide (type = str "replace") then propString rec "oldText"
  else [].

(** The part of the after text a record stands for: the text of an equal or
    insert record, the new text of a replace record. *)
Definition afterText (rec : record) : jsstring :=
  let type := propString rec "type" in
  if bool_decide (type = str "equal") || bool_decide (type = str "insert")
  then propString rec "text"
  else if bool_decide (type = str "replace") then propString rec "newText"
  else [].

(** The fields [startField] and [endField] of the record are the first and
    the last position of its field [textField] in [s]. *)
Definition located (s : jsstring) (rec : record) (startField endField textField : string)
    : Prop :=
  exists first final text,
    getProp rec startField = Some (VNumber first)
    /\ getProp rec endField = Some (VNumber final)
    /\ getProp rec textField = Some (VString text)
    /\ slice s first (final + 1) = text.

(** Every position pair of a record locates its text in the string it
    belongs to, and the record is of one of the four types. *)
Definition record_located (before after : jsstring) (rec : record) : Prop :=
  let type := propString rec "type" in
  type ∈ [str "equal"; str "insert"; str "delete"; str "replace"]
  /\ (type = str "equal" ->
      located before rec "beforeStartPosition" "beforeEndPosition" "text"
      /\ located after rec "afterStartPosition" "afterEndPosition" "text")
  /\ (type = str "insert" ->
      located after rec "afterStartPosition" "afterEndPosition" "text")
  /\ (type = str "delete" ->
      located before rec "beforeStartPosition" "beforeEndPosition" "text")
  /\ (type = str "replace" ->
      located before rec "beforeStartPosition" "beforeEndPosition" "oldText"
      /\ located after rec "afterStartPosition" "afterEndPosition" "newText").

(** An operation with its ranges inside the two sequences. *)
Definition op_spans (nb na : Z) (op : Op.t) : Prop :=
  0 <= Op.startInBefore op /\ 0 <= Op.startInAfter op
  /\ match Op.action op with
     | ActEqual | ActReplace =>
         exists eb ea,
           Op.endInBefore op = Some eb /\ Op.endInAfter op = Some ea
           /\ Op.startInBefore op <= eb < nb /\ Op.startInAfter op <= ea < na
     | ActInsert =>
         exists ea, Op.endInAfter op = Some ea /\ Op.startInAfter op <= ea < na
     | ActDelete =>
         exists eb, Op.endInBefore op = Some eb /\ Op.startInBefore op <= eb < nb
     | ActNone => False
     end.

(** The tokens an operation takes from the before sequence, and from the
    after sequence. *)
Definition beforeSlice (beforeTokens : list jsstring) (op : Op.t) : list jsstring :=
  match Op.action op with
  | ActEqual | ActDelete | ActReplace =>
      sliceThrough beforeTokens (Op.startInBefore op) (Op.endInBefore op)
  | _ => []
  end.

Definition afterSlice (afterTokens : list jsstring) (op : Op.t) : list jsstring :=
  match Op.action op with
  | ActEqual | ActInsert | ActReplace =>
      sliceThrough afterTokens (Op.startInAfter op) (Op.endInAfter op)
  | _ => []
  end.

Section Records.

Context (before after : jsstring) (beforeTokens afterTokens : list jsstring).

Lemma htmlToTokens_join (html : jsstring) : join (htmlToTokens html) = html.
Proof.
  unfold join, htmlToTokens. rewrite flush_concat.
  pose proof (htmlToTokens_loop_concat (stringIterator html) lexer_init) as H.
  cbn zeta in H. rewrite H. cbn. apply stringIterator_concat.
Qed.

Lemma join_app (l1 l2 : list jsstring) : join (l1 ++ l2) = join l1 ++ join l2.
Proof. apply concat_app. Qed.

Lemma covers_spans (ops : list Op.t) :
  forall pb pa nb na,
    0 <= pb -> 0 <= pa -> covers pb pa ops nb na -> Forall (op_spans nb na) ops.
Proof.
  induction ops as [|op ops IH]; intros pb pa nb na Hpb Hpa Hcov; [constructor|].
  cbn [covers] in Hcov. destruct Hcov as (Hb & Ha & H).
  unfold op_spans. constructor.
  - rewrite Hb, Ha. split; [done|]. split; [done|].
    destruct (Op.action op).
    + destruct H as (eb & ea & ? & ? & ? & ? & H%covers_le). exists eb, ea.
      repeat split; try done; lia.
    + destruct H as (ea & ? & ? & ? & H%covers_le). exists ea. repeat split; try done; lia.
    + destruct H as (eb & ? & ? & ? & H%covers_le). exists eb. repeat split; try done; lia.
    + destruct H as (eb & ea & ? & ? & ? & ? & H%covers_le). exists eb, ea.
      repeat split; try done; lia.
    + done.
  - destruct (Op.action op).
    + destruct H as (eb & ea & _ & _ & ? & ? & H). apply (IH (eb + 1) (ea + 1)); [lia..|done].
    + destruct H as (ea & _ & _ & ? & H). apply (IH pb (ea + 1)); [lia..|done].
    + destruct H as (eb & _ & _ & ? & H). apply (IH (eb + 1) pa); [lia..|done].
    + destruct H as (eb & ea & _ & _ & ? & ? & H). apply (IH (eb + 1) (ea + 1)); [lia..|done].
    + done.
Qed.

(** The slices of a tiling, put together, are the sequences. *)
Lemma covers_slices (ops : list Op.t) :
  forall pb pa nb na,
    0 <= pb -> 0 <= pa -> covers pb pa ops nb na ->
    concat (beforeSlice beforeTokens <$> ops) = slice beforeTokens pb nb
    /\ concat (afterSlice afterTokens <$> ops) = slice afterTokens pa na.
Proof.
  induction ops as [|op ops IH]; intros pb pa nb na Hpb Hpa Hcov; cbn [covers] in Hcov.
  - destruct Hcov as [-> ->]. by rewrite !slice_empty.
  - destruct Hcov as (Hb & Ha & H). rewrite !fmap_cons. cbn [concat].
    unfold beforeSlice at 1, afterSlice at 1. rewrite Hb, Ha.
    destruct (Op.action op).
    + destruct H as (eb & ea & -> & -> & ? & ? & H).
      pose proof (covers_le _ _ _ _ _ H).
      destruct (IH (eb + 1) (ea + 1) nb na ltac:(lia) ltac:(lia) H) as [-> ->].
      cbn [sliceThrough]. by rewrite !slice_app by lia.
    + destruct H as (ea & _ & -> & ? & H).
      pose proof (covers_le _ _ _ _ _ H).
      destruct (IH pb (ea + 1) nb na ltac:(lia) ltac:(lia) H) as [-> ->].
      cbn [sliceThrough app]. by rewrite !slice_app by lia.
    + destruct H as (eb & -> & _ & ? & H).
      pose proof (covers_le _ _ _ _ _ H).
      destruct (IH (eb + 1) pa nb na ltac:(lia) ltac:(lia) H) as [-> ->].
      cbn [sliceThrough app]. by rewrite !slice_app by lia.
    + destruct H as (eb & ea & -> & -> & ? & ? & H).
      pose proof (covers_le _ _ _ _ _ H).
      destruct (IH (eb + 1) (ea + 1) nb na ltac:(lia) ltac:(lia) H) as [-> ->].
      cbn [sliceThrough]. by rewrite !slice_app by lia.
    + done.
Qed.

(** Every operation adds its record, or none, to what is there. *)
Lemma createDiffObjects_step_app (diffObjects : list record) (op : Op.t) :
  createDiffObjects_step before after beforeTokens afterTokens diffObjects op
  = diffObjects
    ++ createDiffObjects_step before after beforeTokens afterTokens [] op.
Proof.
  unfold createDiffObjects_step. destruct (Op.action op); cbn [app]; try done.
  by rewrite app_nil_r.
Qed.

Lemma createDiffObjects_records (ops : list Op.t) :
  createDiffObjects before after beforeTokens afterTokens ops
  = concat ((createDiffObjects_step before after beforeTokens afterTokens []) <$> ops).
Proof.
  unfold createDiffObjects.
  enough (forall acc,
             fold_left (createDiffObjects_step before after beforeTokens afterTokens) ops acc
             = acc ++ concat ((createDiffObjects_step before after
                                 beforeTokens afterTokens []) <$> ops))
    as H by apply (H []).
  induction ops as [|op ops IH]; intros acc; cbn [fold_left].
  - cbn. by rewrite app_nil_r.
  - rewrite IH, createDiffObjects_step_app, fmap_cons. cbn [concat].
    by rewrite app_assoc.
Qed.

(** The texts of the record of one operation are the tokens the operation
    takes from each sequence. *)
Lemma createDiffObjects_step_texts (op : Op.t) :
  equal_same beforeTokens afterTokens op ->
  let recs := createDiffObjects_step before after beforeTokens afterTokens [] op in
  concat (beforeText <$> recs) = join (beforeSlice beforeTokens op)
  /\ concat (afterText <$> recs) = join (afterSlice afterTokens op).
Proof.
  intros Hsame. cbv zeta.
  unfold createDiffObjects_step, beforeSlice, afterSlice, equal_same in *.
  destruct (Op.action op); cbn [app fmap list_fmap concat].
  - rewrite <- Hsame by done. split; apply app_nil_r.
  - split; [reflexivity | apply app_nil_r].
  - split; [apply app_nil_r | reflexivity].
  - split; apply app_nil_r.
  - done.
Qed.

Lemma createDiffObjects_texts (ops : list Op.t) :
  Forall (equal_same beforeTokens afterTokens) ops ->
  let recs := createDiffObjects before after beforeTokens afterTokens ops in
  concat (beforeText <$> recs) = join (concat (beforeSlice beforeTokens <$> ops))
  /\ concat (afterText <$> recs) = join (concat (afterSlice afterTokens <$> ops)).
Proof.
  intros Hsame. cbv zeta. rewrite createDiffObjects_records.
  induction ops as [|op ops IH]; [done|].
  apply Forall_cons in Hsame as [Hop Hsame].
  destruct (IH Hsame) as [IHb IHa].
  destruct (createDiffObjects_step_texts op Hop) as [Hb Ha]. cbv zeta in Hb, Ha.
  rewrite !fmap_cons. cbn [concat]. rewrite !fmap_app, !concat_app, !join_app.
  by rewrite IHb, IHa, Hb, Ha.
Qed.

End Records.

Section RecordPositions.

Context (before after : jsstring) (beforeTokens afterTokens : list jsstring).

(** The text of the tokens [s .. e] starts in the joined text where the
    text of the tokens before [s] ends. *)
Lemma text_position (ts : list jsstring) (s e : Z) :
  0 <= s <= e + 1 -> e < Z.of_nat (length ts) ->
  slice (join ts) (getTextPosition ts 0 s)
    (getTextPosition ts 0 s + strlen (join (slice ts s (e + 1))) - 1 + 1)
  = join (slice ts s (e + 1)).
Proof.
  intros Hs He.
  assert (Hsplit : join ts
                   = join (slice ts 0 s) ++ join (slice ts s (e + 1))
                     ++ join (slice ts (e + 1) (Z.of_nat (length ts)))).
  { rewrite <- !join_app. rewrite (slice_app ts s) by lia.
    rewrite (slice_app ts 0) by lia. by rewrite slice_whole. }
  rewrite Hsplit at 1. unfold getTextPosition, strlen.
  replace (Z.of_nat (length (join (slice ts 0 s)))
           + Z.of_nat (length (join (slice ts s (e + 1)))) - 1 + 1)
    with (Z.of_nat (length (join (slice ts 0 s)))
          + Z.of_nat (length (join (slice ts s (e + 1))))) by lia.
  apply slice_middle.
Qed.

Lemma createDiffObjects_step_located (op : Op.t) :
  join beforeTokens = before -> join afterTokens = after ->
  op_spans (Z.of_nat (length beforeTokens)) (Z.of_nat (length afterTokens)) op ->
  equal_same beforeTokens afterTokens op ->
  Forall (record_located before after)
    (createDiffObjects_step before after beforeTokens afterTokens [] op).
Proof.
  intros Hbefore Hafter (HsB & HsA & Hspan) Hsame.
  unfold createDiffObjects_step, equal_same in *.
  destruct (Op.action op) eqn:Hact; cbn [app].
  - destruct Hspan as (eb & ea & HeB & HeA & Hb1 & Hb2). specialize (Hsame eq_refl).
    rewrite HeB in Hsame |- *. rewrite HeA in Hsame. cbn [sliceThrough] in Hsame |- *.
    constructor; [|constructor]. split; [|split; [|split; [|split]]].
    + vm_compute. repeat constructor.
    + intros _. split.
      * eexists _, _, _. repeat split; try reflexivity.
        rewrite <- Hbefore. apply text_position; lia.
      * eexists _, _, _. repeat split; try reflexivity.
        rewrite <- Hafter, Hsame. apply text_position; lia.
    + intros Hty. vm_compute in Hty. discriminate.
    + intros Hty. vm_compute in Hty. discriminate.
    + intros Hty. vm_compute in Hty. discriminate.
  - destruct Hspan as (ea & HeA & Hb1). rewrite HeA. cbn [sliceThrough].
    constructor; [|constructor]. split; [|split; [|split; [|split]]].
    + vm_compute. repeat constructor.
    + intros Hty. vm_compute in Hty. discriminate.
    + intros _. eexists _, _, _. repeat split; try reflexivity.
      rewrite <- Hafter. apply text_position; lia.
    + intros Hty. vm_compute in Hty. discriminate.
    + intros Hty. vm_compute in Hty. discriminate.
  - destruct Hspan as (eb & HeB & Hb1). rewrite HeB. cbn [sliceThrough].
    constructor; [|constructor]. split; [|split; [|split; [|split]]].
    + vm_compute. repeat constructor.
    + intros Hty. vm_compute in Hty. discriminate.
    + intros Hty. vm_compute in Hty. discriminate.
    + intros _. eexists _, _, _. repeat split; try reflexivity.
      rewrite <- Hbefore. apply text_position; lia.
    + intros Hty. vm_compute in Hty. discriminate.
  - destruct Hspan as (eb & ea & HeB & HeA & Hb1 & Hb2).
    rewrite HeB, HeA. cbn [sliceThrough].
    constructor; [|constructor]. split; [|split; [|split; [|split]]].
    + vm_compute. repeat constructor.
    + intros Hty. vm_compute in Hty. discriminate.
    + intros Hty. vm_compute in Hty. discriminate.
    + intros Hty. vm_compute in Hty. discriminate.
    + intros _. split.
      * eexists _, _, _. repeat split; try reflexivity.
        rewrite <- Hbefore. apply text_position; lia.
      * eexists _, _, _. repeat split; try reflexivity.
        rewrite <- Hafter. apply text_position; lia.
  - done.
Qed.

End RecordPositions.

(** All that is proved above of the operations of two token sequences. *)
Lemma calculateOperations_summary (beforeTokens afterTokens : list jsstring) :
  exists ops,
    calculateOperations (Tokens beforeTokens) (Tokens afterTokens) = Normal ops
    /\ covers 0 0 ops (Z.of_nat (length beforeTokens)) (Z.of_nat (length afterTokens))
    /\ Forall (equal_same beforeTokens afterTokens) ops
    /\ no_equal_pair ops.
Proof.
  destruct (calculateOperations_equal beforeTokens afterTokens) as (ops & Hops & Hsame & Hpair).
  exists ops. repeat split; try done.
  destruct (derivedOperations_covers beforeTokens afterTokens) as (derived & Hd & Hcov).
  unfold calculateOperations in Hops. rewrite Hd in Hops. injection Hops as <-.
  unfold postProcessOperations. by apply postProcessOperations_loop_covers.
Qed.

(** The records of [diff] give both strings back. *)
Lemma diff_texts (before after : jsstring) :
  exists recs,
    diff before after = Normal recs
    /\ concat (beforeText <$> recs) = before
    /\ concat (afterText <$> recs) = after.
Proof.
  unfold diff. case_bool_decide as Heq.
  - subst after. eexists. split; [reflexivity|]. split; apply app_nil_r.
  - destruct (calculateOperations_summary (htmlToTokens before) (htmlToTokens after))
      as (ops & -> & Hcov & Hsame & _).
    cbn [bind]. eexists. split; [reflexivity|].
    destruct (createDiffObjects_texts before after _ _ ops Hsame) as [-> ->].
    destruct (covers_slices (htmlToTokens before) (htmlToTokens after) ops 0 0 _ _
                ltac:(lia) ltac:(lia) Hcov) as [-> ->].
    rewrite !slice_whole. split; apply htmlToTokens_join.
Qed.


(** X7. [diff] never throws, and its records give both strings back: the
    texts of the equal and delete records and the old texts of the replace
    records, joined in order, are [before]; the texts of the equal and
    insert records and the new texts of the replace records are [after]. *)
Theorem diff_reconstructs (before after : jsstring) :
  exists recs,
    diff before after = Normal recs
    /\ concat (beforeText <$> recs) = before
    /\ concat (afterText <$> recs) = after.
Proof. apply diff_texts. Qed.

(** X8. For two distinct strings, every record of [diff] is of type equal,
    insert, delete or replace, and each of its position pairs locates its
    text in the string it refers to: characters [beforeStartPosition] to
    [beforeEndPosition] of [before] are the text (or old text) of the
    record, and likewise for the after positions. *)
Theorem diff_positions_locate_texts (before after : jsstring) :
  before <> after ->
  exists recs,
    diff before after = Normal recs
    /\ Forall (record_located before after) recs.
Proof.
  intros Hne. unfold diff. rewrite bool_decide_eq_false_2 by done.
  destruct (calculateOperations_summary (htmlToTokens before) (htmlToTokens after))
    as (ops & -> & Hcov & Hsame & _).
  cbn [bind]. eexists. split; [reflexivity|].
  rewrite createDiffObjects_records.
  pose proof (covers_spans ops 0 0 _ _ ltac:(lia) ltac:(lia) Hcov) as Hspans.
  clear Hcov.
  induction ops as [|op ops IH]; [constructor|].
  apply Forall_cons in Hsame as [Hop Hsame]. apply Forall_cons in Hspans as [Hspan Hspans].
  rewrite fmap_cons. cbn [concat]. apply Forall_app. split.
  - apply createDiffObjects_step_located; try done; apply htmlToTokens_join.
  - by apply IH.
Qed.

(** A witness of the theorem above: one word replaced by another. *)
Lemma diff_positions_locate_texts_witness :
  str "a b" <> str "a c"
  /\ exists recs,
       diff (str "a b") (str "a c") = Normal recs
       /\ Forall (record_located (str "a b") (str "a c")) recs.
Proof.
  split; [vm_compute; discriminate|].
  apply (diff_positions_locate_texts (str "a b") (str "a c")).
  vm_compute. discriminate.
Defined.

(** The part of both texts a record of type equal stands for is its text. *)
Lemma equal_record_texts (rec : record) :
  propString rec "type" = str "equal" -> beforeText rec = afterText rec.
Proof.
  intros Htype. unfold beforeText, afterText. cbv zeta.
  by rewrite Htype, (bool_decide_eq_true_2 (str "equal" = str "equal")) by done.
Qed.

(** X9. [diff] reports equal records only when the two strings are the
    same: for distinct strings at least one record is an insert, a delete
    or a replace, and for equal strings the one record is an equal one. *)
Theorem diff_all_equal_iff_same (before after : jsstring) :
  exists recs,
    diff before after = Normal recs
    /\ (Forall (fun rec => propString rec "type" = str "equal") recs <-> before = after).
Proof.
  destruct (diff_texts before after) as (recs & Hdiff & Hbefore & Hafter).
  exists recs. split; [done|]. split.
  - intros Hall. rewrite <- Hbefore, <- Hafter. f_equal.
    clear -Hall. induction Hall as [|rec recs Hrec _ IH]; [done|].
    rewrite !fmap_cons, IH. f_equal. by apply equal_record_texts.
  - intros <-. unfold diff in Hdiff.
    rewrite bool_decide_eq_true_2 in Hdiff by done.
    injection Hdiff as <-. by repeat constructor.
Qed.

(** X10. [diffToHTML] gives a string back only for two equal strings, and
    then that very string; for any two distinct strings it runs into the
    call of [renderOperations], which the class does not define. *)
Theorem diffToHTML_outcome (before after : jsstring) :
  diffToHTML before after
  = if bool_decide (before = after) then Normal before
    else Throw (TypeError "this.renderOperations is not a function").
Proof.
  unfold diffToHTML. case_bool_decide; [done|].
  by destruct (calculateOperations_summary (htmlToTokens before) (htmlToTokens after))
    as (ops & -> & _).
Qed.

(** * What [postProcessOperations] leaves behind *)

(** [R] holds of every two operations next to each other. *)
Fixpoint neighbours (R : Op.t -> Op.t -> Prop) (ops : list Op.t) : Prop :=
  match ops with
  | op1 :: ((op2 :: _) as rest) => R op1 op2 /\ neighbours R rest
  | _ => True
  end.

(** After a replace there is neither another replace nor an equal
    operation of one whitespace token. *)
Definition absorbed (beforeTokens : list jsstring) (op1 op2 : Op.t) : Prop :=
  Op.action op1 = ActReplace ->
  Op.action op2 <> ActReplace /\ isSingleWhitespace beforeTokens op2 = false.

Section Absorption.

Context (beforeTokens : list jsstring).

Lemma neighbours_snoc (R : Op.t -> Op.t -> Prop) (ops : list Op.t) (op : Op.t) :
  neighbours R (ops ++ [op])
  <-> neighbours R ops /\ (forall x, last ops = Some x -> R x op).
Proof.
  induction ops as [|a ops IH]; [cbn; split; [by intros _; split | done]|].
  destruct ops as [|b ops].
  - cbn. split.
    + intros [HR _]. split; [done|]. by intros x [= <-].
    + intros [_ HR]. split; [by apply HR | done].
  - change ((a :: b :: ops) ++ [op]) with (a :: (b :: ops) ++ [op]).
    change (last (a :: b :: ops)) with (last (b :: ops)).
    change (neighbours R (a :: (b :: ops) ++ [op]))
      with (R a b /\ neighbours R ((b :: ops) ++ [op])).
    change (neighbours R (a :: b :: ops)) with (R a b /\ neighbours R (b :: ops)).
    rewrite IH. tauto.
Qed.

Lemma postProcessOperations_step_absorbed (processed : list Op.t) (op : Op.t) :
  neighbours (absorbed beforeTokens) processed ->
  neighbours (absorbed beforeTokens) (postProcessOperations_step beforeTokens processed op).
Proof.
  intros Hprocessed. unfold postProcessOperations_step.
  destruct (_ || _) eqn:Hfold.
  - assert (Hlast : lastOp_action processed = ActReplace).
    { apply orb_true_iff in Hfold as [H|H]; apply andb_true_iff in H as [_ H];
        by apply bool_decide_eq_true in H. }
    unfold lastOp_action, extendLast in *.
    destruct (last processed) as [lastOp|] eqn:Hl; [|done].
    apply last_Some in Hl as [processed' ->]. rewrite removelast_last.
    apply neighbours_snoc in Hprocessed as [Hinit Hjoin].
    apply neighbours_snoc. split; [done|].
    intros x Hx Hrep. destruct (Hjoin x Hx Hrep) as [Hno _]. done.
  - apply neighbours_snoc. split; [done|].
    intros x Hx Hrep.
    assert (Hlast : lastOp_action processed = ActReplace)
      by (unfold lastOp_action; by rewrite Hx).
    rewrite (bool_decide_eq_true_2 _ Hlast), !andb_true_r in Hfold.
    apply orb_false_iff in Hfold as [Hws Hop].
    split; [|done]. by apply bool_decide_eq_false in Hop.
Qed.

Lemma postProcessOperations_loop_absorbed (operations : list Op.t) :
  forall processed,
    neighbours (absorbed beforeTokens) processed ->
    neighbours (absorbed beforeTokens)
      (fold_left (postProcessOperations_step beforeTokens) operations processed).
Proof.
  induction operations as [|op ops IH]; intros processed Hprocessed; [done|].
  cbn [fold_left]. by apply IH, postProcessOperations_step_absorbed.
Qed.

End Absorption.

(** X11. In the operations [calculateOperations] returns, a replace is
    never followed directly by another replace, nor by an equal operation
    that spans one whitespace token: [postProcessOperations] has folded
    both into the replace before them. *)
Theorem calculateOperations_replace_absorbs (beforeTokens afterTokens : list jsstring) :
  exists ops,
    calculateOperations (Tokens beforeTokens) (Tokens afterTokens) = Normal ops
    /\ neighbours (absorbed beforeTokens) ops.
Proof.
  destruct (derivedOperations_covers beforeTokens afterTokens) as (derived & Hd & _).
  unfold calculateOperations. rewrite Hd. eexists. split; [reflexivity|].
  unfold postProcessOperations. by apply postProcessOperations_loop_absorbed.
Qed.

(** * The helpers of the renderer *)

(** For every [start], negative or beyond the end as well, the result of
    [consecutiveWhere] is the longest matching prefix of
    [content.slice(start)]. *)
Lemma consecutiveWhere_subset (start : Z) (content : list jsstring)
    (predicate : jsstring -> bool) :
  consecutiveWhere start content predicate
  = prefixWhere predicate (slice content start (Z.of_nat (length content))).
Proof.
  unfold consecutiveWhere. cbv zeta.
  generalize (slice content start (Z.of_nat (length content))). intros subset.
  rewrite consecutiveWhere_loop_last.
  pose proof (prefixWhere_take predicate subset) as Htake.
  destruct (prefixWhere predicate subset) as [|t run] eqn:Hrun; [reflexivity|].
  cbn [length]. decide_Zb.
  replace (0 + Z.of_nat (S (length run)) - 1 + 1)
    with (Z.of_nat (length (t :: run))) by (cbn [length]; lia).
  rewrite slice_0; [done|].
  rewrite <- Htake, length_take. lia.
Qed.

(** X12. [consecutiveWhere] cuts [content.slice(start)] after its longest
    run of tokens that satisfy the predicate: the result is a prefix of the
    slice, all of its tokens satisfy the predicate, and what follows is
    empty or starts with a token that fails it. *)
Theorem consecutiveWhere_longest_run (start : Z) (content : list jsstring)
    (predicate : jsstring -> bool) :
  exists rest,
    slice content start (Z.of_nat (length content))
    = consecutiveWhere start content predicate ++ rest
    /\ Forall (fun token => predicate token = true)
         (consecutiveWhere start content predicate)
    /\ match rest with [] => True | token :: _ => predicate token = false end.
Proof.
  rewrite consecutiveWhere_subset.
  destruct (prefixWhere_split predicate (slice content start (Z.of_nat (length content))))
    as (rest & Hsplit & Hrest).
  exists rest. split; [done|]. split; [apply prefixWhere_Forall | done].
Qed.

(** X13. Content without a tag token goes into one wrapper as a whole. *)
Theorem wrapWithTag_text_only (tag : jsstring) (content : list jsstring) :
  content <> [] ->
  Forall (fun token => isTag token = false) content ->
  wrapWithTag tag content = wrapper tag (join content).
Proof.
  intros Hne Hplain. unfold wrapWithTag.
  transitivity ([] ++ concat (renderSegment tag <$> runs content));
    [apply (wrapWithTag_loop_runs tag (length content) [] content []); lia|].
  cbn [app].
  pose proof (runs_nonTags content []) as Hruns. rewrite app_nil_r in Hruns.
  rewrite Hruns; [cbn; by rewrite app_nil_r | done | | done].
  eapply Forall_impl; [exact Hplain|]. intros token Htoken. cbn. by rewrite Htoken.
Qed.

Lemma wrapWithTag_text_only_witness :
  [str "new"; str " "; str "text"] <> []
  /\ Forall (fun token => isTag token = false) [str "new"; str " "; str "text"]
  /\ wrapWithTag (str "ins") [str "new"; str " "; str "text"]
     = wrapper (str "ins") (join [str "new"; str " "; str "text"]).
Proof.
  assert (Hne : [str "new"; str " "; str "text"] <> []) by discriminate.
  assert (Hplain : Forall (fun token => isTag token = false)
                     [str "new"; str " "; str "text"])
    by (repeat constructor).
  split; [exact Hne|]. split; [exact Hplain|].
  exact (wrapWithTag_text_only (str "ins") _ Hne Hplain).
Defined.

(** X14. Content of tag tokens only is emitted as it is, with no wrapper at
    all. *)
Theorem wrapWithTag_tags_only (tag : jsstring) (content : list jsstring) :
  Forall (fun token => isTag token = true) content ->
  wrapWithTag tag content = join content.
Proof.
  intros Htags. unfold wrapWithTag.
  transitivity ([] ++ concat (renderSegment tag <$> runs content));
    [apply (wrapWithTag_loop_runs tag (length content) [] content []); lia|].
  cbn [app].
  destruct content as [|token content]; [reflexivity|].
  pose proof (runs_tags (token :: content) []) as Hruns. rewrite app_nil_r in Hruns.
  rewrite Hruns; [cbn; by rewrite app_nil_r | done | done | done].
Qed.

Lemma wrapWithTag_tags_only_witness :
  Forall (fun token => isTag token = true) [str "<b>"; str "</b>"]
  /\ wrapWithTag (str "del") [str "<b>"; str "</b>"] = join [str "<b>"; str "</b>"].
Proof.
  assert (Htags : Forall (fun token => isTag token = true) [str "<b>"; str "</b>"])
    by (repeat constructor).
  split; [exact Htags|].
  exact (wrapWithTag_tags_only (str "del") _ Htags).
Defined.

(** * The index of [findMatch] *)



(** X16. [isWhitespace] accepts the non-empty strings made of whitespace
    units only; the empty string and any string with another unit in it are
    refused. *)
Theorem isWhitespace_whitespace_only (char : jsstring) :
  isWhitespace char = true
  <-> char <> [] /\ Forall (fun c => class_s c = true) char.
Proof. unfold isWhitespace. rewrite matches_lang. apply lang_plus_class. Qed.
